(** * fs-caching-server: a shallow embedding of [fs-caching-server.js]

    The server is an event-driven program: every callback of the source
    ([_onRequest], the [fs.stat] callbacks, the response callback of the
    outgoing request, the [mkdirp] callback, the write-stream handlers, the
    [fs.rename] callback and [finish]) runs to completion before the next one
    starts.  Each callback is embedded as a function on an explicit server
    state; the runtime that decides which callback fires next is the
    environment and appears as a list of events.

    The embedding keeps what the callbacks read and write: [self.inProgress],
    [self.idle], the response objects (shared between the closures and the
    queues, hence a store of objects addressed by identity), the files under
    the cache directory and the requests sent to the backend.  It leaves out
    the access log and the [log] events, which no callback reads, and the
    listening socket.

    The environment is constrained as follows.  A stream piped into a
    response or into the write stream delivers its data in full, and the
    effect on a response is recorded when the pipe is set up.  The outgoing
    request of a fill fails, if it does, before its response arrives.  Only
    the server writes under the cache directory, and a path holds one file:
    writing to a path writes to the file that is at that path.

    The callers of the server are embedded as well: [onIdle], over the
    server and the listeners it registers for [idle]; [start] and [stop],
    over the fields of the instance they test; and [main], as a function
    of the environment and of the options the parser returns. *)

From stdpp Require Import gmap strings list fin_maps pretty.
From Stdlib Require Import ZArith Ascii.

Local Open Scope Z_scope.

(** ** JavaScript strings

    Strings are byte strings.  Only the operations the server uses are
    embedded. *)
Module Js.

Definition slash : ascii := "/"%char.
Definition quote : ascii := "034"%char.

(** [s.split(sep)] for a one-character separator. *)
Fixpoint split (sep : ascii) (s : string) : list string :=
  match s with
  | EmptyString => [EmptyString]
  | String c s' =>
      if decide (c = sep) then EmptyString :: split sep s'
      else match split sep s' with
           | [] => [String c EmptyString]
           | w :: ws => String c w :: ws
           end
  end.

(** [l.join(sep)]. *)
Fixpoint join (sep : string) (l : list string) : string :=
  match l with
  | [] => EmptyString
  | [x] => x
  | x :: l' => x +:+ sep +:+ join sep l'
  end.

Fixpoint chars (s : string) : list ascii :=
  match s with
  | EmptyString => []
  | String c s' => c :: chars s'
  end.

Fixpoint of_chars (l : list ascii) : string :=
  match l with
  | [] => EmptyString
  | c :: l' => String c (of_chars l')
  end.

Definition startsWith (p s : string) : bool := String.prefix p s.

Definition endsWith (p s : string) : bool :=
  String.prefix (String.rev p) (String.rev s).

Definition toLowerChar (c : ascii) : ascii :=
  let n := N_of_ascii c in
  if ((65 <=? n) && (n <=? 90))%N then ascii_of_N (n + 32) else c.

(** [s.toLowerCase()] on ASCII letters. *)
Fixpoint toLowerCase (s : string) : string :=
  match s with
  | EmptyString => EmptyString
  | String c s' => String (toLowerChar c) (toLowerCase s')
  end.

(** [s.includes(sub)]: what [/sub/.test(s)] computes for a pattern made of
    literal characters. *)
Fixpoint includes (sub s : string) : bool :=
  String.prefix sub s ||
  match s with
  | EmptyString => false
  | String _ s' => includes sub s'
  end.

(** [a.indexOf(x) === -1] on an array of strings. *)
Definition notIn (x : string) (a : list string) : bool :=
  negb (bool_decide (x ∈ a)).

(** [util.format('%d', n)] for an integral number. *)
Definition fmt_d (n : Z) : string := pretty n.

End Js.

(** ** [decodeURIComponent]

    The ECMAScript [Decode] operation with an empty reserved set: a [%] must
    be followed by two hexadecimal digits, and escaped octets of 0x80 and
    above must form a well-formed UTF-8 sequence made of escapes only;
    anything else throws [URIError], which is [None] here.  The result is the
    decoded byte string. *)
Module Uri.

Definition hexval (c : ascii) : option N :=
  let n := N_of_ascii c in
  if ((48 <=? n) && (n <=? 57))%N then Some (n - 48)%N
  else if ((65 <=? n) && (n <=? 70))%N then Some (n - 55)%N
  else if ((97 <=? n) && (n <=? 102))%N then Some (n - 87)%N
  else None.

Inductive item :=
  | Lit (c : ascii)
  | Esc (b : N).

(** First pass: recognise the escapes. *)
Fixpoint unescape (s : string) : option (list item) :=
  match s with
  | EmptyString => Some []
  | String c s1 =>
      if decide (c = "%"%char) then
        match s1 with
        | String h1 (String h2 s3) =>
            match hexval h1, hexval h2, unescape s3 with
            | Some a, Some b, Some r => Some (Esc (16 * a + b)%N :: r)
            | _, _, _ => None
            end
        | _ => None
        end
      else
        match unescape s1 with
        | Some r => Some (Lit c :: r)
        | None => None
        end
  end.

(** Number of octets announced by a leading octet, and the smallest code
    point that may use that many. *)
Definition lead (b : N) : option (nat * N * N) :=
  if (b <? 128)%N then Some (0%nat, b, 0%N)
  else if (b <? 192)%N then None
  else if (b <? 224)%N then Some (1%nat, (b - 192)%N, 128%N)
  else if (b <? 240)%N then Some (2%nat, (b - 224)%N, 2048%N)
  else if (b <? 248)%N then Some (3%nat, (b - 240)%N, 65536%N)
  else None.

Definition valid_cp (cp lo : N) : bool :=
  ((lo <=? cp) && (cp <=? 1114111) && negb ((55296 <=? cp) && (cp <=? 57343)))%N.

(** Second pass: [pend = Some (k, cp, lo)] while [k] continuation octets of
    the code point [cp] are still expected. *)
Fixpoint utf8 (pend : option (nat * N * N)) (l : list item) : option string :=
  match l, pend with
  | [], None => Some EmptyString
  | [], Some _ => None
  | Lit c :: r, None => String c <$> utf8 None r
  | Lit _ :: _, Some _ => None
  | Esc b :: r, None =>
      match lead b with
      | Some (O, _, _) => String (ascii_of_N b) <$> utf8 None r
      | Some (S k, cp, lo) => String (ascii_of_N b) <$> utf8 (Some (k, cp, lo)) r
      | None => None
      end
  | Esc b :: r, Some (k, cp, lo) =>
      if ((128 <=? b) && (b <? 192))%N then
        let cp' := (64 * cp + (b - 128))%N in
        match k with
        | O => if valid_cp cp' lo then String (ascii_of_N b) <$> utf8 None r else None
        | S k' => String (ascii_of_N b) <$> utf8 (Some (k', cp', lo)) r
        end
      else None
  end.

Definition decodeURIComponent (s : string) : option string :=
  unescape s ≫= utf8 None.

End Uri.

(** ** [path.posix] *)
Module Path.

(** One step of Node's [normalizeString], segment by segment.  [res] is the
    stack of kept segments, last one first. *)
Definition norm_step (allowAboveRoot : bool) (res : list string) (seg : string)
  : list string :=
  if decide (seg = EmptyString ∨ seg = ".") then res
  else if decide (seg = "..") then
    match res with
    | top :: rest =>
        if decide (top = "..")
        then (if allowAboveRoot then ".." :: res else res)
        else rest
    | [] => if allowAboveRoot then [".."] else []
    end
  else seg :: res.

Definition norm_segs (allowAboveRoot : bool) (segs : list string) : list string :=
  reverse (foldl (norm_step allowAboveRoot) [] segs).

Definition isAbsolute (path : string) : bool := Js.startsWith "/" path.

(** The normalized segments of [path]: Node's [normalizeString], which may
    keep [..] segments (allowAboveRoot) only when the path is relative. *)
Definition segments (path : string) : list string :=
  norm_segs (negb (isAbsolute path)) (Js.split Js.slash path).

(** The end of [path.posix.normalize]: the segments put together again, with
    the root and the trailing separator of the original path. *)
Definition render (absolute : bool) (segs : list string) (trailingSeparator : bool) : string :=
  let p := Js.join "/" segs in
  if decide (p = EmptyString) then
    if absolute then "/" else if trailingSeparator then "./" else "."
  else
    let p' := if trailingSeparator then p +:+ "/" else p in
    if absolute then "/" +:+ p' else p'.

(** [path.posix.normalize]. *)
Definition normalize (path : string) : string :=
  if decide (path = EmptyString) then "."
  else render (isAbsolute path) (segments path) (Js.endsWith "/" path).

(** [path.join(a, b)]: the non-empty arguments joined by [/], normalized. *)
Definition join (a b : string) : string :=
  let joined :=
    if decide (a = EmptyString) then b
    else if decide (b = EmptyString) then a
    else a +:+ "/" +:+ b in
  if decide (joined = EmptyString) then "." else normalize joined.

(** Scan of [path.dirname] over the characters after the first one, last
    character first: [Some n] when a separator that follows a non-separator
    is found with [n] characters remaining before it. *)
Fixpoint dirname_scan (matchedSlash : bool) (r : list ascii) : option nat :=
  match r with
  | [] => None
  | c :: r' =>
      if decide (c = Js.slash) then
        if matchedSlash then dirname_scan true r' else Some (length r')
      else dirname_scan false r'
  end.

(** [path.dirname]. *)
Definition dirname (path : string) : string :=
  match path with
  | EmptyString => "."
  | String c rest =>
      let hasRoot := bool_decide (c = Js.slash) in
      match dirname_scan true (rev (Js.chars rest)) with
      | None => if hasRoot then "/" else "."
      | Some n =>
          if hasRoot && bool_decide (n = 0%nat) then "//"
          else String c (Js.of_chars (take n (Js.chars rest)))
      end
  end.

End Path.

(** ** Data model *)

(** An incoming message: a client request ([req]) or a backend response
    ([ores]).  Node gives header names in lower case; [url_pathname] and
    [url_path] are the [pathname] and [path] fields of [url.parse(req.url)];
    [payload] is what the message's stream delivers until its [end]. *)
Record IncomingMessage := {
  method : string;
  url_pathname : string;
  url_path : string;
  headers : gmap string string;
  ores_statusCode : Z;
  payload : string
}.

(** A server response object ([res]).  [resHeaders] is keyed by the
    lower-cased header name, as [setHeader] stores it. *)
Record ServerResponse := {
  statusCode : Z;
  resHeaders : gmap string string;
  body : string;
  ended : bool
}.

(** The options object handed to [http.request] / [https.request]. *)
Record ClientRequest := {
  uri_https : bool;
  uri_href : string;
  uri_method : string;
  uri_headers : gmap string string;
  uri_body : string
}.

(** [fs.Stats], as far as the server reads it. *)
Record Stats := {
  stat_size : Z;
  stat_mtime : Z;
  isDirectory : bool
}.

(** The store: what lives at each path of the file system. *)
Inductive node :=
  | File (content : string) (mtimeMs : Z)
  | Dir.

Global Instance node_eq_dec : EqDecision node.
Proof. solve_decision. Defined.

(** An element of a queue of [inProgress]: [{id, req, res}].  The response
    object is shared with the rest of the server, so the queue holds its
    identity. *)
Record waiter := {
  w_req : IncomingMessage;
  w_res : nat
}.

(** The constructor's argument. *)
Record Opts := {
  opts_host : string;
  opts_port : Z;
  opts_backendUrl : string;
  opts_cacheDir : string;
  opts_regex : option (string → bool);
  opts_noProxyHeaders : option (list string);
  opts_cacheMethods : option (list string)
}.

(** The configuration fields of [self]. *)
Record Server := {
  host : string;
  port : Z;
  backendUrl : string;
  cacheDir : string;
  regex : string → bool;
  noProxyHeaders : list string;
  cacheMethods : list string;
  backendHttps : bool
}.

Definition NO_PROXY_HEADERS : list string := ["date"; "server"; "host"].

Definition CACHE_METHODS : list string := ["GET"; "HEAD"].

Definition REGEX_EXTENSIONS : list string :=
  ["png"; "jpg"; "jpeg"; "css"; "html"; "js"; "tar"; "tgz"; "tar.gz"].

(** [REGEX.test(s)] for [/\.(png|jpg|jpeg|css|html|js|tar|tgz|tar\.gz)$/]. *)
Definition REGEX (s : string) : bool :=
  existsb (λ ext, Js.endsWith ("." +:+ ext) s) REGEX_EXTENSIONS.

(** [a || b] on an optional option. *)
Definition or_default {A} (o : option A) (d : A) : A := default d o.

Definition FsCachingServer (opts : Opts) : Server := {|
  host := opts_host opts;
  port := opts_port opts;
  backendUrl := opts_backendUrl opts;
  cacheDir := opts_cacheDir opts;
  regex := or_default (opts_regex opts) REGEX;
  noProxyHeaders := or_default (opts_noProxyHeaders opts) NO_PROXY_HEADERS;
  cacheMethods := or_default (opts_cacheMethods opts) CACHE_METHODS;
  backendHttps := Js.startsWith "https:" (opts_backendUrl opts)
|}.

(** What the cache fill started by one request is waiting for. *)
Inductive phase :=
  | AwaitResponse
  | AwaitMkdirp (ores : IncomingMessage)
  | Opening (ores : IncomingMessage)
  | Writing (ores : IncomingMessage) (pending : string)
  | Renaming (ores : IncomingMessage)
  | Restat (ores : IncomingMessage)
  | Finished.

(** The closure of the [fs.stat] callback of [_onRequest] that started a
    fill: its [req], its [file], and where it stands. *)
Record fill := {
  f_req : IncomingMessage;
  f_file : string;
  f_phase : phase
}.

(** The mutable state: [self.inProgress] and [self.idle], the store, the
    response objects, and the callbacks the runtime still owes the server. *)
Record state := {
  inProgress : gmap string (list waiter);
  idle : bool;
  idleEvents : nat;
  fs : gmap string node;
  responses : gmap nat ServerResponse;
  nextId : nat;
  statting : gmap nat (IncomingMessage * string);
  proxying : gmap nat IncomingMessage;
  fills : gmap nat fill;
  outgoing : list ClientRequest
}.

Definition set_inProgress (m : gmap string (list waiter)) (s : state) : state :=
  {| inProgress := m; idle := idle s; idleEvents := idleEvents s; fs := fs s;
     responses := responses s; nextId := nextId s; statting := statting s;
     proxying := proxying s; fills := fills s; outgoing := outgoing s |}.

Definition set_idle (b : bool) (n : nat) (s : state) : state :=
  {| inProgress := inProgress s; idle := b; idleEvents := n; fs := fs s;
     responses := responses s; nextId := nextId s; statting := statting s;
     proxying := proxying s; fills := fills s; outgoing := outgoing s |}.

Definition set_fs (m : gmap string node) (s : state) : state :=
  {| inProgress := inProgress s; idle := idle s; idleEvents := idleEvents s; fs := m;
     responses := responses s; nextId := nextId s; statting := statting s;
     proxying := proxying s; fills := fills s; outgoing := outgoing s |}.

Definition set_responses (m : gmap nat ServerResponse) (s : state) : state :=
  {| inProgress := inProgress s; idle := idle s; idleEvents := idleEvents s; fs := fs s;
     responses := m; nextId := nextId s; statting := statting s;
     proxying := proxying s; fills := fills s; outgoing := outgoing s |}.

Definition set_nextId (n : nat) (s : state) : state :=
  {| inProgress := inProgress s; idle := idle s; idleEvents := idleEvents s; fs := fs s;
     responses := responses s; nextId := n; statting := statting s;
     proxying := proxying s; fills := fills s; outgoing := outgoing s |}.

Definition set_statting (m : gmap nat (IncomingMessage * string)) (s : state) : state :=
  {| inProgress := inProgress s; idle := idle s; idleEvents := idleEvents s; fs := fs s;
     responses := responses s; nextId := nextId s; statting := m;
     proxying := proxying s; fills := fills s; outgoing := outgoing s |}.

Definition set_proxying (m : gmap nat IncomingMessage) (s : state) : state :=
  {| inProgress := inProgress s; idle := idle s; idleEvents := idleEvents s; fs := fs s;
     responses := responses s; nextId := nextId s; statting := statting s;
     proxying := m; fills := fills s; outgoing := outgoing s |}.

Definition set_fills (m : gmap nat fill) (s : state) : state :=
  {| inProgress := inProgress s; idle := idle s; idleEvents := idleEvents s; fs := fs s;
     responses := responses s; nextId := nextId s; statting := statting s;
     proxying := proxying s; fills := m; outgoing := outgoing s |}.

Definition set_outgoing (l : list ClientRequest) (s : state) : state :=
  {| inProgress := inProgress s; idle := idle s; idleEvents := idleEvents s; fs := fs s;
     responses := responses s; nextId := nextId s; statting := statting s;
     proxying := proxying s; fills := fills s; outgoing := l |}.

(** The state [start()] leaves behind, over the store [store]. *)
Definition start (store : gmap string node) : state :=
  {| inProgress := ∅; idle := true; idleEvents := 0%nat; fs := store;
     responses := ∅; nextId := 0%nat; statting := ∅; proxying := ∅;
     fills := ∅; outgoing := [] |}.

(** ** Response objects *)

(** A response object as [http.createServer] hands it to the listener. *)
Definition newResponse : ServerResponse :=
  {| statusCode := 200; resHeaders := ∅; body := EmptyString; ended := false |}.

(** [res.statusCode = code]. *)
Definition setStatusCode (code : Z) (res : ServerResponse) : ServerResponse :=
  {| statusCode := code; resHeaders := resHeaders res; body := body res;
     ended := ended res |}.

(** [res.setHeader(name, value)]. *)
Definition setHeader (name value : string) (res : ServerResponse) : ServerResponse :=
  {| statusCode := statusCode res;
     resHeaders := <[Js.toLowerCase name := value]> (resHeaders res);
     body := body res; ended := ended res |}.

(** [res.end()]. *)
Definition end_ (res : ServerResponse) : ServerResponse :=
  {| statusCode := statusCode res; resHeaders := resHeaders res; body := body res;
     ended := true |}.

(** [src.pipe(res)], by its completed effect: everything [src] delivers is
    written to [res], which is then ended.  Nothing can be written to a
    response that was ended before. *)
Definition pipe (data : string) (res : ServerResponse) : ServerResponse :=
  if ended res then res
  else {| statusCode := statusCode res; resHeaders := resHeaders res;
          body := body res +:+ data; ended := true |}.

(** The loop
    [Object.keys(m.headers || {}).forEach(function (header) {
       if (NO_PROXY_HEADERS.indexOf(header) === -1) res.setHeader(header, m.headers[header]); })]. *)
Definition copyHeaders (h : gmap string string) (res : ServerResponse) : ServerResponse :=
  map_fold (λ header value r,
              if Js.notIn header NO_PROXY_HEADERS then setHeader header value r else r)
           res h.

(** The same loop filling [uri.headers], an object that starts empty. *)
Definition proxyHeaders (h : gmap string string) : gmap string string :=
  map_fold (λ header value r,
              if Js.notIn header NO_PROXY_HEADERS then <[header := value]> r else r)
           ∅ h.

(** ** The store *)
Module Store.

(** [fs.stat(p)]: [None] when the callback gets an error. *)
Definition stat (store : gmap string node) (p : string) : option Stats :=
  match store !! p with
  | Some (File c m) => Some {| stat_size := Z.of_nat (String.length c); stat_mtime := m;
                             isDirectory := false |}
  | Some Dir => Some {| stat_size := 0; stat_mtime := 0; isDirectory := true |}
  | None => None
  end.

(** The prefixes of [p] that end just before a separator, shortest first. *)
Fixpoint prefixes (acc : list ascii) (l : list ascii) : list string :=
  match l with
  | [] => []
  | c :: l' =>
      let here :=
        if decide (c = Js.slash) then
          match acc with [] => [] | _ => [Js.of_chars (rev acc)] end
        else [] in
      here ++ prefixes (c :: acc) l'
  end.

(** The directories [mkdirp(d)] has to find or make, outermost first. *)
Definition ancestors (d : string) : list string :=
  filter (λ a, a ≠ EmptyString ∧ a ≠ "." ∧ a ≠ "/") (prefixes [] (Js.chars d) ++ [d]).

Fixpoint mkdirs (l : list string) (store : gmap string node) : gmap string node :=
  match l with
  | [] => store
  | a :: l' =>
      match store !! a with
      | None => mkdirs l' (<[a := Dir]> store)
      | Some Dir => mkdirs l' store
      | Some (File _ _) => store
      end
  end.

(** [mkdirp(d)]: makes the missing directories down to [d], and stops at
    the first path that is taken by a file. *)
Definition mkdirp (d : string) (store : gmap string node) : gmap string node :=
  mkdirs (ancestors d) store.

Definition parent_ok (store : gmap string node) (p : string) : bool :=
  let d := Path.dirname p in
  bool_decide (d = "/" ∨ d = "." ∨ store !! d = Some Dir).

(** Opening [p] for writing (flag [w]) creates or truncates the file;
    it fails when [p] is a directory or its parent is not one. *)
Definition open_w (p : string) (now : Z) (store : gmap string node)
  : option (gmap string node) :=
  if parent_ok store p && negb (bool_decide (store !! p = Some Dir))
  then Some (<[p := File EmptyString now]> store)
  else None.

(** Appending a chunk to the file at [p]. *)
Definition append (p : string) (chunk : string) (now : Z) (store : gmap string node)
  : gmap string node :=
  alter (λ n, match n with
              | File c _ => File (c +:+ chunk) now
              | Dir => Dir
              end) p store.

(** [fs.rename(from, to)] of a regular file; [None] when it fails. *)
Definition rename (from to : string) (store : gmap string node)
  : option (gmap string node) :=
  match store !! from with
  | Some (File c m) =>
      if bool_decide (store !! to = Some Dir) || negb (parent_ok store to) then None
      else Some (<[to := File c m]> (delete from store))
  | _ => None
  end.

End Store.

(** ** The handlers *)

(** Library functions the server calls and whose tables are not part of the
    repository: [mime.lookup], [Date.prototype.toUTCString] (on a time value
    in milliseconds) and the [host] field of [url.parse]. *)
Record Lib := {
  mime_lookup : string → string;
  toUTCString : Z → string;
  url_host : string → string
}.

(** Events: the callbacks the runtime invokes.  [now] is the clock of the
    file system, [ok] tells whether the operating system let the operation
    succeed. *)
Inductive event :=
  | EvRequest (req : IncomingMessage)
  | EvStat (id : nat)
  | EvProxyResponse (id : nat) (ores : IncomingMessage)
  | EvProxyError (id : nat)
  | EvResponse (id : nat) (ores : IncomingMessage)
  | EvRequestError (id : nat)
  | EvMkdirp (id : nat) (ok : bool)
  | EvOpen (id : nat) (ok : bool) (now : Z)
  | EvData (id : nat) (n : nat) (now : Z)
  | EvWriteError (id : nat)
  | EvWriteFinish (id : nat)
  | EvRename (id : nat) (ok : bool)
  | EvRestat (id : nat).

(** The closure of a fill, moved to phase [p]. *)
Definition at_phase (p : phase) (f : fill) : fill :=
  {| f_req := f_req f; f_file := f_file f; f_phase := p |}.

Definition tmp_of (file : string) : string := file +:+ ".in-progress".

Section Handlers.

Context (lib : Lib) (self : Server).

(** Applies [f] to the response object [id]. *)
Definition on_res (id : nat) (f : ServerResponse → ServerResponse) (s : state) : state :=
  set_responses (alter f id (responses s)) s.

Definition set_phase (id : nat) (p : phase) (s : state) : state :=
  set_fills (alter (at_phase p) id (fills s)) s.

(** [self._request(uri, cb)] with the [uri] object both proxying branches
    build: [uristring = self.backendUrl + parsed.path], the filtered
    headers, and [uri.headers.host = uri.host]. *)
Definition request (req : IncomingMessage) (data : string) (s : state) : state :=
  let uristring := backendUrl self +:+ url_path req in
  set_outgoing
    (outgoing s ++
       [{| uri_https := backendHttps self;
           uri_href := uristring;
           uri_method := method req;
           uri_headers := <["host" := url_host lib uristring]> (proxyHeaders (headers req));
           uri_body := data |}]) s.

(** [util.format('"%d-%d"', size, mtimeMs)]. *)
Definition entity_tag (size mtimeMs : Z) : string :=
  String Js.quote (Js.fmt_d size +:+ "-" +:+ Js.fmt_d mtimeMs
                   +:+ String Js.quote EmptyString).

Definition etag (stats : Stats) : string :=
  entity_tag (stat_size stats) (stat_mtime stats).

(** [streamFile(file, stats, req, res)].  The read stream piped into [res]
    is taken by its completed effect on the store at hand. *)
Definition streamFile (store : gmap string node) (file : string) (stats : Stats)
    (req : IncomingMessage) (res : ServerResponse) : ServerResponse :=
  let res := setHeader "Last-Modified" (toUTCString lib (stat_mtime stats)) res in
  let res := setHeader "Content-Type" (mime_lookup lib file) res in
  let res := setHeader "ETag" (etag stats) res in
  if decide (headers req !! "if-none-match" = Some (etag stats)) then
    end_ (setStatusCode 304 res)
  else
    let res := setHeader "Content-Length" (Js.fmt_d (stat_size stats)) res in
    if decide (method req = "HEAD") then end_ res
    else
      match store !! file with
      | Some (File content _) => pipe content res
      | Some Dir => end_ (setStatusCode 500 res)
      | None => end_ (setStatusCode 404 res)
      end.

(** [checkIdle()]. *)
Definition checkIdle (s : state) : state :=
  if decide (size (inProgress s) = 0%nat)
  then set_idle true (S (idleEvents s)) s
  else s.

(** [q.forEach(function (o) { ... o.res ... })]: the callback [g o] is
    applied to the response object of each element of the queue, in order. *)
Definition forEach (g : waiter → ServerResponse → ServerResponse) (q : list waiter)
    (s : state) : state :=
  set_responses (foldl (λ m o, alter (g o) (w_res o) m) (responses s) q) s.

(** The three loops of [finish] over the queue. *)
Definition endAll (code : Z) (q : list waiter) (s : state) : state :=
  forEach (λ _ r, end_ (setStatusCode code r)) q s.

Definition streamAll (file : string) (stats : Stats) (ores : IncomingMessage)
    (q : list waiter) (s : state) : state :=
  forEach (λ o r, streamFile (fs s) file stats (w_req o)
                    (copyHeaders (headers ores)
                       (setStatusCode (ores_statusCode ores) r))) q s.

(** [finish({statusCode: code})] in the closure of fill [id].  Reading
    [self.inProgress[file]] when the property is missing throws. *)
Definition finish_status (id : nat) (file : string) (code : Z) (s : state)
  : option state :=
  q ← inProgress s !! file;
  Some (set_phase id Finished
          (checkIdle (set_inProgress (delete file (inProgress s)) (endAll code q s)))).

(** The [fs.stat] callback of [finish({ores: ores})]. *)
Definition finish_restat (id : nat) (file : string) (ores : IncomingMessage) (s : state)
  : option state :=
  q ← inProgress s !! file;
  let s1 :=
    match Store.stat (fs s) file with
    | Some stats =>
        if isDirectory stats then endAll 400 q s
        else streamAll file stats ores q s
    | None => endAll 500 q s
    end in
  Some (set_phase id Finished
          (checkIdle (set_inProgress (delete file (inProgress s1)) s1))).

(** The synchronous part of [_onRequest]. *)
Definition onRequest (req : IncomingMessage) (s : state) : state :=
  let id := nextId s in
  let s := set_nextId (S id) (set_responses (<[id := newResponse]> (responses s)) s) in
  match Uri.decodeURIComponent (url_pathname req) with
  | None => on_res id (λ r, end_ (setStatusCode 400 r)) s
  | Some decoded =>
      let file := Path.normalize decoded in
      if Js.notIn (method req) (cacheMethods self) || negb (regex self file) then
        set_proxying (<[id := req]> (proxying s)) (request req (payload req) s)
      else
        let file := Path.join (cacheDir self) file in
        set_statting (<[id := (req, file)]> (statting s)) s
  end.

(** The callback of [fs.stat(file, ...)] in [_onRequest]. *)
Definition onStat (id : nat) (s : state) : option state :=
  '(req, file) ← statting s !! id;
  let s := set_statting (delete id (statting s)) s in
  match Store.stat (fs s) file with
  | Some stats =>
      if isDirectory stats then Some (on_res id (λ r, end_ (setStatusCode 400 r)) s)
      else Some (on_res id (streamFile (fs s) file stats req) s)
  | None =>
      match inProgress s !! file with
      | Some q =>
          Some (set_inProgress
                  (<[file := q ++ [{| w_req := req; w_res := id |}]]> (inProgress s)) s)
      | None =>
          let s := set_inProgress (<[file := []]> (inProgress s)) s in
          let s := set_idle false (idleEvents s) s in
          let s := request req EmptyString s in
          Some (set_fills
                  (<[id := {| f_req := req; f_file := file; f_phase := AwaitResponse |}]>
                     (fills s)) s)
      end
  end.

(** The response callback of the proxy-only branch. *)
Definition onProxyResponse (id : nat) (ores : IncomingMessage) (s : state) : option state :=
  _ ← proxying s !! id;
  Some (set_proxying (delete id (proxying s))
          (on_res id (λ r, pipe (payload ores)
                             (copyHeaders (headers ores)
                                (setStatusCode (ores_statusCode ores) r))) s)).

(** [oreq.once('error', ...)] of the proxy-only branch. *)
Definition onProxyError (id : nat) (s : state) : option state :=
  _ ← proxying s !! id;
  Some (set_proxying (delete id (proxying s))
          (on_res id (λ r, end_ (setStatusCode 500 r)) s)).

(** The response callback of a cache fill. *)
Definition onResponse (id : nat) (ores : IncomingMessage) (s : state) : option state :=
  f ← fills s !! id;
  match f_phase f with
  | AwaitResponse =>
      let s := on_res id (λ r, copyHeaders (headers ores)
                                 (setStatusCode (ores_statusCode ores) r)) s in
      let code := ores_statusCode ores in
      if (code <? 200) || (300 <=? code) then
        s ← finish_status id (f_file f) code s;
        Some (on_res id end_ s)
      else Some (set_phase id (AwaitMkdirp ores) s)
  | _ => None
  end.

(** [oreq.on('error', ...)] of a cache fill, for a request that fails before
    a response arrives. *)
Definition onRequestError (id : nat) (s : state) : option state :=
  f ← fills s !! id;
  match f_phase f with
  | AwaitResponse =>
      finish_status id (f_file f) 500 (on_res id (λ r, end_ (setStatusCode 500 r)) s)
  | _ => None
  end.

(** The callback of [mkdirp(path.dirname(file), ...)], which does not look
    at its [err] argument: the write stream on [tmp] is created (it opens
    later), and the two clones of [ores] are piped, one into it and one into
    [res]. *)
Definition onMkdirp (id : nat) (ok : bool) (s : state) : option state :=
  f ← fills s !! id;
  match f_phase f with
  | AwaitMkdirp ores =>
      let store := if ok then Store.mkdirp (Path.dirname (f_file f)) (fs s) else fs s in
      let s := set_fs store s in
      Some (set_phase id (Opening ores) (on_res id (pipe (payload ores)) s))
  | _ => None
  end.

(** [ws.once('error', ...)]. *)
Definition onWriteError (id : nat) (s : state) : option state :=
  f ← fills s !! id;
  match f_phase f with
  | Opening _ | Writing _ _ => finish_status id (f_file f) 500 s
  | _ => None
  end.

(** The write stream opens [tmp]; a failure is its [error] event. *)
Definition onOpen (id : nat) (ok : bool) (now : Z) (s : state) : option state :=
  f ← fills s !! id;
  match f_phase f with
  | Opening ores =>
      match (if ok then Store.open_w (tmp_of (f_file f)) now (fs s) else None) with
      | Some store => Some (set_phase id (Writing ores (payload ores)) (set_fs store s))
      | None => onWriteError id s
      end
  | _ => None
  end.

Definition takeS (n : nat) (x : string) : string := Js.of_chars (take n (Js.chars x)).
Definition dropS (n : nat) (x : string) : string := Js.of_chars (drop n (Js.chars x)).

(** The write stream flushes the next [n + 1] bytes to [tmp]. *)
Definition onData (id : nat) (n : nat) (now : Z) (s : state) : option state :=
  f ← fills s !! id;
  match f_phase f with
  | Writing ores pending =>
      if decide (pending = EmptyString) then None
      else
        Some (set_phase id (Writing ores (dropS (S n) pending))
                (set_fs (Store.append (tmp_of (f_file f)) (takeS (S n) pending) now (fs s)) s))
  | _ => None
  end.

(** [ws.once('finish', ...)]: everything was flushed; [fs.rename(tmp, file)]
    is called. *)
Definition onWriteFinish (id : nat) (s : state) : option state :=
  f ← fills s !! id;
  match f_phase f with
  | Writing ores pending =>
      if decide (pending = EmptyString) then Some (set_phase id (Renaming ores) s)
      else None
  | _ => None
  end.

(** The callback of [fs.rename(tmp, file, ...)]. *)
Definition onRename (id : nat) (ok : bool) (s : state) : option state :=
  f ← fills s !! id;
  match f_phase f with
  | Renaming ores =>
      match (if ok then Store.rename (tmp_of (f_file f)) (f_file f) (fs s) else None) with
      | Some store => Some (set_phase id (Restat ores) (set_fs store s))
      | None => finish_status id (f_file f) 500 s
      end
  | _ => None
  end.

(** The [fs.stat] callback inside [finish]. *)
Definition onRestat (id : nat) (s : state) : option state :=
  f ← fills s !! id;
  match f_phase f with
  | Restat ores => finish_restat id (f_file f) ores s
  | _ => None
  end.

(** One callback; [None] when the runtime cannot invoke it in [s], or when
    it throws. *)
Definition step (e : event) (s : state) : option state :=
  match e with
  | EvRequest req => Some (onRequest req s)
  | EvStat id => onStat id s
  | EvProxyResponse id ores => onProxyResponse id ores s
  | EvProxyError id => onProxyError id s
  | EvResponse id ores => onResponse id ores s
  | EvRequestError id => onRequestError id s
  | EvMkdirp id ok => onMkdirp id ok s
  | EvOpen id ok now => onOpen id ok now s
  | EvData id n now => onData id n now s
  | EvWriteError id => onWriteError id s
  | EvWriteFinish id => onWriteFinish id s
  | EvRename id ok => onRename id ok s
  | EvRestat id => onRestat id s
  end.

Fixpoint run (evs : list event) (s : state) : option state :=
  match evs with
  | [] => Some s
  | e :: evs' => s' ← step e s; run evs' s'
  end.

End Handlers.

(** ** Vocabulary of the properties *)

(** A name the server writes partial data under. *)
Definition is_tmp (p : string) : bool := Js.endsWith ".in-progress" p.

(** The response object [id] is held by some queue of [inProgress]. *)
Definition waiting (m : gmap string (list waiter)) (id : nat) : Prop :=
  ∃ file q w, m !! file = Some q ∧ w ∈ q ∧ w_res w = id.

(** The fill still owes a call of [finish]. *)
Definition active (f : fill) : Prop := f_phase f ≠ Finished.

(** The response of the triggering client once the response callback has
    copied the status and the headers of [ores]. *)
Definition answered (ores : IncomingMessage) : ServerResponse :=
  copyHeaders (headers ores) (setStatusCode (ores_statusCode ores) newResponse).

(** What the triggering client's response object holds in each phase. *)
Definition trigger_res (p : phase) : option ServerResponse :=
  match p with
  | AwaitResponse => Some newResponse
  | AwaitMkdirp ores => Some (answered ores)
  | Opening ores | Writing ores _ | Renaming ores | Restat ores =>
      Some (pipe (payload ores) (answered ores))
  | Finished => None
  end.

(** What the store holds for a fill of [file] in each phase: while the write
    stream is flushing, [tmp] holds what was flushed; once it has finished,
    [tmp] holds everything [ores] delivered; after the rename, [file] does. *)
Definition store_state (store : gmap string node) (file : string) (p : phase) : Prop :=
  match p with
  | Writing ores pending =>
      ∃ w m, store !! tmp_of file = Some (File w m) ∧ w +:+ pending = payload ores
  | Renaming ores => ∃ m, store !! tmp_of file = Some (File (payload ores) m)
  | Restat ores => ∃ m, store !! file = Some (File (payload ores) m)
  | _ => True
  end.

(** The invariant of the states the server reaches.
    - Response objects: a request that waits for its [fs.stat] callback or in
      a queue has an untouched response object; the triggering client of a
      fill has what [trigger_res] says.
    - Identities: every request in flight was numbered by [_onRequest], and
      it is in one place only: waiting for [fs.stat], in one queue at one
      position, the trigger of a fill, or proxied.
    - Records: a fill that has not called [finish] has a record in
      [inProgress], and a record belongs to exactly one such fill.
    - The store, when [c = true], that is when no request of the run was
      looked up under a temporary name: each fill has in the store what
      [store_state] says, and no key is a temporary name. *)
Record Inv (c : bool) (s : state) : Prop := {
  inv_stat_fresh : ∀ id rf, statting s !! id = Some rf → responses s !! id = Some newResponse;
  inv_wait_fresh : ∀ id, waiting (inProgress s) id → responses s !! id = Some newResponse;
  inv_trigger : ∀ id f r,
    fills s !! id = Some f → trigger_res (f_phase f) = Some r → responses s !! id = Some r;
  inv_stat_bound : ∀ id, is_Some (statting s !! id) → (id < nextId s)%nat;
  inv_wait_bound : ∀ id, waiting (inProgress s) id → (id < nextId s)%nat;
  inv_fill_bound : ∀ id, is_Some (fills s !! id) → (id < nextId s)%nat;
  inv_proxy_bound : ∀ id, is_Some (proxying s !! id) → (id < nextId s)%nat;
  inv_stat_wait : ∀ id, is_Some (statting s !! id) → ¬ waiting (inProgress s) id;
  inv_stat_fill : ∀ id, is_Some (statting s !! id) → fills s !! id = None;
  inv_stat_proxy : ∀ id, is_Some (statting s !! id) → proxying s !! id = None;
  inv_wait_fill : ∀ id, waiting (inProgress s) id → fills s !! id = None;
  inv_wait_proxy : ∀ id, waiting (inProgress s) id → proxying s !! id = None;
  inv_fill_proxy : ∀ id, is_Some (fills s !! id) → proxying s !! id = None;
  inv_queues : ∀ f1 f2 q1 q2 i j w1 w2,
    inProgress s !! f1 = Some q1 → inProgress s !! f2 = Some q2 →
    q1 !! i = Some w1 → q2 !! j = Some w2 → w_res w1 = w_res w2 → f1 = f2 ∧ i = j;
  inv_record : ∀ id f, fills s !! id = Some f → active f → is_Some (inProgress s !! f_file f);
  inv_unique : ∀ id1 id2 f1 f2,
    fills s !! id1 = Some f1 → fills s !! id2 = Some f2 → active f1 → active f2 →
    f_file f1 = f_file f2 → id1 = id2;
  inv_owner : ∀ file, is_Some (inProgress s !! file) →
    ∃ id f, fills s !! id = Some f ∧ active f ∧ f_file f = file;
  inv_store : c = true →
    ∀ id f, fills s !! id = Some f → store_state (fs s) (f_file f) (f_phase f);
  inv_stat_key : c = true →
    ∀ id req file, statting s !! id = Some (req, file) → is_tmp file = false;
  inv_fill_key : c = true → ∀ id f, fills s !! id = Some f → is_tmp (f_file f) = false
}.

(** What a call of [finish] leaves untouched. *)
Definition finish_frame (id : nat) (file : string) (s s' : state) : Prop :=
  ∃ q, inProgress s !! file = Some q ∧
    (∀ i, i ≠ id → i ∉ (w_res <$> q) → responses s' !! i = responses s !! i) ∧
    inProgress s' = delete file (inProgress s) ∧
    fills s' = alter (at_phase Finished) id (fills s) ∧
    fs s' = fs s ∧ statting s' = statting s ∧ proxying s' = proxying s ∧
    nextId s' = nextId s ∧ outgoing s' = outgoing s.

(** What [fs.stat] reports for a regular file. *)
Definition file_stats (content : string) (m : Z) : Stats :=
  {| stat_size := Z.of_nat (String.length content); stat_mtime := m; isDirectory := false |}.

(** The headers [h] and the [Content-Length] of a file with stat [stats]. *)
Definition with_length (stats : Stats) (h : gmap string string) : gmap string string :=
  <["content-length" := Js.fmt_d (stat_size stats)]> h.

(** The headers of [h] that the proxying loops copy. *)
Definition forwarded (h : gmap string string) : gmap string string :=
  filter (λ kv, kv.1 ∉ NO_PROXY_HEADERS) h.

(** Node hands header names over in lower case. *)
Definition lowercase (h : gmap string string) : Prop :=
  ∀ k, is_Some (h !! k) → Js.toLowerCase k = k.

(** The test [res.statusCode < 200 || res.statusCode >= 300]. *)
Definition not_2xx (code : Z) : bool := (code <? 200) || (300 <=? code).

(** The callbacks that belong to the fill started by request [id]. *)
Definition fill_event (id : nat) (e : event) : bool :=
  match e with
  | EvResponse i _ | EvRequestError i | EvMkdirp i _ | EvOpen i _ _ | EvData i _ _
  | EvWriteError i | EvWriteFinish i | EvRename i _ | EvRestat i => bool_decide (i = id)
  | EvRequest _ | EvStat _ | EvProxyResponse _ _ | EvProxyError _ => false
  end.

(** The backend response a fill holds on to. *)
Definition phase_ores (p : phase) : option IncomingMessage :=
  match p with
  | AwaitMkdirp o | Opening o | Writing o _ | Renaming o | Restat o => Some o
  | AwaitResponse | Finished => None
  end.

(** Every fill past the response callback holds a response in the 200 range. *)
Definition Accepted (s : state) : Prop :=
  ∀ id f ores,
    fills s !! id = Some f → phase_ores (f_phase f) = Some ores →
    not_2xx (ores_statusCode ores) = false.

(** Walking the segments of a path from the root, a [..] is met at depth 0:
    the path tries to climb above its root. *)
Fixpoint climbs (depth : nat) (segs : list string) : bool :=
  match segs with
  | [] => false
  | x :: rest =>
      if decide (x = EmptyString ∨ x = ".") then climbs depth rest
      else if decide (x = "..") then
        match depth with
        | O => true
        | S d => climbs d rest
        end
      else climbs (S depth) rest
  end.

(** The decoded path, read from the cache root, leaves the root. *)
Definition escapes (path : string) : bool := climbs 0 (Js.split Js.slash path).

(** The server [self] with another list of headers not to forward. *)
Definition with_noProxyHeaders (l : list string) (self : Server) : Server :=
  {| host := host self; port := port self; backendUrl := backendUrl self;
     cacheDir := cacheDir self; regex := regex self; noProxyHeaders := l;
     cacheMethods := cacheMethods self; backendHttps := backendHttps self |}.

(** A segment that names a file or a directory. *)
Definition clean (x : string) : Prop := x ≠ EmptyString ∧ x ≠ "." ∧ x ≠ "..".

Global Instance clean_dec x : Decision (clean x).
Proof. unfold clean. apply _. Defined.

Section Specification.

Context (lib : Lib) (self : Server).

(** The store path [_onRequest] looks a request up under, when the request
    is eligible for the cache. *)
Definition store_key (req : IncomingMessage) : option string :=
  decoded ← Uri.decodeURIComponent (url_pathname req);
  let file := Path.normalize decoded in
  if Js.notIn (method req) (cacheMethods self) || negb (regex self file) then None
  else Some (Path.join (cacheDir self) file).

(** The requests whose store path is not a temporary name. *)
Definition ev_ok (e : event) : bool :=
  match e with
  | EvRequest req =>
      match store_key req with
      | Some file => negb (is_tmp file)
      | None => true
      end
  | _ => true
  end.

(** No request of the run is looked up under a temporary name. *)
Definition proper (evs : list event) : bool := forallb ev_ok evs.

(** The states the server reaches from [start()] over the store [store]. *)
Definition reaches (store : gmap string node) (evs : list event) (s : state) : Prop :=
  run lib self evs (start store) = Some s.

(** The headers [streamFile] sets before it looks at the request. *)
Definition validators (file : string) (stats : Stats) : gmap string string :=
  {[ "last-modified" := toUTCString lib (stat_mtime stats);
     "content-type" := mime_lookup lib file;
     "etag" := etag stats ]}.

End Specification.

(** ** An instance of the library functions

    Used to run the handlers on concrete inputs: [Date.prototype.toUTCString],
    [mime.lookup] over the extensions of the default pattern that have a
    well-known type, and the authority of a URL. *)
Module Node.

Definition pad2 (n : Z) : string := if n <? 10 then "0" +:+ pretty n else pretty n.

Definition pad4 (n : Z) : string :=
  if n <? 10 then "000" +:+ pretty n
  else if n <? 100 then "00" +:+ pretty n
  else if n <? 1000 then "0" +:+ pretty n
  else pretty n.

Definition dayNames : list string := ["Sun"; "Mon"; "Tue"; "Wed"; "Thu"; "Fri"; "Sat"].

Definition monthNames : list string :=
  ["Jan"; "Feb"; "Mar"; "Apr"; "May"; "Jun"; "Jul"; "Aug"; "Sep"; "Oct"; "Nov"; "Dec"].

(** Year, month and day of a day number counted from 1970-01-01. *)
Definition civil (days : Z) : Z * Z * Z :=
  let z := days + 719468 in
  let era := z / 146097 in
  let doe := z - era * 146097 in
  let yoe := (doe - doe / 1460 + doe / 36524 - doe / 146096) / 365 in
  let doy := doe - (365 * yoe + yoe / 4 - yoe / 100) in
  let mp := (5 * doy + 2) / 153 in
  let d := doy - (153 * mp + 2) / 5 + 1 in
  let m := if mp <? 10 then mp + 3 else mp - 9 in
  let y := yoe + era * 400 in
  (if m <=? 2 then y + 1 else y, m, d).

Definition toUTCString (t : Z) : string :=
  let days := t / 86400000 in
  let ms := t mod 86400000 in
  let '(y, m, d) := civil days in
  default EmptyString (dayNames !! Z.to_nat ((days + 4) mod 7)) +:+ ", " +:+ pad2 d +:+ " "
    +:+ default EmptyString (monthNames !! Z.to_nat (m - 1)) +:+ " " +:+ pad4 y +:+ " "
    +:+ pad2 (ms / 3600000) +:+ ":" +:+ pad2 ((ms / 60000) mod 60) +:+ ":"
    +:+ pad2 ((ms / 1000) mod 60) +:+ " GMT".

(** The characters after the last [.], [/] or backslash. *)
Fixpoint extension (acc : string) (s : string) : string :=
  match s with
  | EmptyString => acc
  | String c s' =>
      if bool_decide (c = "."%char ∨ c = "/"%char ∨ c = "\"%char) then extension s' s'
      else extension acc s'
  end.

(** The table of [mime] for the extensions [png], [jpg], [jpeg], [css],
    [html] and [js]; the other extensions are not in it. *)
Definition mimeTypes : list (string * string) :=
  [("png", "image/png"); ("jpg", "image/jpeg"); ("jpeg", "image/jpeg");
   ("css", "text/css"); ("html", "text/html"); ("js", "application/javascript")].

Definition mime_lookup (file : string) : string :=
  let ext := Js.toLowerCase (extension file file) in
  default "application/octet-stream" (snd <$> List.find (λ e, bool_decide (e.1 = ext)) mimeTypes).

(** The authority of [scheme://authority/...]: the [host] of [url.parse]
    for a URL whose authority is in lower case, has no user information
    and is followed by [/]. *)
Fixpoint after_slashes (s : string) : option string :=
  match s with
  | String a s1 =>
      match s1 with
      | String b s2 =>
          if bool_decide (a = "/"%char ∧ b = "/"%char) then Some s2 else after_slashes s1
      | EmptyString => None
      end
  | EmptyString => None
  end.

Definition url_host (href : string) : string :=
  match after_slashes href with
  | Some rest => default EmptyString (head (Js.split Js.slash rest))
  | None => EmptyString
  end.

End Node.

Definition node_lib : Lib :=
  {| mime_lookup := Node.mime_lookup; toUTCString := Node.toUTCString;
     url_host := Node.url_host |}.

(** ** Vocabulary of the further properties *)

(** The phases in which the callbacks of a fill still write to the response
    of the triggering client. *)
Definition open_phase (p : phase) : bool :=
  match p with
  | AwaitResponse | AwaitMkdirp _ => true
  | _ => false
  end.

(** A callback that is still to come will write to the response object
    [id]: the request waits for its [fs.stat] callback, in a queue, for the
    backend, or it triggered a fill that has not started to stream. *)
Definition awaited (s : state) (id : nat) : Prop :=
  is_Some (statting s !! id) ∨ waiting (inProgress s) id ∨ is_Some (proxying s !! id)
  ∨ ∃ f, fills s !! id = Some f ∧ open_phase (f_phase f) = true.

(** What holds of the response objects in every reachable state: one was
    made for each request; a proxied request has an untouched one until the
    backend answers; one that no callback will write to has been ended. *)
Record Served (s : state) : Prop := {
  srv_dom : ∀ i, is_Some (responses s !! i) ↔ (i < nextId s)%nat;
  srv_proxy : ∀ i req, proxying s !! i = Some req → responses s !! i = Some newResponse;
  srv_done : ∀ i r, responses s !! i = Some r → ended r = true ∨ awaited s i
}.

(** The response objects a callback wrote to were not ended before. *)
Definition Touch (s s' : state) : Prop :=
  ∀ i, responses s' !! i ≠ responses s !! i →
       responses s !! i = None ∨ ∃ r, responses s !! i = Some r ∧ ended r = false.

(** No callback is owed to the server. *)
Definition quiescent (s : state) : Prop :=
  statting s = ∅ ∧ proxying s = ∅ ∧ ∀ id f, fills s !! id = Some f → f_phase f = Finished.

(** A response that was ended with [code], without header and body. *)
Definition bare (code : Z) : ServerResponse :=
  {| statusCode := code; resHeaders := ∅; body := EmptyString; ended := true |}.

(** The ways a fill ends after the backend answered in the 200 range and
    before its file is published: the write stream fails, at its opening or
    later, or the rename fails. *)
Definition failing (id : nat) (p : phase) (e : event) : bool :=
  match p, e with
  | (Opening _ | Writing _ _), EvWriteError i => bool_decide (i = id)
  | Opening _, EvOpen i false _ => bool_decide (i = id)
  | Renaming _, EvRename i false => bool_decide (i = id)
  | _, _ => false
  end.

(** A fill that has not renamed its temporary file yet. *)
Definition unpublished (p : phase) : bool :=
  match p with
  | Restat _ | Finished => false
  | _ => true
  end.

(** No regular file is at the store path of a fill that has not renamed its
    temporary file yet. *)
Definition Absent (s : state) : Prop :=
  ∀ id f content m,
    fills s !! id = Some f → unpublished (f_phase f) = true →
    fs s !! f_file f ≠ Some (File content m).

Section Vocabulary.

Context (lib : Lib) (self : Server).

(** The request [_request] is called with for the client request [req], and
    the data written to it. *)
Definition backend_request (req : IncomingMessage) (data : string) : ClientRequest :=
  let uristring := backendUrl self +:+ url_path req in
  {| uri_https := backendHttps self;
     uri_href := uristring;
     uri_method := method req;
     uri_headers := <["host" := url_host lib uristring]> (forwarded (headers req));
     uri_body := data |}.

(** [r] is the request the server sends for the client request [req]: with
    the body of the client's when [req] is not eligible for the cache, and
    without body when it is and its [fs.stat] misses. *)
Definition sent_for (req : IncomingMessage) (r : ClientRequest) : Prop :=
  (store_key self req = None ∧ r = backend_request req (payload req))
  ∨ (is_Some (store_key self req) ∧ r = backend_request req EmptyString).

(** The requests that wait for [fs.stat], and those sent to the backend,
    come from requests the server has received. *)
Definition Received (evs : list event) (s : state) : Prop :=
  (∀ id req file, statting s !! id = Some (req, file) →
     EvRequest req ∈ evs ∧ store_key self req = Some file) ∧
  (∀ r, r ∈ outgoing s → ∃ req, EvRequest req ∈ evs ∧ sent_for req r).

End Vocabulary.

(** [self.idle] says that no fill is in progress. *)
Definition Idle (s : state) : Prop := idle s = true ↔ inProgress s = ∅.

Global Instance ServerResponse_eq_dec : EqDecision ServerResponse.
Proof. solve_decision. Defined.

(** ** [onIdle]

    [onIdle(cb)] reads [self.idle] and may register [cb] with
    [self.once('idle', cb)]; [checkIdle] emits [idle].  The listeners are
    those of [onIdle]; a callback is known by a number, and calling it does
    not call back into the server.  The server has been started and is not
    stopped. *)

(** The server together with the listeners registered by [once('idle', _)],
    in the order of their registration, and the callbacks called so far. *)
Record listened := {
  srv : state;
  onceIdle : list nat;
  called : list nat
}.

(** What happens to a started server: the runtime invokes a callback, or
    the user calls [onIdle(cb)]. *)
Inductive action :=
  | Callback (e : event)
  | OnIdle (cb : nat).

(** [new FsCachingServer(opts).start()], without listener. *)
Definition listen (store : gmap string node) : listened :=
  {| srv := start store; onceIdle := []; called := [] |}.

(** [FsCachingServer.prototype.onIdle]. *)
Definition onIdle (cb : nat) (l : listened) : listened :=
  if idle (srv l)
  then {| srv := srv l; onceIdle := onceIdle l; called := called l ++ [cb] |}
  else {| srv := srv l; onceIdle := onceIdle l ++ [cb]; called := called l |}.

(** [self.emit('idle')]: the listeners are called in the order of their
    registration; those registered with [once] are removed. *)
Definition emitIdle (l : listened) : listened :=
  {| srv := srv l; onceIdle := []; called := called l ++ onceIdle l |}.

Section Listening.

Context (lib : Lib) (self : Server).

(** One action.  A callback of the server emits [idle] when [checkIdle]
    finds no record, which [idleEvents] counts. *)
Definition act (a : action) (l : listened) : option listened :=
  match a with
  | Callback e =>
      s' ← step lib self e (srv l);
      let l' := {| srv := s'; onceIdle := onceIdle l; called := called l |} in
      Some (if decide (idleEvents s' = idleEvents (srv l)) then l' else emitIdle l')
  | OnIdle cb => Some (onIdle cb l)
  end.

Fixpoint perform (acts : list action) (l : listened) : option listened :=
  match acts with
  | [] => Some l
  | a :: acts' => l' ← act a l; perform acts' l'
  end.

End Listening.

(** The callbacks handed to [onIdle], in the order of the calls. *)
Definition registered (acts : list action) : list nat :=
  omap (λ a, match a with OnIdle cb => Some cb | Callback _ => None end) acts.

(** ** The command line

    [main] reads the environment and the options [posix-getopt] parses from
    [process.argv], and starts a server.  The parser, [parseInt] and the
    [RegExp] constructor are libraries; assertions are enabled. *)
Module Cli.

(** The variables of [process.env] that [main] reads. *)
Record Env := {
  FS_CACHE_HOST : option string;
  FS_CACHE_PORT : option string;
  FS_CACHE_URL : option string;
  FS_CACHE_DIR : option string;
  FS_CACHE_REGEX : option string
}.

(** The values [opts.port] takes: a string of the environment, or the
    number [8080] or the result of [parseInt], which may be [NaN]. *)
Inductive port_value :=
  | PortString (s : string)
  | PortNumber (n : Z)
  | PortNaN.

(** The values [opts.regex] takes: [undefined], a string, or a [RegExp]
    object, which is known by its [test]. *)
Inductive regex_value :=
  | RegexUndefined
  | RegexString (s : string)
  | RegexObject (test : string → bool).

(** The variables of [main]: [opts] and [debug]. *)
Record Vars := {
  v_host : string;
  v_port : port_value;
  v_backendUrl : option string;
  v_cacheDir : string;
  v_regex : regex_value;
  v_debug : bool
}.

(** What [getopt()] returns: [option.option] and [option.optarg]. *)
Record Parsed := {
  option_ : string;
  optarg : string
}.

Inductive stream := Stdout | Stderr.

Inductive message := Usage | Version | UrlMissing.

(** How [main] ends: [process.exit(code)] after a message, the callback of
    [checkupdate] left to exit, an exception, or a started server. *)
Inductive outcome :=
  | Exit (code : Z) (to : stream) (msg : message)
  | CheckUpdate
  | Thrown
  | Started (self : Server) (debug : bool).

(** [a || b] for a string [a] that may be undefined. *)
Definition or_else (a : option string) (b : string) : string :=
  match a with
  | Some x => if decide (x = EmptyString) then b else x
  | None => b
  end.

(** [!x] for a string that may be undefined. *)
Definition falsy (a : option string) : bool :=
  match a with
  | Some x => bool_decide (x = EmptyString)
  | None => true
  end.

Fixpoint all_slashes (s : string) : bool :=
  match s with
  | EmptyString => true
  | String c s' => bool_decide (c = Js.slash) && all_slashes s'
  end.

(** [s.replace(/\/{0,}$/, '')]: the first position from which the pattern
    matches is replaced. *)
Fixpoint strip_slashes (s : string) : string :=
  if all_slashes s then EmptyString
  else match s with
       | EmptyString => EmptyString
       | String c s' => String c (strip_slashes s')
       end.

Section Main.

Context (parseInt : string → option Z) (RegExp : string → option (string → bool)).
Context (env : Env) (cwd : string).

(** The initial value of [opts] and [debug]. *)
Definition initial : Vars :=
  {| v_host := or_else (FS_CACHE_HOST env) "0.0.0.0";
     v_port := match FS_CACHE_PORT env with
               | Some p => if decide (p = EmptyString) then PortNumber 8080 else PortString p
               | None => PortNumber 8080
               end;
     v_backendUrl := FS_CACHE_URL env;
     v_cacheDir := or_else (FS_CACHE_DIR env) cwd;
     v_regex := match FS_CACHE_REGEX env with
                | Some r => RegexString r
                | None => RegexUndefined
                end;
     v_debug := false |}.

(** The [while] loop over the parsed options. *)
Fixpoint options (l : list Parsed) (v : Vars) : Vars + outcome :=
  match l with
  | [] => inl v
  | o :: l' =>
      let a := optarg o in
      if decide (option_ o = "c") then
        options l' {| v_host := v_host v; v_port := v_port v;
                      v_backendUrl := v_backendUrl v; v_cacheDir := a;
                      v_regex := v_regex v; v_debug := v_debug v |}
      else if decide (option_ o = "d") then
        options l' {| v_host := v_host v; v_port := v_port v;
                      v_backendUrl := v_backendUrl v; v_cacheDir := v_cacheDir v;
                      v_regex := v_regex v; v_debug := true |}
      else if decide (option_ o = "H") then
        options l' {| v_host := a; v_port := v_port v;
                      v_backendUrl := v_backendUrl v; v_cacheDir := v_cacheDir v;
                      v_regex := v_regex v; v_debug := v_debug v |}
      else if decide (option_ o = "h") then inr (Exit 0 Stdout Usage)
      else if decide (option_ o = "p") then
        options l' {| v_host := v_host v;
                      v_port := match parseInt a with
                                | Some n => PortNumber n
                                | None => PortNaN
                                end;
                      v_backendUrl := v_backendUrl v; v_cacheDir := v_cacheDir v;
                      v_regex := v_regex v; v_debug := v_debug v |}
      else if decide (option_ o = "r") then
        options l' {| v_host := v_host v; v_port := v_port v;
                      v_backendUrl := v_backendUrl v; v_cacheDir := v_cacheDir v;
                      v_regex := RegexString a; v_debug := v_debug v |}
      else if decide (option_ o = "U") then
        options l' {| v_host := v_host v; v_port := v_port v;
                      v_backendUrl := Some a; v_cacheDir := v_cacheDir v;
                      v_regex := v_regex v; v_debug := v_debug v |}
      else if decide (option_ o = "u") then inr CheckUpdate
      else if decide (option_ o = "v") then inr (Exit 0 Stdout Version)
      else inr (Exit 1 Stderr Usage)
  end.

(** [if (opts.regex) opts.regex = new RegExp(opts.regex)]; [None] when the
    constructor throws. *)
Definition compile (r : regex_value) : option regex_value :=
  match r with
  | RegexString x =>
      if decide (x = EmptyString) then Some r
      else RegexObject <$> RegExp x
  | _ => Some r
  end.

(** [new FsCachingServer(opts)] for the [opts] of [main]: the assertions of
    the constructor on [opts.port] and [opts.regex], then its assignments.
    [None] when an assertion fails: [assert.number] refuses a string and
    [NaN], [assert.optionalRegexp] a string. *)
Definition construct (v : Vars) (url : string) (r : regex_value) : option Server :=
  match v_port v with
  | PortNumber n =>
      match r with
      | RegexString _ => None
      | RegexUndefined =>
          Some (FsCachingServer
                  {| opts_host := v_host v; opts_port := n; opts_backendUrl := url;
                     opts_cacheDir := v_cacheDir v; opts_regex := None;
                     opts_noProxyHeaders := None; opts_cacheMethods := None |})
      | RegexObject test =>
          Some (FsCachingServer
                  {| opts_host := v_host v; opts_port := n; opts_backendUrl := url;
                     opts_cacheDir := v_cacheDir v; opts_regex := Some test;
                     opts_noProxyHeaders := None; opts_cacheMethods := None |})
      end
  | _ => None
  end.

(** [main()], for the options [argv] the parser returns one after the
    other. *)
Definition main (argv : list Parsed) : outcome :=
  match options argv initial with
  | inr out => out
  | inl v =>
      match v_backendUrl v with
      | Some url =>
          if decide (url = EmptyString) then Exit 1 Stderr UrlMissing
          else
            match compile (v_regex v) with
            | None => Thrown
            | Some r =>
                match construct v (strip_slashes url) r with
                | Some self => Started self (v_debug v)
                | None => Thrown
                end
            end
      | None => Exit 1 Stderr UrlMissing
      end
  end.

End Main.

(** The options that set a variable. *)
Definition known : list string := ["c"; "d"; "H"; "p"; "r"; "U"].

(** The argument of the last option [o] of the command line. *)
Definition last_arg (o : string) (argv : list Parsed) : option string :=
  last (optarg <$> filter (λ p, option_ p = o) argv).

End Cli.

(** ** [start] and [stop]

    The instance as [start] and [stop] see it: [self.server] and whether
    [self.inProgress] has been assigned.  Assertions are enabled; the
    listening socket and the [start] and [stop] events are left out. *)
Module Lifecycle.

(** [Constructed]: [self.server] is [null] and [self.inProgress] is
    undefined.  [Running]: [self.server] is set; [stopping] tells whether
    [stop] has registered its listener for [close].  [Stopped]:
    [self.server] is [null] again, and [self.inProgress] is an object. *)
Inductive instance :=
  | Constructed (store : gmap string node)
  | Running (s : state) (stopping : bool)
  | Stopped (s : state).

(** What happens to an instance: the user calls [start()] or [stop()], the
    runtime emits [close] on the server, or it invokes a callback. *)
Inductive operation :=
  | Start
  | Stop
  | Close
  | Invoke (e : event).

(** [FsCachingServer.prototype.start]; [None] when an assertion fails.
    [assert(!self.inProgress)] fails on an object, also on an empty one. *)
Definition start (i : instance) : option instance :=
  match i with
  | Constructed store => Some (Running (start store) false)
  | Running _ _ => None
  | Stopped _ => None
  end.

(** [FsCachingServer.prototype.stop]; [None] when the assertion fails. *)
Definition stop (i : instance) : option instance :=
  match i with
  | Running s _ => Some (Running s true)
  | _ => None
  end.

(** The listener [stop] registers for [close]. *)
Definition onClose (i : instance) : option instance :=
  match i with
  | Running s true => Some (Stopped (set_idle true (idleEvents s) s))
  | _ => None
  end.

Section Operations.

Context (lib : Lib) (self : Server).

(** One operation; [None] when it throws or when the runtime cannot do it:
    no callback exists before [start], [close] is emitted after [stop]
    only, and no request arrives once the server is closed. *)
Definition operate (o : operation) (i : instance) : option instance :=
  match o with
  | Start => start i
  | Stop => stop i
  | Close => onClose i
  | Invoke e =>
      match i with
      | Constructed _ => None
      | Running s b => s' ← step lib self e s; Some (Running s' b)
      | Stopped s =>
          match e with
          | EvRequest _ => None
          | _ => s' ← step lib self e s; Some (Stopped s')
          end
      end
  end.

Fixpoint perform (ops : list operation) (i : instance) : option instance :=
  match ops with
  | [] => Some i
  | o :: ops' => i' ← operate o i; perform ops' i'
  end.

End Operations.

End Lifecycle.

(** ** Concrete inputs *)
Module Ex.

Definition opts : Opts :=
  {| opts_host := "0.0.0.0"; opts_port := 8080; opts_backendUrl := "http://backend:8000";
     opts_cacheDir := "/cache"; opts_regex := None; opts_noProxyHeaders := None;
     opts_cacheMethods := None |}.

Definition self : Server := FsCachingServer opts.

Definition request (m p : string) (h : gmap string string) : IncomingMessage :=
  {| method := m; url_pathname := p; url_path := p; headers := h;
     ores_statusCode := 0; payload := EmptyString |}.

Definition get (p : string) : IncomingMessage := request "GET" p ∅.

Definition response (code : Z) (h : gmap string string) (data : string) : IncomingMessage :=
  {| method := EmptyString; url_pathname := EmptyString; url_path := EmptyString;
     headers := h; ores_statusCode := code; payload := data |}.

(** A store that holds [hello.png] already. *)
Definition warm : gmap string node :=
  {[ "/cache" := Dir; "/cache/hello.png" := File "hello" 1762077600000 ]}.

(** The callbacks of one successful fill started by request [id]. *)
Definition fill_ok (id : nat) (ores : IncomingMessage) (now : Z) : list event :=
  [EvResponse id ores; EvMkdirp id true; EvOpen id true now; EvData id 2 (now + 1);
   EvData id 4095 (now + 2); EvWriteFinish id; EvRename id true; EvRestat id].

(** A first request for [/header.png] fills the cache from a backend that
    sends [x-fun-header]; a second request arrives afterwards. *)
Definition header_run : list event :=
  [EvRequest (get "/header.png"); EvStat 0]
  ++ fill_ok 0 (response 200 {[ "x-fun-header" := "woo" ]} "pixels") 1762077600000
  ++ [EvRequest (get "/header.png")].

Definition after_header_run : state :=
  default (start ∅) (run node_lib self header_run (start ∅)).

(** A HEAD request for a file of the warm store. *)
Definition head_run : list event := [EvRequest (request "HEAD" "/hello.png" ∅)].

Definition after_head_run : state :=
  default (start warm) (run node_lib self head_run (start warm)).

(** Two requests for the same path arrive before the backend answers 404
    with a body. *)
Definition not_found : IncomingMessage :=
  response 404 {[ "content-type" := "text/plain"; "server" := "tape" ]} "no such file".

Definition not_found_run : list event :=
  [EvRequest (get "/statusCode/404/x.png"); EvStat 0;
   EvRequest (get "/statusCode/404/x.png"); EvStat 1].

Definition awaiting_404 : state :=
  default (start ∅) (run node_lib self not_found_run (start ∅)).

(** A server configured not to forward [x-secret], and a proxied request that
    carries it. *)
Definition private_opts : Opts :=
  {| opts_host := "0.0.0.0"; opts_port := 8080; opts_backendUrl := "http://backend:8000";
     opts_cacheDir := "/cache"; opts_regex := None;
     opts_noProxyHeaders := Some ["x-secret"]; opts_cacheMethods := None |}.

Definition private_self : Server := FsCachingServer private_opts.

Definition post_api : IncomingMessage :=
  request "POST" "/api"
    {[ "accept" := "*/*"; "date" := "Sun, 02 Nov 2025 10:00:00 GMT"; "x-secret" := "s3cr3t" ]}.

Definition api_answer : IncomingMessage :=
  response 200 {[ "x-secret" := "t0ken"; "server" := "tape" ]} "ok".

(** A request that tries to climb out of the cache root. *)
Definition traversal : IncomingMessage := get "/%2e%2e/%2e%2e/etc/passwd.png".

Definition pixels : IncomingMessage := response 200 ∅ "pixels".

(** Two requests for the same path arrive before the first is answered. *)
Definition two_get : list event :=
  [EvRequest (get "/simultaneous.png"); EvStat 0;
   EvRequest (get "/simultaneous.png"); EvStat 1].



(** The fill is written out; the rename is still to come. *)
Definition written : list event :=
  [EvResponse 0 pixels; EvMkdirp 0 true; EvOpen 0 true 1762077600000;
   EvData 0 2 1762077600001; EvData 0 4095 1762077600002; EvWriteFinish 0].

Definition before_rename : state :=
  default (start ∅) (run node_lib self (two_get ++ written) (start ∅)).

Definition before_restat : state :=
  default (start ∅) (run node_lib self (two_get ++ written ++ [EvRename 0 true]) (start ∅)).

(** A server started with the pattern [/\.png/], which is not anchored at
    the end of the path. *)
Definition loose_opts : Opts :=
  {| opts_host := "0.0.0.0"; opts_port := 8080; opts_backendUrl := "http://backend:8000";
     opts_cacheDir := "/cache"; opts_regex := Some (Js.includes ".png");
     opts_noProxyHeaders := None; opts_cacheMethods := None |}.

Definition loose_self : Server := FsCachingServer loose_opts.

(** While the first three bytes of [/x.png] are on disk, a request for
    [/x.png.in-progress] arrives. *)
Definition collision_run : list event :=
  [EvRequest (get "/x.png"); EvStat 0; EvResponse 0 pixels; EvMkdirp 0 true;
   EvOpen 0 true 1762077600000; EvData 0 2 1762077600001;
   EvRequest (get "/x.png.in-progress"); EvStat 1].

End Ex.

(** ** Further concrete inputs *)
Module Sample.

(** A request that is not eligible for the cache, with a body. *)
Definition upload : IncomingMessage :=
  {| method := "POST"; url_pathname := "/upload"; url_path := "/upload?as=x.png";
     headers := {[ "content-type" := "text/plain"; "host" := "cache:8080" ]};
     ores_statusCode := 0; payload := "some text" |}.

Definition uploading : state := onRequest node_lib Ex.self upload (start ∅).

Definition created : IncomingMessage :=
  Ex.response 201 {[ "location" := "/x.png"; "server" := "tape" ]} "created".

(** A store with a directory where a file is asked for. *)
Definition with_directory : gmap string node :=
  {[ "/cache" := Dir; "/cache/directory.png" := Dir ]}.

Definition looked_up (store : gmap string node) (p : string) : state :=
  onRequest node_lib Ex.self (Ex.get p) (start store).

(** Two requests wait for the fill of [/simultaneous.png]; the backend has
    answered. *)
Definition answered_run : list event := Ex.two_get ++ [EvResponse 0 Ex.pixels].

Definition before_mkdirp : state :=
  default (start ∅) (run node_lib Ex.self answered_run (start ∅)).

Definition simultaneous : fill :=
  {| f_req := Ex.get "/simultaneous.png"; f_file := "/cache/simultaneous.png";
     f_phase := AwaitResponse |}.


(** The whole fill. *)
Definition filled_run : list event :=
  Ex.two_get ++ Ex.written ++ [EvRename 0 true; EvRestat 0].

Definition filled : state :=
  default (start ∅) (run node_lib Ex.self filled_run (start ∅)).

(** A third request arrives after the fill. *)
Definition asked_again : state :=
  default (start ∅)
    (run node_lib Ex.self (filled_run ++ [EvRequest (Ex.get "/simultaneous.png")]) (start ∅)).

(** The fill of [/header.png] beside a file that is in the store. *)
Definition warm_filled : state :=
  default (start Ex.warm) (run node_lib Ex.self Ex.header_run (start Ex.warm)).

(** A request whose path cannot be decoded. *)
Definition refused : state := onRequest node_lib Ex.self (Ex.get "/%zz.png") (start ∅).

(** The user asks for a callback while the server fills [/x.png], and once
    more after the request to the backend has failed. *)
Definition idle_acts : list action :=
  [Callback (EvRequest (Ex.get "/x.png")); Callback (EvStat 0); OnIdle 7;
   Callback (EvRequestError 0); OnIdle 8].

Definition listening : listened :=
  default (listen ∅) (perform node_lib Ex.self idle_acts (listen ∅)).

(** [parseInt(s, 10)] on a string that starts neither with white space nor
    with a sign. *)
Fixpoint digits (acc : option Z) (s : string) : option Z :=
  match s with
  | EmptyString => acc
  | String c s' =>
      let n := Z.of_N (N_of_ascii c) in
      if (48 <=? n) && (n <=? 57) then digits (Some (10 * default 0 acc + (n - 48))) s'
      else acc
  end.

Definition parseInt (s : string) : option Z := digits None s.

(** [new RegExp(s)] for a pattern made of literal characters. *)
Definition RegExp (s : string) : option (string → bool) := Some (Js.includes s).

Definition env : Cli.Env :=
  {| Cli.FS_CACHE_HOST := Some "127.0.0.1"; Cli.FS_CACHE_PORT := None;
     Cli.FS_CACHE_URL := Some "http://old:8000/"; Cli.FS_CACHE_DIR := None;
     Cli.FS_CACHE_REGEX := None |}.

Definition argv : list Cli.Parsed :=
  [ {| Cli.option_ := "U"; Cli.optarg := "https://backend:8443//" |};
    {| Cli.option_ := "p"; Cli.optarg := "9000" |};
    {| Cli.option_ := "d"; Cli.optarg := EmptyString |};
    {| Cli.option_ := "r"; Cli.optarg := "png" |};
    {| Cli.option_ := "p"; Cli.optarg := "9090" |} ].

Definition server : Server :=
  FsCachingServer
    {| opts_host := "127.0.0.1"; opts_port := 9090;
       opts_backendUrl := "https://backend:8443"; opts_cacheDir := "/srv";
       opts_regex := Some (Js.includes "png"); opts_noProxyHeaders := None;
       opts_cacheMethods := None |}.

End Sample.

(** * Properties *)

(** ** The library functions on concrete inputs *)

Example split_ex : Js.split Js.slash "/a//b.png" = [EmptyString; "a"; EmptyString; "b.png"].
Proof. reflexivity. Qed.

Example normalize_ex1 : Path.normalize "/a/./b/../../../c.png" = "/c.png".
Proof. reflexivity. Qed.

Example normalize_ex2 : Path.normalize "a/../../c/" = "../c/".
Proof. reflexivity. Qed.

Example join_ex : Path.join "/tmp/cache" "/x/y.png" = "/tmp/cache/x/y.png".
Proof. reflexivity. Qed.

Example dirname_ex1 : Path.dirname "/tmp/cache/x/y.png" = "/tmp/cache/x".
Proof. reflexivity. Qed.

Example dirname_ex2 : Path.dirname "/y.png" = "/".
Proof. reflexivity. Qed.

Example decode_ex1 : Uri.decodeURIComponent "/a%20b/%2e%2e/c.png" = Some "/a b/../c.png".
Proof. reflexivity. Qed.

Example decode_ex2 : Uri.decodeURIComponent "/%E0%A4%A.png" = None.
Proof. reflexivity. Qed.

Example decode_ex3 : Uri.decodeURIComponent "/%ff.png" = None.
Proof. reflexivity. Qed.

Example ancestors_ex : Store.ancestors "/tmp/cache/x" = ["/tmp"; "/tmp/cache"; "/tmp/cache/x"].
Proof. reflexivity. Qed.

Example ancestors_rel : Store.ancestors "cache/x" = ["cache"; "cache/x"].
Proof. reflexivity. Qed.

(** ** Facts about strings *)
Section StringFacts.

Lemma append_nil_l (t : string) : EmptyString +:+ t = t.
Proof. reflexivity. Qed.

Lemma append_cons (c : ascii) (s t : string) : String c s +:+ t = String c (s +:+ t).
Proof. reflexivity. Qed.

Lemma append_empty_r (s : string) : s +:+ EmptyString = s.
Proof. induction s as [|c s IH]; [done | by rewrite append_cons, IH]. Qed.

Lemma append_assoc (a b c : string) : (a +:+ b) +:+ c = a +:+ (b +:+ c).
Proof. induction a as [|x a IH]; [done | by rewrite !append_cons, IH]. Qed.

Lemma of_chars_chars (s : string) : Js.of_chars (Js.chars s) = s.
Proof. induction s as [|c s IH]; simpl; [done | by rewrite IH]. Qed.

Lemma of_chars_app (l1 l2 : list ascii) :
  Js.of_chars (l1 ++ l2) = Js.of_chars l1 +:+ Js.of_chars l2.
Proof. induction l1 as [|c l1 IH]; simpl; [done | by rewrite append_cons, IH]. Qed.

Lemma takeS_dropS (n : nat) (x : string) : takeS n x +:+ dropS n x = x.
Proof.
  unfold takeS, dropS.
  by rewrite <- of_chars_app, take_drop, of_chars_chars.
Qed.

Lemma rev_app_spec (s acc : string) :
  String.rev_app s acc = String.rev_app s EmptyString +:+ acc.
Proof.
  revert acc. induction s as [|c s IH]; intros acc; simpl; [done|].
  rewrite (IH (String c acc)), (IH (String c EmptyString)).
  by rewrite append_assoc.
Qed.

Lemma rev_append (a b : string) :
  String.rev (a +:+ b) = String.rev b +:+ String.rev a.
Proof.
  unfold String.rev. induction a as [|c a IH].
  - by rewrite append_nil_l, append_empty_r.
  - rewrite append_cons. simpl.
    rewrite rev_app_spec, IH, (rev_app_spec a (String c EmptyString)).
    by rewrite append_assoc.
Qed.

Lemma prefix_append (p s : string) : String.prefix p (p +:+ s) = true.
Proof.
  induction p as [|c p IH]; [by destruct s|].
  rewrite append_cons. simpl.
  destruct (ascii_dec c c); [done | congruence].
Qed.

Lemma endsWith_append (x p : string) : Js.endsWith p (x +:+ p) = true.
Proof. unfold Js.endsWith. rewrite rev_append. apply prefix_append. Qed.

Lemma rev_cons (c : ascii) (a : string) :
  String.rev (String c a) = String.rev a +:+ String c EmptyString.
Proof.
  change (String c a) with (String c EmptyString +:+ a).
  by rewrite rev_append.
Qed.

Lemma rev_involutive (a : string) : String.rev (String.rev a) = a.
Proof.
  induction a as [|c a IH]; [done|].
  by rewrite rev_cons, rev_append, IH.
Qed.

Lemma tmp_of_inj (a b : string) : tmp_of a = tmp_of b → a = b.
Proof.
  unfold tmp_of. intros H. apply (f_equal String.rev) in H.
  rewrite !rev_append in H. apply (inj _) in H.
  by rewrite <- (rev_involutive a), H, rev_involutive.
Qed.

End StringFacts.

(** ** The invariant holds in every reachable state *)

Lemma Inv_start (c : bool) (store : gmap string node) : Inv c (start store).
Proof.
  split; simpl; try (intros; simplify_map_eq; done);
    try (intros ? [? ?]; simplify_map_eq; done);
    try (intros ? (? & ? & ? & ? & _); simplify_map_eq; done).
Qed.

(** What [finish] and the other callbacks of a fill need to keep the
    invariant. *)
Section InvariantFacts.
Context (lib : Lib) (self : Server) (c : bool).

Lemma foldl_alter_notin (g : waiter → ServerResponse → ServerResponse) q
    (m : gmap nat ServerResponse) i :
  i ∉ (w_res <$> q) →
  foldl (λ m o, alter (g o) (w_res o) m) m q !! i = m !! i.
Proof.
  revert m. induction q as [|o q IH]; intros m Hi; [done|].
  rewrite fmap_cons, not_elem_of_cons in Hi. destruct Hi as [Hne Hi].
  simpl. rewrite IH by done. by rewrite lookup_alter_ne.
Qed.

Lemma foldl_alter_in (g : waiter → ServerResponse → ServerResponse) q
    (m : gmap nat ServerResponse) o :
  NoDup (w_res <$> q) → o ∈ q →
  foldl (λ m o, alter (g o) (w_res o) m) m q !! w_res o = g o <$> m !! w_res o.
Proof.
  revert m. induction q as [|o' q IH]; intros m Hnd Ho; [by apply elem_of_nil in Ho|].
  rewrite fmap_cons, NoDup_cons in Hnd. destruct Hnd as [Hfresh Hnd].
  apply elem_of_cons in Ho as [->|Ho]; simpl.
  - rewrite foldl_alter_notin by done. by rewrite lookup_alter_eq.
  - rewrite IH by done. rewrite lookup_alter_ne; [done|].
    intros Heq. apply Hfresh. rewrite Heq. by apply list_elem_of_fmap_2.
Qed.

Lemma waiting_delete m file id :
  waiting (delete file m) id →
  ∃ file' q w, file' ≠ file ∧ m !! file' = Some q ∧ w ∈ q ∧ w_res w = id.
Proof.
  intros (file' & q & w & Hq & Hw & Hid).
  apply lookup_delete_Some in Hq as [Hne Hq]. eauto 10.
Qed.

Lemma waiting_insert_nil m file id :
  waiting (<[file := []]> m) id → waiting m id.
Proof.
  intros (file' & q & w & Hq & Hw & Hid).
  apply lookup_insert_Some in Hq as [[<- <-]|[Hne Hq]].
  - by apply elem_of_nil in Hw.
  - by exists file', q, w.
Qed.

Lemma waiting_insert_snoc m file q w0 id :
  m !! file = Some q →
  waiting (<[file := q ++ [w0]]> m) id → waiting m id ∨ id = w_res w0.
Proof.
  intros Hm (file' & q' & w & Hq & Hw & Hid).
  apply lookup_insert_Some in Hq as [[<- <-]|[Hne Hq]].
  - apply elem_of_app in Hw as [Hw|Hw].
    + left. by exists file, q, w.
    + apply list_elem_of_singleton in Hw as ->. by right.
  - left. by exists file', q', w.
Qed.

Lemma waiting_elem m file q w :
  m !! file = Some q → w ∈ q → waiting m (w_res w).
Proof. intros. by exists file, q, w. Qed.

Lemma Inv_finish s s' id f q :
  Inv c s →
  fills s !! id = Some f → active f →
  inProgress s !! f_file f = Some q →
  (∀ i, i ≠ id → i ∉ (w_res <$> q) → responses s' !! i = responses s !! i) →
  inProgress s' = delete (f_file f) (inProgress s) →
  fills s' = alter (at_phase Finished) id (fills s) →
  fs s' = fs s → statting s' = statting s → proxying s' = proxying s →
  nextId s' = nextId s →
  Inv c s'.
Proof.
  intros HI Hf Hact Hq Hres Hprog Hfills Hfs Hstat Hproxy Hnext.
  assert (Hsub : ∀ i, waiting (inProgress s') i → waiting (inProgress s) i).
  { intros i Hw. rewrite Hprog in Hw.
    apply waiting_delete in Hw as (file' & q' & w & _ & ? & ? & ?).
    by exists file', q', w. }
  assert (Hout : ∀ i, waiting (inProgress s') i → i ∉ (w_res <$> q)).
  { intros i Hw Hin. rewrite Hprog in Hw.
    apply waiting_delete in Hw as (file' & q' & w & Hne & Hq' & Hw & Hid).
    apply list_elem_of_fmap in Hin as (w0 & Hid0 & Hw0).
    apply list_elem_of_lookup in Hw as [j Hj].
    apply list_elem_of_lookup in Hw0 as [j0 Hj0].
    destruct (inv_queues c s HI _ _ _ _ _ _ _ _ Hq' Hq Hj Hj0) as [? _]; congruence. }
  assert (Hfl : ∀ i g, fills s' !! i = Some g →
            (i = id ∧ g = at_phase Finished f) ∨ (i ≠ id ∧ fills s !! i = Some g)).
  { intros i g. rewrite Hfills. destruct (decide (i = id)) as [->|Hne].
    - rewrite lookup_alter_eq, Hf. simpl. intros [= <-]. by left.
    - rewrite lookup_alter_ne by done. by right. }
  assert (Hfl' : ∀ i, is_Some (fills s' !! i) → is_Some (fills s !! i)).
  { intros i [g Hg]. apply Hfl in Hg as [[-> _]|[_ ?]]; eauto. }
  split.
  - intros i rf Hi. rewrite Hstat in Hi. rewrite Hres.
    + by eapply inv_stat_fresh.
    + intros ->. assert (fills s !! id = None); [|congruence].
      apply (inv_stat_fill c s HI). by rewrite Hi.
    + intros Hin. apply list_elem_of_fmap in Hin as (w & -> & Hw).
      eapply (inv_stat_wait c s HI); [by rewrite Hi|]. by eapply waiting_elem.
  - intros i Hw. rewrite Hres.
    + by apply (inv_wait_fresh c s HI), Hsub.
    + intros ->. apply Hsub, (inv_wait_fill c s HI) in Hw. congruence.
    + by apply Hout.
  - intros i g r Hg Hr. apply Hfl in Hg as [[-> ->]|[Hne Hg]]; [done|].
    rewrite Hres; [by eapply inv_trigger|done|].
    intros Hin. apply list_elem_of_fmap in Hin as (w & -> & Hw).
    pose proof (waiting_elem _ _ _ _ Hq Hw) as Hwt.
    apply (inv_wait_fill c s HI) in Hwt. congruence.
  - intros i Hi. rewrite Hstat in Hi. rewrite Hnext. by apply (inv_stat_bound c s HI).
  - intros i Hi. rewrite Hnext. by apply (inv_wait_bound c s HI), Hsub.
  - intros i Hi. rewrite Hnext. by apply (inv_fill_bound c s HI), Hfl'.
  - intros i Hi. rewrite Hproxy in Hi. rewrite Hnext. by apply (inv_proxy_bound c s HI).
  - intros i Hi Hw. rewrite Hstat in Hi. by eapply (inv_stat_wait c s HI), Hsub.
  - intros i Hi. rewrite Hstat in Hi. apply (inv_stat_fill c s HI) in Hi.
    destruct (fills s' !! i) as [g|] eqn:Hg; [|done].
    apply Hfl in Hg as [[-> _]|[_ ?]]; congruence.
  - intros i Hi. rewrite Hstat in Hi. rewrite Hproxy. by apply (inv_stat_proxy c s HI).
  - intros i Hi. apply Hsub, (inv_wait_fill c s HI) in Hi.
    destruct (fills s' !! i) as [g|] eqn:Hg; [|done].
    apply Hfl in Hg as [[-> _]|[_ ?]]; congruence.
  - intros i Hi. rewrite Hproxy. by apply (inv_wait_proxy c s HI), Hsub.
  - intros i Hi. rewrite Hproxy. by apply (inv_fill_proxy c s HI), Hfl'.
  - intros f1 f2 q1 q2 i j w1 w2. rewrite Hprog.
    intros [_ ?]%lookup_delete_Some [_ ?]%lookup_delete_Some.
    by eapply inv_queues.
  - intros i g Hg Hga. apply Hfl in Hg as [[-> ->]|[Hne Hg]]; [done|].
    rewrite Hprog. rewrite lookup_delete_ne; [by eapply inv_record|].
    intros Heq. apply Hne. by eapply (inv_unique c s HI).
  - intros i1 i2 g1 g2 Hg1 Hg2 Ha1 Ha2.
    apply Hfl in Hg1 as [[-> ->]|[Hne1 Hg1]]; [done|].
    apply Hfl in Hg2 as [[-> ->]|[Hne2 Hg2]]; [done|].
    by eapply inv_unique.
  - intros file. rewrite Hprog. intros [q' [Hne Hq']%lookup_delete_Some].
    destruct (inv_owner c s HI file) as (i & g & Hg & Hga & Hgf); [eauto|].
    exists i, g. split_and!; [|done..]. rewrite Hfills, lookup_alter_ne; [done|].
    intros ->. congruence.
  - intros Hc i g Hg. rewrite Hfs. apply Hfl in Hg as [[-> ->]|[Hne Hg]]; [done|].
    by eapply inv_store.
  - intros Hc i req file. rewrite Hstat. by eapply inv_stat_key.
  - intros Hc i g Hg. apply Hfl in Hg as [[-> ->]|[Hne Hg]].
    + by apply (inv_fill_key c s HI Hc id f).
    + by apply (inv_fill_key c s HI Hc i g).
Qed.

Lemma is_tmp_tmp_of (a : string) : is_tmp (tmp_of a) = true.
Proof. apply endsWith_append. Qed.

Lemma Inv_advance s s' id f p' :
  Inv c s →
  fills s !! id = Some f → active f → p' ≠ Finished →
  (∀ i, i ≠ id → responses s' !! i = responses s !! i) →
  (∀ r, trigger_res p' = Some r → responses s' !! id = Some r) →
  fills s' = alter (at_phase p') id (fills s) →
  (c = true → store_state (fs s') (f_file f) p') →
  (∀ p x, p ≠ tmp_of (f_file f) → p ≠ f_file f →
          fs s !! p = Some x → fs s' !! p = Some x) →
  inProgress s' = inProgress s → statting s' = statting s →
  proxying s' = proxying s → nextId s' = nextId s →
  Inv c s'.
Proof.
  intros HI Hf Hact Hp' Hres Hown Hfills Hst Hframe Hprog Hstat Hproxy Hnext.
  assert (Hfl : ∀ i g, fills s' !! i = Some g →
            (i = id ∧ g = at_phase p' f) ∨ (i ≠ id ∧ fills s !! i = Some g)).
  { intros i g. rewrite Hfills. destruct (decide (i = id)) as [->|Hne].
    - rewrite lookup_alter_eq, Hf. simpl. intros [= <-]. by left.
    - rewrite lookup_alter_ne by done. by right. }
  assert (Hfl' : ∀ i, is_Some (fills s' !! i) → is_Some (fills s !! i)).
  { intros i [g Hg]. apply Hfl in Hg as [[-> _]|[_ ?]]; eauto. }
  assert (Hfn : ∀ i, fills s !! i = None → fills s' !! i = None).
  { intros i Hi. destruct (fills s' !! i) as [g|] eqn:Hg; [|done].
    apply Hfl in Hg as [[-> _]|[_ ?]]; congruence. }
  assert (Hidf : f_file (at_phase p' f) = f_file f) by done.
  split; rewrite ?Hprog, ?Hstat, ?Hproxy, ?Hnext.
  - intros i rf Hi. rewrite Hres; [by eapply inv_stat_fresh|].
    intros ->. assert (fills s !! id = None); [|congruence].
    apply (inv_stat_fill c s HI). by rewrite Hi.
  - intros i Hw. rewrite Hres; [by apply (inv_wait_fresh c s HI)|].
    intros ->. apply (inv_wait_fill c s HI) in Hw. congruence.
  - intros i g r Hg Hr. apply Hfl in Hg as [[-> ->]|[Hne Hg]]; [by apply Hown|].
    rewrite Hres by done. by eapply inv_trigger.
  - apply (inv_stat_bound c s HI).
  - apply (inv_wait_bound c s HI).
  - intros i Hi. by apply (inv_fill_bound c s HI), Hfl'.
  - apply (inv_proxy_bound c s HI).
  - apply (inv_stat_wait c s HI).
  - intros i Hi. by apply Hfn, (inv_stat_fill c s HI).
  - apply (inv_stat_proxy c s HI).
  - intros i Hi. by apply Hfn, (inv_wait_fill c s HI).
  - apply (inv_wait_proxy c s HI).
  - intros i Hi. by apply (inv_fill_proxy c s HI), Hfl'.
  - apply (inv_queues c s HI).
  - intros i g Hg Hga. apply Hfl in Hg as [[-> ->]|[Hne Hg]].
    + by apply (inv_record c s HI id f).
    + by apply (inv_record c s HI i g).
  - intros i1 i2 g1 g2 Hg1 Hg2 Ha1 Ha2 Hfile.
    apply Hfl in Hg1 as [[-> ->]|[Hne1 Hg1]];
      apply Hfl in Hg2 as [[-> ->]|[Hne2 Hg2]]; [done|..].
    + by apply (inv_unique c s HI id i2 f g2).
    + by apply (inv_unique c s HI i1 id g1 f).
    + by apply (inv_unique c s HI i1 i2 g1 g2).
  - intros file Hfile.
    destruct (inv_owner c s HI file Hfile) as (i & g & Hg & Hga & Hgf).
    destruct (decide (i = id)) as [->|Hne].
    + exists id, (at_phase p' f). rewrite Hfills, lookup_alter_eq, Hf.
      split_and!; [done|done|]. simpl. congruence.
    + exists i, g. by rewrite Hfills, lookup_alter_ne.
  - intros Hc i g Hg. apply Hfl in Hg as [[-> ->]|[Hne Hg]]; [by apply Hst|].
    pose proof (inv_store c s HI Hc i g Hg) as Hs.
    pose proof (inv_fill_key c s HI Hc i g Hg) as Hk.
    pose proof (inv_fill_key c s HI Hc id f Hf) as Hkf.
    assert (Hdiff : active g → f_file g ≠ f_file f).
    { intros Hga Heq. apply Hne. by apply (inv_unique c s HI i id g f). }
    assert (Htt : active g → tmp_of (f_file g) ≠ tmp_of (f_file f)).
    { intros Hga Heq%tmp_of_inj. by apply Hdiff. }
    assert (Htf : tmp_of (f_file g) ≠ f_file f).
    { intros Heq. rewrite <- Heq, is_tmp_tmp_of in Hkf. done. }
    assert (Hft : f_file g ≠ tmp_of (f_file f)).
    { intros Heq. rewrite Heq, is_tmp_tmp_of in Hk. done. }
    unfold store_state in *. unfold active in *.
    destruct (f_phase g); try done.
    + destruct Hs as (w & m & Hs & Hw). exists w, m. split; [|done].
      apply Hframe; auto.
    + destruct Hs as (m & Hs). exists m. apply Hframe; auto.
    + destruct Hs as (m & Hs). exists m. apply Hframe; auto.
  - apply (inv_stat_key c s HI).
  - intros Hc i g Hg. apply Hfl in Hg as [[-> ->]|[Hne Hg]].
    + by apply (inv_fill_key c s HI Hc id f).
    + by apply (inv_fill_key c s HI Hc i g).
Qed.

End InvariantFacts.

(** [_onRequest] and its [fs.stat] callback. *)
Section HandlerInv.
Context (lib : Lib) (self : Server) (c : bool).

Ltac alloc_tac HI Hfresh :=
  try solve
    [ intros;
      repeat match goal with
             | H : _ && _ = true |- _ => apply andb_true_iff in H as [? ?]
             end;
      rewrite ?lookup_alter_ne, ?lookup_insert_ne by (apply not_eq_sym, Hfresh; eauto);
      solve [ destruct HI; eauto | apply Nat.lt_lt_succ_r; eauto ] ].

Lemma onRequest_Inv req s :
  Inv c s → Inv (c && ev_ok self (EvRequest req)) (onRequest lib self req s).
Proof.
  intros HI. unfold onRequest. simpl. unfold store_key.
  pose proof (inv_stat_bound c s HI) as Bs.
  pose proof (inv_wait_bound c s HI) as Bw.
  pose proof (inv_fill_bound c s HI) as Bf.
  pose proof (inv_proxy_bound c s HI) as Bp.
  assert (Hfresh : ∀ i : nat, (i < nextId s)%nat → i ≠ nextId s) by lia.
  destruct (Uri.decodeURIComponent (url_pathname req)) as [decoded|]; simpl in *.
  2:{ split; simpl; alloc_tac HI Hfresh. }
  destruct (Js.notIn (method req) (cacheMethods self) || negb (regex self (Path.normalize decoded))).
  - split; simpl; alloc_tac HI Hfresh.
    intros i [x [[<- _]|[_ Hx]]%lookup_insert_Some]; [lia|].
    apply Nat.lt_lt_succ_r; eauto.
  - split; simpl; alloc_tac HI Hfresh.
    + intros i rf [[<- _]|[Hne Hx]]%lookup_insert_Some.
      * by rewrite lookup_insert_eq.
      * rewrite lookup_insert_ne by done. by eapply inv_stat_fresh.
    + intros i [x [[<- _]|[_ Hx]]%lookup_insert_Some]; [lia|].
      apply Nat.lt_lt_succ_r; eauto.
    + intros i [x [[<- _]|[_ Hx]]%lookup_insert_Some] Hw.
      * apply Bw in Hw. lia.
      * by eapply (inv_stat_wait c s HI).
    + intros i [x [[<- _]|[_ Hx]]%lookup_insert_Some].
      * destruct (fills s !! nextId s) eqn:E; [|done].
        assert (nextId s < nextId s)%nat; [eauto | lia].
      * by eapply (inv_stat_fill c s HI).
    + intros i [x [[<- _]|[_ Hx]]%lookup_insert_Some].
      * destruct (proxying s !! nextId s) eqn:E; [|done].
        assert (nextId s < nextId s)%nat; [eauto | lia].
      * by eapply (inv_stat_proxy c s HI).
    + intros [Hc Hkey]%andb_true_iff i req0 file [[<- [= <- <-]]|[_ Hx]]%lookup_insert_Some.
      * by apply negb_true_iff.
      * by eapply (inv_stat_key c s HI).
Qed.

Lemma onStat_Inv id s s' : Inv c s → onStat lib self id s = Some s' → Inv c s'.
Proof.
  intros HI. unfold onStat.
  destruct (statting s !! id) as [[req file]|] eqn:Hid; simpl; [|done].
  assert (Hsid : is_Some (statting s !! id)) by eauto.
  pose proof (inv_stat_wait c s HI id Hsid) as Hnw.
  pose proof (inv_stat_fill c s HI id Hsid) as Hnf.
  pose proof (inv_stat_proxy c s HI id Hsid) as Hnp.
  pose proof (inv_stat_fresh c s HI id _ Hid) as Hnew.
  assert (Hkey : c = true → is_tmp file = false).
  { intros Hc. by apply (inv_stat_key c s HI Hc id req). }
  assert (Hdel : ∀ i x, delete id (statting s) !! i = Some x →
                        i ≠ id ∧ statting s !! i = Some x).
  { intros i x [? ?]%lookup_delete_Some. done. }
  assert (Hdel' : ∀ i, is_Some (delete id (statting s) !! i) →
                        i ≠ id ∧ is_Some (statting s !! i)).
  { intros i [x [? ?]%Hdel]. eauto. }
  assert (Hhit : ∀ g, Inv c (on_res id g (set_statting (delete id (statting s)) s))).
  { intros g. split; simpl.
    - intros i rf [Hne Hi]%Hdel. rewrite lookup_alter_ne by done.
      by eapply inv_stat_fresh.
    - intros i Hw. rewrite lookup_alter_ne by (by intros ->).
      by eapply inv_wait_fresh.
    - intros i f r Hf Hr. rewrite lookup_alter_ne by (intros ->; congruence).
      by eapply inv_trigger.
    - intros i [_ Hi]%Hdel'. by apply (inv_stat_bound c s HI).
    - apply (inv_wait_bound c s HI).
    - apply (inv_fill_bound c s HI).
    - apply (inv_proxy_bound c s HI).
    - intros i [_ Hi]%Hdel'. by apply (inv_stat_wait c s HI).
    - intros i [_ Hi]%Hdel'. by apply (inv_stat_fill c s HI).
    - intros i [_ Hi]%Hdel'. by apply (inv_stat_proxy c s HI).
    - apply (inv_wait_fill c s HI).
    - apply (inv_wait_proxy c s HI).
    - apply (inv_fill_proxy c s HI).
    - apply (inv_queues c s HI).
    - apply (inv_record c s HI).
    - apply (inv_unique c s HI).
    - apply (inv_owner c s HI).
    - apply (inv_store c s HI).
    - intros Hc i r f [_ Hi]%Hdel. by eapply inv_stat_key.
    - apply (inv_fill_key c s HI). }
  destruct (Store.stat (fs s) file) as [stats|].
  { destruct (isDirectory stats); intros [= <-]; apply Hhit. }
  destruct (inProgress s !! file) as [q|] eqn:Hq; intros [= <-].
  - (* the response is queued *)
    set (w0 := {| w_req := req; w_res := id |}).
    assert (Hw : ∀ i, waiting (<[file := q ++ [w0]]> (inProgress s)) i →
                      waiting (inProgress s) i ∨ i = id).
    { intros i. by apply waiting_insert_snoc. }
    split; simpl.
    + intros i rf [Hne Hi]%Hdel. by eapply inv_stat_fresh.
    + intros i [Hi| ->]%Hw; [by eapply inv_wait_fresh|done].
    + apply (inv_trigger c s HI).
    + intros i [_ Hi]%Hdel'. by apply (inv_stat_bound c s HI).
    + intros i [Hi| ->]%Hw; [by apply (inv_wait_bound c s HI)|].
      by apply (inv_stat_bound c s HI).
    + apply (inv_fill_bound c s HI).
    + apply (inv_proxy_bound c s HI).
    + intros i [Hne Hi]%Hdel' [Hi'| ->]%Hw; [|done].
      by apply (inv_stat_wait c s HI i).
    + intros i [_ Hi]%Hdel'. by apply (inv_stat_fill c s HI).
    + intros i [_ Hi]%Hdel'. by apply (inv_stat_proxy c s HI).
    + intros i [Hi| ->]%Hw; [by apply (inv_wait_fill c s HI)|done].
    + intros i [Hi| ->]%Hw; [by apply (inv_wait_proxy c s HI)|done].
    + apply (inv_fill_proxy c s HI).
    + assert (Hold : ∀ f' q' j w, inProgress s !! f' = Some q' → q' !! j = Some w →
                                  w_res w ≠ id).
      { intros f' q' j w Hq' Hj Heq. apply Hnw. exists f', q', w.
        split_and!; [done| |done]. by eapply list_elem_of_lookup_2. }
      intros f1 f2 q1 q2 i j w1 w2 H1 H2 Hi Hj Heq.
      apply lookup_insert_Some in H1 as [[<- <-]|[Hne1 H1]];
        apply lookup_insert_Some in H2 as [[<- <-]|[Hne2 H2]].
      * split; [done|].
        apply lookup_app_Some in Hi as [Hi|[Hli Hi]];
          apply lookup_app_Some in Hj as [Hj|[Hlj Hj]].
        -- by destruct (inv_queues c s HI _ _ _ _ _ _ _ _ Hq Hq Hi Hj Heq).
        -- apply list_lookup_singleton_Some in Hj as [_ <-].
           by destruct (Hold _ _ _ _ Hq Hi).
        -- apply list_lookup_singleton_Some in Hi as [_ <-].
           by destruct (Hold _ _ _ _ Hq Hj).
        -- apply list_lookup_singleton_Some in Hi as [? _].
           apply list_lookup_singleton_Some in Hj as [? _]. lia.
      * apply lookup_app_Some in Hi as [Hi|[Hli Hi]].
        -- by destruct (inv_queues c s HI _ _ _ _ _ _ _ _ Hq H2 Hi Hj Heq).
        -- apply list_lookup_singleton_Some in Hi as [_ <-].
           by destruct (Hold _ _ _ _ H2 Hj).
      * apply lookup_app_Some in Hj as [Hj|[Hlj Hj]].
        -- by destruct (inv_queues c s HI _ _ _ _ _ _ _ _ H1 Hq Hi Hj Heq).
        -- apply list_lookup_singleton_Some in Hj as [_ <-].
           by destruct (Hold _ _ _ _ H1 Hi).
      * by eapply (inv_queues c s HI).
    + intros i f Hf Hfa. destruct (decide (file = f_file f)) as [->|Hne].
      * rewrite lookup_insert_eq. eauto.
      * rewrite lookup_insert_ne by done. by eapply inv_record.
    + apply (inv_unique c s HI).
    + intros f' Hf'. apply (inv_owner c s HI).
      destruct (decide (file = f')) as [<-|Hne]; [eauto|].
      by rewrite lookup_insert_ne in Hf'.
    + apply (inv_store c s HI).
    + intros Hc i r f [_ Hi]%Hdel. by eapply inv_stat_key.
    + apply (inv_fill_key c s HI).
  - (* a new fill starts *)
    set (f0 := {| f_req := req; f_file := file; f_phase := AwaitResponse |}).
    assert (Hw : ∀ i, waiting (<[file := []]> (inProgress s)) i →
                      waiting (inProgress s) i).
    { intros i. by apply waiting_insert_nil. }
    assert (Hnone : ∀ i f, fills s !! i = Some f → active f → f_file f ≠ file).
    { intros i f Hf Hfa Heq. destruct (inv_record c s HI i f Hf Hfa) as [q' Hq'].
      congruence. }
    split; simpl.
    + intros i rf [Hne Hi]%Hdel. by eapply inv_stat_fresh.
    + intros i Hi%Hw. by eapply inv_wait_fresh.
    + intros i f r [[<- <-]|[Hne Hf]]%lookup_insert_Some Hr.
      * simpl in Hr. congruence.
      * by eapply inv_trigger.
    + intros i [_ Hi]%Hdel'. by apply (inv_stat_bound c s HI).
    + intros i Hi%Hw. by apply (inv_wait_bound c s HI).
    + intros i [f [[<- <-]|[Hne Hf]]%lookup_insert_Some].
      * by apply (inv_stat_bound c s HI).
      * apply (inv_fill_bound c s HI). eauto.
    + apply (inv_proxy_bound c s HI).
    + intros i [_ Hi]%Hdel' Hi'%Hw. by apply (inv_stat_wait c s HI i).
    + intros i [Hne Hi]%Hdel'. rewrite lookup_insert_ne by done.
      by apply (inv_stat_fill c s HI).
    + intros i [_ Hi]%Hdel'. by apply (inv_stat_proxy c s HI).
    + intros i Hi%Hw. rewrite lookup_insert_ne by (by intros ->).
      by apply (inv_wait_fill c s HI).
    + intros i Hi%Hw. by apply (inv_wait_proxy c s HI).
    + intros i [f [[<- <-]|[Hne Hf]]%lookup_insert_Some]; [done|].
      apply (inv_fill_proxy c s HI). eauto.
    + intros f1 f2 q1 q2 i j w1 w2 H1 H2 Hi Hj Heq.
      apply lookup_insert_Some in H1 as [[<- <-]|[Hne1 H1]]; [done|].
      apply lookup_insert_Some in H2 as [[<- <-]|[Hne2 H2]]; [done|].
      by eapply (inv_queues c s HI).
    + intros i f [[<- <-]|[Hne Hf]]%lookup_insert_Some Hfa.
      * simpl. rewrite lookup_insert_eq. eauto.
      * rewrite lookup_insert_ne by (apply not_eq_sym; eauto).
        by eapply inv_record.
    + intros i1 i2 f1 f2 [[<- <-]|[Hne1 Hf1]]%lookup_insert_Some
        [[<- <-]|[Hne2 Hf2]]%lookup_insert_Some Ha1 Ha2 Hfile; [done|..].
      * simpl in Hfile. by destruct (Hnone _ _ Hf2 Ha2).
      * simpl in Hfile. by destruct (Hnone _ _ Hf1 Ha1).
      * by eapply (inv_unique c s HI).
    + intros f' Hf'. destruct (decide (file = f')) as [<-|Hne].
      * exists id, f0. rewrite lookup_insert_eq. done.
      * rewrite lookup_insert_ne in Hf' by done.
        destruct (inv_owner c s HI f' Hf') as (i & f & Hf & Hfa & Hff).
        exists i, f. split_and!; [|done..].
        rewrite lookup_insert_ne; [done|]. intros <-. congruence.
    + intros Hc i f [[<- <-]|[Hne Hf]]%lookup_insert_Some; [done|].
      by eapply inv_store.
    + intros Hc i r f [_ Hi]%Hdel. by eapply inv_stat_key.
    + intros Hc i f [[<- <-]|[Hne Hf]]%lookup_insert_Some; [by apply Hkey|].
      by eapply inv_fill_key.
Qed.

End HandlerInv.

(** The callbacks of a fill, and every step. *)
Section FillInv.
Context (lib : Lib) (self : Server) (c : bool).

Lemma checkIdle_frame s :
  inProgress (checkIdle s) = inProgress s ∧ fs (checkIdle s) = fs s ∧
  responses (checkIdle s) = responses s ∧ nextId (checkIdle s) = nextId s ∧
  statting (checkIdle s) = statting s ∧ proxying (checkIdle s) = proxying s ∧
  fills (checkIdle s) = fills s ∧ outgoing (checkIdle s) = outgoing s.
Proof. unfold checkIdle. by case_decide. Qed.

Lemma finish_status_frame id file code s s' :
  finish_status id file code s = Some s' → finish_frame id file s s'.
Proof.
  unfold finish_status. destruct (inProgress s !! file) as [q|] eqn:Hq; [|done].
  simpl. intros [= <-]. exists q. simpl.
  destruct (checkIdle_frame
              (set_inProgress (delete file (inProgress s)) (endAll code q s)))
    as (-> & -> & -> & -> & -> & -> & -> & ->).
  simpl. split_and!; try done.
  intros i _ Hi. by apply foldl_alter_notin.
Qed.

Lemma finish_restat_frame id file ores s s' :
  finish_restat lib id file ores s = Some s' → finish_frame id file s s'.
Proof.
  unfold finish_restat. destruct (inProgress s !! file) as [q|] eqn:Hq; [|done].
  simpl. intros [= <-]. exists q.
  destruct (Store.stat (fs s) file) as [stats|]; [destruct (isDirectory stats)|].
  all: simpl.
  all: match goal with |- context [checkIdle ?x] =>
         destruct (checkIdle_frame x) as (-> & -> & -> & -> & -> & -> & -> & ->) end.
  all: simpl; split_and!; try done; intros i _ Hi; by apply foldl_alter_notin.
Qed.

(** A call of [finish] in a state that differs from an invariant state at
    most in the response of the triggering client. *)
Lemma Inv_finish_frame s s1 s' id f :
  Inv c s → fills s !! id = Some f → active f →
  (∀ i, i ≠ id → responses s1 !! i = responses s !! i) →
  inProgress s1 = inProgress s → fills s1 = fills s → fs s1 = fs s →
  statting s1 = statting s → proxying s1 = proxying s → nextId s1 = nextId s →
  finish_frame id (f_file f) s1 s' →
  Inv c s'.
Proof.
  intros HI Hf Hfa Hres Hprog Hfills Hfs Hstat Hproxy Hnext
    (q & Hq & Hr & Hp & Hfl & Hs & Hst & Hpr & Hn & _).
  rewrite Hprog in Hq.
  eapply (Inv_finish c s s' id f q); try done; try congruence.
  intros i Hne Hi. rewrite Hr by done. by apply Hres.
Qed.

Lemma finish_frame_on_res id file g s s' :
  finish_frame id file s s' → finish_frame id file s (on_res id g s').
Proof.
  intros (q & ? & Hr & ?). exists q. split_and!; try tauto.
  intros i Hne Hi. simpl. rewrite lookup_alter_ne by done. by apply Hr.
Qed.

Lemma finish_status_Some id f code s :
  Inv c s → fills s !! id = Some f → active f →
  is_Some (finish_status id (f_file f) code s).
Proof.
  intros HI Hf Hfa. destruct (inv_record c s HI id f Hf Hfa) as [q Hq].
  unfold finish_status. rewrite Hq. simpl. eauto.
Qed.

Lemma on_res_frame id g s i :
  i ≠ id → responses (on_res id g s) !! i = responses s !! i.
Proof. intros. simpl. by rewrite lookup_alter_ne. Qed.

Lemma onResponse_Inv id ores s s' :
  Inv c s → onResponse id ores s = Some s' → Inv c s'.
Proof.
  intros HI. unfold onResponse.
  destruct (fills s !! id) as [f|] eqn:Hf; simpl; [|done].
  destruct (f_phase f) eqn:Hph; try done.
  assert (Hfa : active f) by (unfold active; congruence).
  pose proof (inv_trigger c s HI id f newResponse Hf) as Hnew.
  rewrite Hph in Hnew. specialize (Hnew eq_refl).
  destruct ((ores_statusCode ores <? 200) || (300 <=? ores_statusCode ores)).
  - match goal with |- context [finish_status id (f_file f) ?c ?s1] =>
      destruct (finish_status id (f_file f) c s1) as [s2|] eqn:Hfin end; [|done].
    simpl. intros [= <-]. apply finish_status_frame in Hfin.
    eapply (Inv_finish_frame s _ _ id f HI Hf Hfa);
      [..|by apply finish_frame_on_res]; try done.
    intros i Hne. by apply on_res_frame.
  - intros [= <-].
    eapply (Inv_advance c s _ id f (AwaitMkdirp ores) HI Hf Hfa); try done.
    + intros i Hne. simpl. by rewrite lookup_alter_ne.
    + intros r [= <-]. simpl. by rewrite lookup_alter_eq, Hnew.
Qed.

Lemma onRequestError_Inv id s s' :
  Inv c s → onRequestError id s = Some s' → Inv c s'.
Proof.
  intros HI. unfold onRequestError.
  destruct (fills s !! id) as [f|] eqn:Hf; simpl; [|done].
  destruct (f_phase f) eqn:Hph; try done.
  assert (Hfa : active f) by (unfold active; congruence).
  intros Hfin%finish_status_frame.
  eapply (Inv_finish_frame s _ _ id f HI Hf Hfa); [..|done]; try done.
  intros i Hne. by apply on_res_frame.
Qed.

Lemma onWriteError_Inv id s s' :
  Inv c s → onWriteError id s = Some s' → Inv c s'.
Proof.
  intros HI. unfold onWriteError.
  destruct (fills s !! id) as [f|] eqn:Hf; simpl; [|done].
  destruct (f_phase f) eqn:Hph; try done.
  all: assert (Hfa : active f) by (unfold active; congruence).
  all: intros Hfin%finish_status_frame.
  all: by eapply (Inv_finish_frame s s _ id f HI Hf Hfa).
Qed.

Lemma onRestat_Inv id s s' :
  Inv c s → onRestat lib id s = Some s' → Inv c s'.
Proof.
  intros HI. unfold onRestat.
  destruct (fills s !! id) as [f|] eqn:Hf; simpl; [|done].
  destruct (f_phase f) eqn:Hph; try done.
  assert (Hfa : active f) by (unfold active; congruence).
  intros Hfin%finish_restat_frame.
  by eapply (Inv_finish_frame s s _ id f HI Hf Hfa).
Qed.

Lemma mkdirs_mono l (store : gmap string node) p x :
  store !! p = Some x → Store.mkdirs l store !! p = Some x.
Proof.
  revert store. induction l as [|a l IH]; intros store Hp; simpl; [done|].
  destruct (store !! a) as [[]|] eqn:Ha; [done|by apply IH|].
  apply IH. rewrite lookup_insert_ne; [done|]. intros <-. congruence.
Qed.

Lemma onMkdirp_Inv id ok s s' :
  Inv c s → onMkdirp id ok s = Some s' → Inv c s'.
Proof.
  intros HI. unfold onMkdirp.
  destruct (fills s !! id) as [f|] eqn:Hf; simpl; [|done].
  destruct (f_phase f) eqn:Hph; try done.
  assert (Hfa : active f) by (unfold active; congruence).
  assert (∃ r, trigger_res (f_phase f) = Some r ∧ responses s !! id = Some r)
    as (r0 & Hr0 & Hnew).
  { rewrite Hph. eexists. split; [done|].
    eapply (inv_trigger c s HI id f); [done|by rewrite Hph]. }
  rewrite Hph in Hr0. injection Hr0 as <-.
  intros [= <-].
  eapply (Inv_advance c s _ id f (Opening ores) HI Hf Hfa); try done.
  - intros i Hne. simpl. by rewrite lookup_alter_ne.
  - intros r [= <-]. simpl. by rewrite lookup_alter_eq, Hnew.
  - intros p x _ _ Hp. simpl. destruct ok; [by apply mkdirs_mono|done].
Qed.

Lemma onOpen_Inv id ok now s s' :
  Inv c s → onOpen id ok now s = Some s' → Inv c s'.
Proof.
  intros HI. unfold onOpen.
  destruct (fills s !! id) as [f|] eqn:Hf; simpl; [|done].
  destruct (f_phase f) eqn:Hph; try done.
  assert (Hfa : active f) by (unfold active; congruence).
  assert (∃ r, trigger_res (f_phase f) = Some r ∧ responses s !! id = Some r)
    as (r0 & Hr0 & Hnew).
  { rewrite Hph. eexists. split; [done|].
    eapply (inv_trigger c s HI id f); [done|by rewrite Hph]. }
  rewrite Hph in Hr0. injection Hr0 as <-.
  destruct (if ok then _ else _) as [store|] eqn:Hopen.
  - intros [= <-]. destruct ok; [|done]. unfold Store.open_w in Hopen.
    case_match; [|done]. injection Hopen as <-.
    eapply (Inv_advance c s _ id f (Writing ores (payload ores)) HI Hf Hfa); try done.
    + intros r [= <-]. done.
    + simpl. exists EmptyString, now. by rewrite lookup_insert_eq.
    + intros p x Hne _ Hp. simpl. by rewrite lookup_insert_ne.
  - apply onWriteError_Inv, HI.
Qed.

Lemma onData_Inv id n now s s' :
  Inv c s → onData id n now s = Some s' → Inv c s'.
Proof.
  intros HI. unfold onData.
  destruct (fills s !! id) as [f|] eqn:Hf; simpl; [|done].
  destruct (f_phase f) eqn:Hph; try done.
  assert (Hfa : active f) by (unfold active; congruence).
  assert (∃ r, trigger_res (f_phase f) = Some r ∧ responses s !! id = Some r)
    as (r0 & Hr0 & Hnew).
  { rewrite Hph. eexists. split; [done|].
    eapply (inv_trigger c s HI id f); [done|by rewrite Hph]. }
  rewrite Hph in Hr0. injection Hr0 as <-.
  case_decide; [done|]. intros [= <-].
  eapply (Inv_advance c s _ id f (Writing ores (dropS (S n) pending)) HI Hf Hfa);
    try done.
  - intros r [= <-]. done.
  - intros Hc. pose proof (inv_store c s HI Hc id f Hf) as Hst. rewrite Hph in Hst.
    destruct Hst as (w & m & Htmp & Hw).
    simpl. exists (w +:+ takeS (S n) pending), now. split.
    + unfold Store.append. by rewrite lookup_alter_eq, Htmp.
    + by rewrite append_assoc, takeS_dropS.
  - intros p x Hne _ Hp. simpl. unfold Store.append. by rewrite lookup_alter_ne.
Qed.

Lemma onWriteFinish_Inv id s s' :
  Inv c s → onWriteFinish id s = Some s' → Inv c s'.
Proof.
  intros HI. unfold onWriteFinish.
  destruct (fills s !! id) as [f|] eqn:Hf; simpl; [|done].
  destruct (f_phase f) eqn:Hph; try done.
  assert (Hfa : active f) by (unfold active; congruence).
  assert (∃ r, trigger_res (f_phase f) = Some r ∧ responses s !! id = Some r)
    as (r0 & Hr0 & Hnew).
  { rewrite Hph. eexists. split; [done|].
    eapply (inv_trigger c s HI id f); [done|by rewrite Hph]. }
  rewrite Hph in Hr0. injection Hr0 as <-.
  case_decide as Hp; [|done]. intros [= <-]. subst pending.
  eapply (Inv_advance c s _ id f (Renaming ores) HI Hf Hfa); try done.
  - intros r [= <-]. done.
  - intros Hc. pose proof (inv_store c s HI Hc id f Hf) as Hst. rewrite Hph in Hst.
    destruct Hst as (w & m & Htmp & Hw).
    rewrite append_empty_r in Hw. subst w. simpl. eauto.
Qed.

Lemma onRename_Inv id ok s s' :
  Inv c s → onRename id ok s = Some s' → Inv c s'.
Proof.
  intros HI. unfold onRename.
  destruct (fills s !! id) as [f|] eqn:Hf; simpl; [|done].
  destruct (f_phase f) eqn:Hph; try done.
  assert (Hfa : active f) by (unfold active; congruence).
  assert (∃ r, trigger_res (f_phase f) = Some r ∧ responses s !! id = Some r)
    as (r0 & Hr0 & Hnew).
  { rewrite Hph. eexists. split; [done|].
    eapply (inv_trigger c s HI id f); [done|by rewrite Hph]. }
  rewrite Hph in Hr0. injection Hr0 as <-.
  destruct (if ok then _ else _) as [store|] eqn:Hren.
  - intros [= <-]. destruct ok; [|done]. unfold Store.rename in Hren.
    destruct (fs s !! tmp_of (f_file f)) as [[w m|]|] eqn:Htmp; try done.
    case_match; [done|]. injection Hren as <-.
    eapply (Inv_advance c s _ id f (Restat ores) HI Hf Hfa); try done.
    + intros r [= <-]. done.
    + intros Hc. pose proof (inv_store c s HI Hc id f Hf) as Hst. rewrite Hph in Hst.
      destruct Hst as (m' & Htmp'). simpl. exists m. rewrite lookup_insert_eq.
      congruence.
    + intros p x Hne1 Hne2 Hp. simpl.
      by rewrite lookup_insert_ne, lookup_delete_ne.
  - intros Hfin%finish_status_frame.
    by eapply (Inv_finish_frame s s _ id f HI Hf Hfa).
Qed.

Lemma proxy_done_Inv id g s :
  Inv c s → is_Some (proxying s !! id) →
  Inv c (set_proxying (delete id (proxying s)) (on_res id g s)).
Proof.
  intros HI Hid.
  assert (Hdel : ∀ i, is_Some (delete id (proxying s) !! i) → is_Some (proxying s !! i)).
  { intros i [x [_ ?]%lookup_delete_Some]. eauto. }
  assert (Hnone : ∀ i, proxying s !! i = None → delete id (proxying s) !! i = None).
  { intros i Hi. apply lookup_delete_None. by right. }
  split; simpl.
  - intros i rf Hi. rewrite lookup_alter_ne; [by eapply inv_stat_fresh|].
    intros Heq. subst i.
    assert (proxying s !! id = None) as Hn; [|by rewrite Hn in Hid; destruct Hid].
    apply (inv_stat_proxy c s HI). eauto.
  - intros i Hi. rewrite lookup_alter_ne; [by eapply inv_wait_fresh|].
    intros Heq. subst i.
    apply (inv_wait_proxy c s HI) in Hi. rewrite Hi in Hid. by destruct Hid.
  - intros i f r Hf Hr. rewrite lookup_alter_ne; [by eapply inv_trigger|].
    intros Heq. subst i.
    assert (proxying s !! id = None) as Hn; [|by rewrite Hn in Hid; destruct Hid].
    apply (inv_fill_proxy c s HI). eauto.
  - apply (inv_stat_bound c s HI).
  - apply (inv_wait_bound c s HI).
  - apply (inv_fill_bound c s HI).
  - intros i Hi. by apply (inv_proxy_bound c s HI), Hdel.
  - apply (inv_stat_wait c s HI).
  - apply (inv_stat_fill c s HI).
  - intros i Hi. by apply Hnone, (inv_stat_proxy c s HI).
  - apply (inv_wait_fill c s HI).
  - intros i Hi. by apply Hnone, (inv_wait_proxy c s HI).
  - intros i Hi. by apply Hnone, (inv_fill_proxy c s HI).
  - apply (inv_queues c s HI).
  - apply (inv_record c s HI).
  - apply (inv_unique c s HI).
  - apply (inv_owner c s HI).
  - apply (inv_store c s HI).
  - apply (inv_stat_key c s HI).
  - apply (inv_fill_key c s HI).
Qed.

Lemma step_Inv e s s' :
  Inv c s → step lib self e s = Some s' → Inv (c && ev_ok self e) s'.
Proof.
  intros HI. destruct e; simpl; rewrite ?andb_true_r.
  - intros [= <-]. by apply onRequest_Inv.
  - by apply onStat_Inv.
  - unfold onProxyResponse. destruct (proxying s !! id) eqn:Hp; simpl; [|done].
    intros [= <-]. apply proxy_done_Inv; eauto.
  - unfold onProxyError. destruct (proxying s !! id) eqn:Hp; simpl; [|done].
    intros [= <-]. apply proxy_done_Inv; eauto.
  - by apply onResponse_Inv.
  - by apply onRequestError_Inv.
  - by apply onMkdirp_Inv.
  - by apply onOpen_Inv.
  - by apply onData_Inv.
  - by apply onWriteError_Inv.
  - by apply onWriteFinish_Inv.
  - by apply onRename_Inv.
  - by apply onRestat_Inv.
Qed.

End FillInv.

(** Runs from [start()]. *)
Section Reachable.
Context (lib : Lib) (self : Server).

Lemma run_Inv evs c s s' :
  Inv c s → run lib self evs s = Some s' → Inv (c && proper self evs) s'.
Proof.
  revert c s. induction evs as [|e evs IH]; intros c s HI; simpl.
  - intros [= <-]. by rewrite andb_true_r.
  - destruct (step lib self e s) as [s1|] eqn:Hstep; simpl; [|done].
    intros Hrun. unfold proper. simpl. rewrite andb_assoc.
    by eapply IH, Hrun; eapply step_Inv.
Qed.

Lemma reaches_Inv store evs s :
  reaches lib self store evs s → Inv (proper self evs) s.
Proof. intros Hrun. by eapply (run_Inv evs true), Hrun; apply Inv_start. Qed.

Lemma reaches_proper_Inv store evs s :
  reaches lib self store evs s → proper self evs = true → Inv true s.
Proof. intros Hrun Hp. rewrite <- Hp. by eapply reaches_Inv. Qed.

End Reachable.

(** ** Store hits (C8, C9, C10) *)
Section StoreHit.
Context (lib : Lib) (self : Server).

Lemma stat_file (store : gmap string node) file content m :
  store !! file = Some (File content m) →
  Store.stat store file = Some (file_stats content m).
Proof. unfold Store.stat. by intros ->. Qed.

(** A store hit: the [fs.stat] callback of [_onRequest] finds a regular file
    and hands the untouched response object to [streamFile]. *)
Lemma onStat_hit store evs s id req file content m :
  reaches lib self store evs s →
  statting s !! id = Some (req, file) →
  fs s !! file = Some (File content m) →
  ∃ s', step lib self (EvStat id) s = Some s' ∧
        responses s' !! id =
          Some (streamFile lib (fs s) file (file_stats content m) req newResponse) ∧
        outgoing s' = outgoing s ∧ fs s' = fs s.
Proof.
  intros HI%reaches_Inv Hid Hfile. simpl. unfold onStat. rewrite Hid. simpl.
  rewrite (stat_file _ _ _ _ Hfile). simpl.
  eexists. split; [done|]. simpl.
  rewrite lookup_alter_eq, (inv_stat_fresh _ s HI id _ Hid). done.
Qed.

Lemma lower_last_modified : Js.toLowerCase "Last-Modified" = "last-modified".
Proof. reflexivity. Qed.

Lemma lower_content_type : Js.toLowerCase "Content-Type" = "content-type".
Proof. reflexivity. Qed.

Lemma lower_etag : Js.toLowerCase "ETag" = "etag".
Proof. reflexivity. Qed.

Lemma lower_content_length : Js.toLowerCase "Content-Length" = "content-length".
Proof. reflexivity. Qed.

Lemma streamFile_headers file stats :
  resHeaders (setHeader "ETag" (etag stats)
                (setHeader "Content-Type" (mime_lookup lib file)
                   (setHeader "Last-Modified" (toUTCString lib (stat_mtime stats))
                      newResponse))) = validators lib file stats.
Proof.
  unfold setHeader, validators.
  rewrite lower_last_modified, lower_content_type, lower_etag.
  cbn [statusCode resHeaders body ended newResponse].
  apply map_eq. intros k.
  repeat (rewrite lookup_insert; case_decide; subst; try done).
  by rewrite lookup_empty, lookup_singleton_ne.
Qed.

Lemma streamFile_new store file stats req :
  streamFile lib store file stats req newResponse =
    if decide (headers req !! "if-none-match" = Some (etag stats)) then
      {| statusCode := 304; resHeaders := validators lib file stats;
         body := EmptyString; ended := true |}
    else
      let h := with_length stats (validators lib file stats) in
      if decide (method req = "HEAD") then
        {| statusCode := 200; resHeaders := h; body := EmptyString; ended := true |}
      else
        match store !! file with
        | Some (File content _) =>
            {| statusCode := 200; resHeaders := h; body := content; ended := true |}
        | Some Dir =>
            {| statusCode := 500; resHeaders := h; body := EmptyString; ended := true |}
        | None =>
            {| statusCode := 404; resHeaders := h; body := EmptyString; ended := true |}
        end.
Proof.
  unfold streamFile. pose proof (streamFile_headers file stats) as Hh.
  set (r3 := setHeader "ETag" _ _) in *.
  assert (H3 : r3 = {| statusCode := 200; resHeaders := validators lib file stats;
                       body := EmptyString; ended := false |}).
  { by rewrite <- Hh. }
  clearbody r3. subst r3. clear Hh.
  case_decide; [done|]. cbn zeta.
  unfold setHeader at 1. rewrite lower_content_length.
  cbn [statusCode resHeaders body ended].
  case_decide; [done|].
  by destruct (store !! file) as [[content m|]|].
Qed.

End StoreHit.

Section StoreHitClaims.
Context (lib : Lib) (self : Server).


(** C9. A store hit answers with [Last-Modified], [Content-Type] and [ETag],
    and with [Content-Length] unless the 304 branch is taken; these are all
    the headers of the response, and each is computed from the name and the
    stat of the stored file. *)
Theorem C9_hit_headers store evs s id req file content m :
  reaches lib self store evs s →
  statting s !! id = Some (req, file) →
  fs s !! file = Some (File content m) →
  let size := Z.of_nat (String.length content) in
  let validators : gmap string string :=
    {[ "last-modified" := toUTCString lib m;
       "content-type" := mime_lookup lib file;
       "etag" := entity_tag size m ]} in
  ∃ s' res,
    step lib self (EvStat id) s = Some s' ∧
    responses s' !! id = Some res ∧
    resHeaders res =
      if decide (headers req !! "if-none-match" = Some (entity_tag size m))
      then validators
      else <["content-length" := Js.fmt_d size]> validators.
Proof.
  intros Hreach Hid Hfile size validators0.
  destruct (onStat_hit lib self store evs s id req file content m Hreach Hid Hfile)
    as (s' & Hstep & Hres & _).
  rewrite streamFile_new in Hres.
  eexists s', _. split_and!; [done|done|].
  subst validators0 size. unfold etag, with_length, validators, file_stats.
  cbn [stat_size stat_mtime]. clear Hres.
  case_decide; [done|]. cbn zeta. case_decide; [done|].
  by rewrite Hfile.
Qed.

(** C10. On a store hit of a HEAD request the comparison of [If-None-Match]
    comes first: a matching tag gives 304 without [Content-Length]; any other
    HEAD request gets 200 with [Content-Length] and no body. *)
Theorem C10_head_hit store evs s id req file content m :
  reaches lib self store evs s →
  statting s !! id = Some (req, file) →
  fs s !! file = Some (File content m) →
  method req = "HEAD" →
  let size := Z.of_nat (String.length content) in
  ∃ s' res,
    step lib self (EvStat id) s = Some s' ∧
    responses s' !! id = Some res ∧
    body res = EmptyString ∧ ended res = true ∧
    if decide (headers req !! "if-none-match" = Some (entity_tag size m))
    then statusCode res = 304 ∧ resHeaders res !! "content-length" = None
    else statusCode res = 200 ∧ resHeaders res !! "content-length" = Some (Js.fmt_d size).
Proof.
  intros Hreach Hid Hfile Hhead size.
  destruct (onStat_hit lib self store evs s id req file content m Hreach Hid Hfile)
    as (s' & Hstep & Hres & _).
  rewrite streamFile_new in Hres.
  eexists s', _. split; [done|]. split; [done|].
  subst size. unfold etag, with_length, validators, file_stats.
  cbn [stat_size stat_mtime]. clear Hres.
  case_decide.
  - by split_and!.
  - cbn zeta. rewrite decide_True by done. simpl. by split_and!.
Qed.

End StoreHitClaims.


Lemma C9_hit_headers_witness :
  ∃ s' res,
    step node_lib Ex.self (EvStat 1) Ex.after_header_run = Some s' ∧
    responses s' !! 1%nat = Some res ∧
    resHeaders res =
      if decide (headers (Ex.get "/header.png") !! "if-none-match"
                 = Some (entity_tag (Z.of_nat (String.length "pixels")) 1762077600002))
      then {[ "last-modified" := toUTCString node_lib 1762077600002;
              "content-type" := mime_lookup node_lib "/cache/header.png";
              "etag" := entity_tag (Z.of_nat (String.length "pixels")) 1762077600002 ]}
      else <["content-length" := Js.fmt_d (Z.of_nat (String.length "pixels"))]>
             {[ "last-modified" := toUTCString node_lib 1762077600002;
                "content-type" := mime_lookup node_lib "/cache/header.png";
                "etag" := entity_tag (Z.of_nat (String.length "pixels")) 1762077600002 ]}.
Proof.
  apply (C9_hit_headers node_lib Ex.self ∅ Ex.header_run Ex.after_header_run 1%nat
           (Ex.get "/header.png") "/cache/header.png" "pixels" 1762077600002).
  - vm_compute; reflexivity.
  - vm_compute; reflexivity.
  - vm_compute; reflexivity.
Defined.

Lemma C10_head_hit_witness :
  ∃ s' res,
    step node_lib Ex.self (EvStat 0) Ex.after_head_run = Some s' ∧
    responses s' !! 0%nat = Some res ∧
    body res = EmptyString ∧ ended res = true ∧
    statusCode res = 200 ∧ resHeaders res !! "content-length" = Some "5".
Proof.
  assert (Hreach : reaches node_lib Ex.self Ex.warm Ex.head_run Ex.after_head_run).
  { vm_compute; reflexivity. }
  assert (Hstat : statting Ex.after_head_run !! 0%nat
                  = Some (Ex.request "HEAD" "/hello.png" ∅, "/cache/hello.png")).
  { vm_compute; reflexivity. }
  assert (Hfile : fs Ex.after_head_run !! "/cache/hello.png"
                  = Some (File "hello" 1762077600000)).
  { vm_compute; reflexivity. }
  destruct (C10_head_hit node_lib Ex.self Ex.warm Ex.head_run Ex.after_head_run 0%nat
              (Ex.request "HEAD" "/hello.png" ∅) "/cache/hello.png" "hello" 1762077600000
              Hreach Hstat Hfile eq_refl)
    as (s' & res & Hstep & Hres & Hbody & Hend & Hcode).
  exists s', res. rewrite decide_False in Hcode by (vm_compute; discriminate).
  destruct Hcode as [Hcode Hlen]. by split_and!.
Defined.

(** ** The headers the proxying loops copy *)
Section HeaderFacts.

Lemma notIn_true x l : Js.notIn x l = true ↔ x ∉ l.
Proof.
  unfold Js.notIn. rewrite negb_true_iff, bool_decide_eq_false. done.
Qed.

Lemma proxyHeaders_forwarded h : proxyHeaders h = forwarded h.
Proof.
  unfold proxyHeaders, forwarded.
  apply (map_fold_weak_ind (λ r m, r = filter (λ kv, kv.1 ∉ NO_PROXY_HEADERS) m)).
  - by rewrite map_filter_empty.
  - intros k v m r Hk ->. cbv beta.
    destruct (Js.notIn k NO_PROXY_HEADERS) eqn:Hn.
    + apply notIn_true in Hn. by rewrite map_filter_insert_True.
    + rewrite map_filter_insert_False; [|by simpl; rewrite <- notIn_true, Hn].
      by rewrite delete_id.
Qed.

Lemma copyHeaders_fields h res :
  statusCode (copyHeaders h res) = statusCode res ∧
  body (copyHeaders h res) = body res ∧
  ended (copyHeaders h res) = ended res.
Proof.
  unfold copyHeaders.
  apply (map_fold_weak_ind (λ r _, statusCode r = statusCode res ∧ body r = body res
                                  ∧ ended r = ended res)); [done|].
  intros k v m r _ IH. cbv beta. by destruct (Js.notIn k NO_PROXY_HEADERS).
Qed.

Lemma copyHeaders_headers h res :
  lowercase h →
  resHeaders (copyHeaders h res) = forwarded h ∪ resHeaders res.
Proof.
  unfold copyHeaders, forwarded, lowercase. revert h.
  apply (map_fold_weak_ind
           (λ r m, (∀ k, is_Some (m !! k) → Js.toLowerCase k = k) →
                   resHeaders r = filter (λ kv, kv.1 ∉ NO_PROXY_HEADERS) m ∪ resHeaders res)).
  - intros _. by rewrite map_filter_empty, map_empty_union.
  - intros k v m r Hk IH Hlow.
    assert (Hm : ∀ k', is_Some (m !! k') → Js.toLowerCase k' = k').
    { intros k' Hk'. apply Hlow. destruct (decide (k = k')) as [->|Hne].
      - rewrite lookup_insert_eq. eauto.
      - by rewrite lookup_insert_ne. }
    specialize (IH Hm). cbv beta.
    destruct (Js.notIn k NO_PROXY_HEADERS) eqn:Hn.
    + apply notIn_true in Hn. rewrite map_filter_insert_True by done.
      unfold setHeader. simpl. rewrite IH, (Hlow k), insert_union_l; [done|].
      rewrite lookup_insert_eq. eauto.
    + rewrite map_filter_insert_False; [|by simpl; rewrite <- notIn_true, Hn].
      by rewrite delete_id.
Qed.

End HeaderFacts.

(** ** A backend status outside the 200 range (C3, C4, C5) *)
Section ErrorPath.
Context (lib : Lib) (self : Server).

Lemma queue_NoDup c s file q :
  Inv c s → inProgress s !! file = Some q → NoDup (w_res <$> q).
Proof.
  intros HI Hq. apply NoDup_alt. intros i j x Hi Hj.
  apply list_lookup_fmap_Some in Hi as (w1 & -> & Hw1).
  apply list_lookup_fmap_Some in Hj as (w2 & Heq & Hw2).
  by destruct (inv_queues _ s HI _ _ _ _ _ _ _ _ Hq Hq Hw1 Hw2 Heq).
Qed.


Lemma trigger_not_waiting c s id f file q :
  Inv c s → fills s !! id = Some f → inProgress s !! file = Some q →
  id ∉ (w_res <$> q).
Proof.
  intros HI Hf Hq Hin. apply list_elem_of_fmap in Hin as (w & -> & Hw).
  assert (fills s !! w_res w = None); [|congruence].
  apply (inv_wait_fill _ s HI). by exists file, q, w.
Qed.

(** The exact effect of [finish({statusCode: code})]. *)
Lemma finish_status_eq id file code s q :
  inProgress s !! file = Some q →
  ∃ s', finish_status id file code s = Some s' ∧
    responses s' = foldl (λ m o, alter (λ r, end_ (setStatusCode code r)) (w_res o) m)
                         (responses s) q ∧
    inProgress s' = delete file (inProgress s) ∧
    fills s' = alter (at_phase Finished) id (fills s) ∧
    fs s' = fs s ∧ statting s' = statting s ∧ proxying s' = proxying s ∧
    nextId s' = nextId s ∧ outgoing s' = outgoing s.
Proof.
  intros Hq. unfold finish_status. rewrite Hq. eexists. split; [done|].
  unfold set_phase.
  match goal with |- context [checkIdle ?x] =>
    destruct (checkIdle_frame x) as (H1 & H2 & H3 & H4 & H5 & H6 & H7 & H8) end.
  cbn [inProgress fs responses nextId statting proxying fills outgoing
       set_fills].
  rewrite H1, H2, H3, H4, H5, H6, H7, H8. done.
Qed.

(** The response callback of a fill, for a status outside [200, 300). *)
Lemma onResponse_error store evs s id f ores :
  reaches lib self store evs s →
  fills s !! id = Some f → f_phase f = AwaitResponse →
  not_2xx (ores_statusCode ores) = true →
  ∃ s' q,
    step lib self (EvResponse id ores) s = Some s' ∧
    inProgress s !! f_file f = Some q ∧
    responses s' !! id = Some (end_ (answered ores)) ∧
    (∀ o, o ∈ q →
       responses s' !! w_res o
         = Some (end_ (setStatusCode (ores_statusCode ores) newResponse))) ∧
    fs s' = fs s ∧
    inProgress s' = delete (f_file f) (inProgress s) ∧
    fills s' = <[id := at_phase Finished f]> (fills s) ∧
    outgoing s' = outgoing s.
Proof.
  intros HI%reaches_Inv Hf Hph Hcode.
  assert (Hfa : active f) by (unfold active; congruence).
  destruct (inv_record _ s HI id f Hf Hfa) as [q Hq].
  assert (Hnew : responses s !! id = Some newResponse).
  { eapply (inv_trigger _ s HI id f); [done|by rewrite Hph]. }
  pose proof (trigger_not_waiting _ s id f _ q HI Hf Hq) as Hnotin.
  simpl. unfold onResponse. rewrite Hf. simpl. rewrite Hph.
  fold (not_2xx (ores_statusCode ores)). rewrite Hcode.
  set (s1 := on_res id _ s).
  destruct (finish_status_eq id (f_file f) (ores_statusCode ores) s1 q Hq)
    as (s2 & -> & Hr & Hp & Hfl & Hfs & _ & _ & _ & Hout).
  simpl. eexists _, q. split; [done|]. split; [done|]. simpl.
  rewrite Hr, Hp, Hfl, Hfs, Hout. subst s1. simpl.
  split_and!; try done.
  - rewrite lookup_alter_eq, foldl_alter_notin by done.
    by rewrite lookup_alter_eq, Hnew.
  - intros o Ho. rewrite lookup_alter_ne.
    2:{ intros ->. apply Hnotin. by apply list_elem_of_fmap_2. }
    rewrite foldl_alter_in; [|by eapply queue_NoDup|done].
    rewrite lookup_alter_ne.
    2:{ intros ->. apply Hnotin. by apply list_elem_of_fmap_2. }
    rewrite (inv_wait_fresh _ s HI (w_res o)); [done|]. by exists (f_file f), q, o.
  - apply map_eq. intros i. destruct (decide (i = id)) as [->|Hne].
    + by rewrite lookup_alter_eq, lookup_insert_eq, Hf.
    + by rewrite lookup_alter_ne, lookup_insert_ne.
Qed.

End ErrorPath.

Section ErrorClaims.
Context (lib : Lib) (self : Server).

Lemma finished_stays c e s s' id f :
  Inv c s → step lib self e s = Some s' →
  fills s !! id = Some f → f_phase f = Finished →
  fill_event id e = false ∧ fills s' !! id = Some f.
Proof.
  intros HI Hstep Hf Hph.
  assert (Hother : ∀ i p, i ≠ id → alter (at_phase p) i (fills s) !! id = Some f).
  { intros i p Hne. by rewrite lookup_alter_ne. }
  assert (Hfin : ∀ i file code s0 s1, fills s0 = fills s → i ≠ id →
            finish_status i file code s0 = Some s1 → fills s1 !! id = Some f).
  { intros i file code s0 s1 H0 Hne (q & _ & _ & _ & -> & _)%finish_status_frame.
    rewrite H0. by apply Hother. }
  destruct e; simpl in *.
  - injection Hstep as <-. split; [done|]. unfold onRequest.
    destruct (Uri.decodeURIComponent _); [case_match|]; done.
  - split; [done|]. unfold onStat in Hstep.
    destruct (statting s !! id0) as [[req file]|] eqn:Hid; simpl in Hstep; [|done].
    assert (id0 ≠ id).
    { intros ->. assert (fills s !! id = None); [|congruence].
      apply (inv_stat_fill _ s HI). eauto. }
    destruct (Store.stat _ _) as [stats|]; [destruct (isDirectory stats)|].
    1,2: by injection Hstep as <-.
    destruct (inProgress s !! file); injection Hstep as <-; [done|]. simpl.
    by rewrite lookup_insert_ne.
  - split; [done|]. unfold onProxyResponse in Hstep.
    destruct (proxying s !! id0); simpl in Hstep; [|done]. by injection Hstep as <-.
  - split; [done|]. unfold onProxyError in Hstep.
    destruct (proxying s !! id0); simpl in Hstep; [|done]. by injection Hstep as <-.
  - unfold onResponse in Hstep. destruct (decide (id0 = id)) as [->|Hne].
    { rewrite Hf in Hstep. simpl in Hstep. by rewrite Hph in Hstep. }
    split; [by apply bool_decide_eq_false|].
    destruct (fills s !! id0) as [f0|]; simpl in Hstep; [|done].
    destruct (f_phase f0); try done. case_match.
    + match type of Hstep with context [finish_status ?i ?fl ?c ?s0] =>
        destruct (finish_status i fl c s0) as [s1|] eqn:Hfs end; [|done].
      simpl in Hstep. injection Hstep as <-. simpl.
      eapply (Hfin id0 _ _ _ s1); [|done|exact Hfs]. done.
    + injection Hstep as <-. simpl. by apply Hother.
  - unfold onRequestError in Hstep. destruct (decide (id0 = id)) as [->|Hne].
    { rewrite Hf in Hstep. simpl in Hstep. by rewrite Hph in Hstep. }
    split; [by apply bool_decide_eq_false|].
    destruct (fills s !! id0) as [f0|]; simpl in Hstep; [|done].
    destruct (f_phase f0); try done. (eapply Hfin; [| |exact Hstep]; done).
  - unfold onMkdirp in Hstep. destruct (decide (id0 = id)) as [->|Hne].
    { rewrite Hf in Hstep. simpl in Hstep. by rewrite Hph in Hstep. }
    split; [by apply bool_decide_eq_false|].
    destruct (fills s !! id0) as [f0|]; simpl in Hstep; [|done].
    destruct (f_phase f0); try done. injection Hstep as <-. simpl. by apply Hother.
  - unfold onOpen, onWriteError in Hstep. destruct (decide (id0 = id)) as [->|Hne].
    { rewrite Hf in Hstep. simpl in Hstep. by rewrite Hph in Hstep. }
    split; [by apply bool_decide_eq_false|].
    destruct (fills s !! id0) as [f0|] eqn:Hf0; simpl in Hstep; [|done].
    destruct (f_phase f0) eqn:Hp0; try done. case_match.
    + injection Hstep as <-. simpl. by apply Hother.
    + simpl in Hstep. (eapply Hfin; [| |exact Hstep]; done).
  - unfold onData in Hstep. destruct (decide (id0 = id)) as [->|Hne].
    { rewrite Hf in Hstep. simpl in Hstep. by rewrite Hph in Hstep. }
    split; [by apply bool_decide_eq_false|].
    destruct (fills s !! id0) as [f0|]; simpl in Hstep; [|done].
    destruct (f_phase f0); try done. case_decide; [done|].
    injection Hstep as <-. simpl. by apply Hother.
  - unfold onWriteError in Hstep. destruct (decide (id0 = id)) as [->|Hne].
    { rewrite Hf in Hstep. simpl in Hstep. by rewrite Hph in Hstep. }
    split; [by apply bool_decide_eq_false|].
    destruct (fills s !! id0) as [f0|]; simpl in Hstep; [|done].
    destruct (f_phase f0); try done; (eapply Hfin; [| |exact Hstep]; done).
  - unfold onWriteFinish in Hstep. destruct (decide (id0 = id)) as [->|Hne].
    { rewrite Hf in Hstep. simpl in Hstep. by rewrite Hph in Hstep. }
    split; [by apply bool_decide_eq_false|].
    destruct (fills s !! id0) as [f0|]; simpl in Hstep; [|done].
    destruct (f_phase f0); try done. case_decide; [|done].
    injection Hstep as <-. simpl. by apply Hother.
  - unfold onRename in Hstep. destruct (decide (id0 = id)) as [->|Hne].
    { rewrite Hf in Hstep. simpl in Hstep. by rewrite Hph in Hstep. }
    split; [by apply bool_decide_eq_false|].
    destruct (fills s !! id0) as [f0|]; simpl in Hstep; [|done].
    destruct (f_phase f0); try done. case_match.
    + injection Hstep as <-. simpl. by apply Hother.
    + (eapply Hfin; [| |exact Hstep]; done).
  - unfold onRestat in Hstep. destruct (decide (id0 = id)) as [->|Hne].
    { rewrite Hf in Hstep. simpl in Hstep. by rewrite Hph in Hstep. }
    split; [by apply bool_decide_eq_false|].
    destruct (fills s !! id0) as [f0|]; simpl in Hstep; [|done].
    destruct (f_phase f0); try done.
    apply finish_restat_frame in Hstep as (q & _ & _ & _ & -> & _).
    by apply Hother.
Qed.

Lemma finished_forever c evs s s' id f :
  Inv c s → run lib self evs s = Some s' →
  fills s !! id = Some f → f_phase f = Finished →
  forallb (λ e, negb (fill_event id e)) evs = true ∧ fills s' !! id = Some f.
Proof.
  revert c s. induction evs as [|e evs IH]; intros c s HI Hrun Hf Hph; simpl in *.
  - by injection Hrun as <-.
  - destruct (step lib self e s) as [s1|] eqn:Hstep; simpl in Hrun; [|done].
    destruct (finished_stays c e s s1 id f HI Hstep Hf Hph) as [-> Hf1].
    simpl. eapply (IH _ s1); try done. by eapply step_Inv.
Qed.

Lemma response_eta (r : ServerResponse) :
  r = {| statusCode := statusCode r; resHeaders := resHeaders r; body := body r;
         ended := ended r |}.
Proof. by destruct r. Qed.

Lemma answered_eq ores :
  lowercase (headers ores) →
  answered ores = {| statusCode := ores_statusCode ores;
                     resHeaders := forwarded (headers ores);
                     body := EmptyString; ended := false |}.
Proof.
  intros Hlow. unfold answered. rewrite (response_eta (copyHeaders _ _)).
  destruct (copyHeaders_fields (headers ores)
              (setStatusCode (ores_statusCode ores) newResponse)) as (-> & -> & ->).
  rewrite copyHeaders_headers by done. simpl. by rewrite map_union_empty.
Qed.

Lemma answered_fields ores :
  statusCode (answered ores) = ores_statusCode ores ∧
  body (answered ores) = EmptyString ∧ ended (answered ores) = false.
Proof. unfold answered. by destruct (copyHeaders_fields (headers ores)
         (setStatusCode (ores_statusCode ores) newResponse)) as (-> & -> & ->). Qed.

(** C3. When the backend answers a cache fill with a status outside
    [200, 300), the response callback leaves the store as it is and removes
    the record of the key; the fill is over: none of its callbacks ([mkdirp],
    the write stream, [rename]) runs afterwards, so it never opens the
    temporary file and never creates the file at the store path. *)
Theorem C3_error_status_no_store store evs s id f ores :
  reaches lib self store evs s →
  fills s !! id = Some f → f_phase f = AwaitResponse →
  not_2xx (ores_statusCode ores) = true →
  ∃ s',
    step lib self (EvResponse id ores) s = Some s' ∧
    fs s' = fs s ∧
    inProgress s' !! f_file f = None ∧
    ∀ evs' s'',
      run lib self evs' s' = Some s'' →
      forallb (λ e, negb (fill_event id e)) evs' = true.
Proof.
  intros Hreach Hf Hph Hcode.
  destruct (onResponse_error lib self store evs s id f ores Hreach Hf Hph Hcode)
    as (s' & q & Hstep & Hq & _ & _ & Hfs & Hprog & Hfills & _).
  exists s'. split_and!; [done|done|by rewrite Hprog, lookup_delete_eq|].
  intros evs' s'' Hrun.
  eapply (finished_forever _ evs' s' s'' id (at_phase Finished f)); try done.
  - eapply step_Inv; [by eapply reaches_Inv|done].
  - by rewrite Hfills, lookup_insert_eq.
Qed.

(** C4 (amended). When the backend answers a cache fill with a status outside
    [200, 300), that status is set on the response of the triggering client,
    and every waiter queued for the key is ended with the same status, with
    no header and no body. *)
Theorem C4_waiters_get_upstream_status store evs s id f ores :
  reaches lib self store evs s →
  fills s !! id = Some f → f_phase f = AwaitResponse →
  not_2xx (ores_statusCode ores) = true →
  ∃ s' q res,
    step lib self (EvResponse id ores) s = Some s' ∧
    inProgress s !! f_file f = Some q ∧
    responses s' !! id = Some res ∧
    statusCode res = ores_statusCode ores ∧ ended res = true ∧
    ∀ o, o ∈ q →
      responses s' !! w_res o
        = Some {| statusCode := ores_statusCode ores; resHeaders := ∅;
                  body := EmptyString; ended := true |}.
Proof.
  intros Hreach Hf Hph Hcode.
  destruct (onResponse_error lib self store evs s id f ores Hreach Hf Hph Hcode)
    as (s' & q & Hstep & Hq & Hres & Hwait & _).
  exists s', q, (end_ (answered ores)). split_and!; try done.
  simpl. by destruct (answered_fields ores) as (-> & _).
Qed.

(** C5 (amended). When the backend answers the fill of a cache-eligible path
    with 404, the triggering client gets status 404, the headers of the
    backend that are not excluded, and an empty body: the body of the backend
    is not piped.  Nothing is created in the store. *)
Theorem C5_not_found_passthrough store evs s id f ores :
  reaches lib self store evs s →
  fills s !! id = Some f → f_phase f = AwaitResponse →
  ores_statusCode ores = 404 → lowercase (headers ores) →
  ∃ s',
    step lib self (EvResponse id ores) s = Some s' ∧
    responses s' !! id
      = Some {| statusCode := 404; resHeaders := forwarded (headers ores);
                body := EmptyString; ended := true |} ∧
    fs s' = fs s.
Proof.
  intros Hreach Hf Hph Hcode Hlow.
  assert (Hbad : not_2xx (ores_statusCode ores) = true) by by rewrite Hcode.
  destruct (onResponse_error lib self store evs s id f ores Hreach Hf Hph Hbad)
    as (s' & q & Hstep & Hq & Hres & _ & Hfs & _).
  exists s'. split_and!; try done.
  by rewrite Hres, answered_eq, Hcode.
Qed.

End ErrorClaims.

Lemma awaiting_404_reached :
  reaches node_lib Ex.self ∅ Ex.not_found_run Ex.awaiting_404.
Proof. vm_compute; reflexivity. Qed.

Lemma C3_error_status_no_store_witness :
  ∃ s',
    step node_lib Ex.self (EvResponse 0 Ex.not_found) Ex.awaiting_404 = Some s' ∧
    fs s' = fs Ex.awaiting_404 ∧
    inProgress s' !! "/cache/statusCode/404/x.png" = None ∧
    ∀ evs' s'',
      run node_lib Ex.self evs' s' = Some s'' →
      forallb (λ e, negb (fill_event 0 e)) evs' = true.
Proof.
  apply (C3_error_status_no_store node_lib Ex.self ∅ Ex.not_found_run Ex.awaiting_404
           0%nat {| f_req := Ex.get "/statusCode/404/x.png";
                    f_file := "/cache/statusCode/404/x.png";
                    f_phase := AwaitResponse |} Ex.not_found).
  - exact awaiting_404_reached.
  - vm_compute; reflexivity.
  - reflexivity.
  - reflexivity.
Defined.

(** The claim C4 fails: the waiter queued behind a fill that the backend
    answers with 404 is ended with 404, the status of the backend, not with
    500. *)
Lemma C4_waiter_not_generic_error :
  ∃ s',
    step node_lib Ex.self (EvResponse 0 Ex.not_found) Ex.awaiting_404 = Some s' ∧
    inProgress Ex.awaiting_404 !! "/cache/statusCode/404/x.png"
      = Some [{| w_req := Ex.get "/statusCode/404/x.png"; w_res := 1 |}] ∧
    (statusCode <$> responses s' !! 1%nat) = Some (ores_statusCode Ex.not_found) ∧
    (statusCode <$> responses s' !! 1%nat) ≠ Some 500.
Proof.
  eexists. split; [vm_compute; reflexivity|].
  split; [vm_compute; reflexivity|].
  split; [vm_compute; reflexivity|].
  vm_compute. discriminate.
Qed.

Lemma C4_waiters_get_upstream_status_witness :
  ∃ s' q res,
    step node_lib Ex.self (EvResponse 0 Ex.not_found) Ex.awaiting_404 = Some s' ∧
    inProgress Ex.awaiting_404 !! "/cache/statusCode/404/x.png" = Some q ∧
    responses s' !! 0%nat = Some res ∧
    statusCode res = 404 ∧ ended res = true ∧
    ∀ o, o ∈ q →
      responses s' !! w_res o
        = Some {| statusCode := 404; resHeaders := ∅;
                  body := EmptyString; ended := true |}.
Proof.
  apply (C4_waiters_get_upstream_status node_lib Ex.self ∅ Ex.not_found_run
           Ex.awaiting_404
           0%nat {| f_req := Ex.get "/statusCode/404/x.png";
                    f_file := "/cache/statusCode/404/x.png";
                    f_phase := AwaitResponse |} Ex.not_found).
  - exact awaiting_404_reached.
  - vm_compute; reflexivity.
  - reflexivity.
  - reflexivity.
Defined.

(** The claim C5 fails: the backend answers 404 with a body, and the
    triggering client gets 404 with an empty body. *)
Lemma C5_body_not_forwarded :
  ∃ s' res,
    step node_lib Ex.self (EvResponse 0 Ex.not_found) Ex.awaiting_404 = Some s' ∧
    responses s' !! 0%nat = Some res ∧
    statusCode res = 404 ∧ ended res = true ∧
    payload Ex.not_found = "no such file" ∧
    body res = EmptyString ∧ body res ≠ payload Ex.not_found.
Proof.
  eexists _, _. split; [vm_compute; reflexivity|].
  split; [vm_compute; reflexivity|].
  by split_and!.
Qed.

Lemma C5_not_found_passthrough_witness :
  ∃ s',
    step node_lib Ex.self (EvResponse 0 Ex.not_found) Ex.awaiting_404 = Some s' ∧
    responses s' !! 0%nat
      = Some {| statusCode := 404; resHeaders := forwarded (headers Ex.not_found);
                body := EmptyString; ended := true |} ∧
    fs s' = fs Ex.awaiting_404.
Proof.
  apply (C5_not_found_passthrough node_lib Ex.self ∅ Ex.not_found_run
           Ex.awaiting_404
           0%nat {| f_req := Ex.get "/statusCode/404/x.png";
                    f_file := "/cache/statusCode/404/x.png";
                    f_phase := AwaitResponse |} Ex.not_found).
  - exact awaiting_404_reached.
  - vm_compute; reflexivity.
  - reflexivity.
  - reflexivity.
  - intros k [v Hk]. unfold Ex.not_found, Ex.response in Hk. simpl in Hk.
    apply lookup_insert_Some in Hk as [[<- _]|[_ Hk]]; [reflexivity|].
    apply lookup_singleton_Some in Hk as [<- _]. reflexivity.
Defined.

(** ** The configured list of headers not to forward (C7) *)
Section Exclusions.
Context (lib : Lib).

(** No callback reads [self.noProxyHeaders]. *)
Lemma noProxyHeaders_unread self l e s :
  step lib (with_noProxyHeaders l self) e s = step lib self e s.
Proof. by destruct e. Qed.

End Exclusions.

(** C7. The server is configured with [noProxyHeaders = ['x-secret']].  A
    proxied request still has [x-secret] copied to the backend and [date]
    dropped, and the response of the backend still has [x-secret] copied to
    the client and [server] dropped: the loops test the constant
    [NO_PROXY_HEADERS], not the configured list.  The [host] header is set to
    the authority of the backend. *)
Theorem C7_configured_exclusions_ignored :
  noProxyHeaders Ex.private_self = ["x-secret"] ∧
  ∃ s1 s2 res,
    step node_lib Ex.private_self (EvRequest Ex.post_api) (start ∅) = Some s1 ∧
    uri_headers <$> outgoing s1
      = [ {[ "accept" := "*/*"; "x-secret" := "s3cr3t"; "host" := "backend:8000" ]} ] ∧
    step node_lib Ex.private_self (EvProxyResponse 0 Ex.api_answer) s1 = Some s2 ∧
    responses s2 !! 0%nat = Some res ∧
    resHeaders res = {[ "x-secret" := "t0ken" ]}.
Proof.
  split; [reflexivity|].
  eexists _, _, _. split; [reflexivity|].
  split; [vm_compute; reflexivity|].
  split; [vm_compute; reflexivity|].
  split; vm_compute; reflexivity.
Qed.

(** ** Paths *)
Section PathFacts.

Lemma split_nonempty sep s : Js.split sep s ≠ [].
Proof. destruct s as [|c s]; simpl; [done|]. case_decide; [done|]. by case_match. Qed.

Lemma split_cons_ne sep c s :
  c ≠ sep →
  ∃ w ws, Js.split sep s = w :: ws ∧ Js.split sep (String c s) = String c w :: ws.
Proof.
  intros Hne. simpl. rewrite decide_False by done.
  destruct (Js.split sep s) as [|w ws] eqn:Hs; [by apply split_nonempty in Hs|].
  eauto.
Qed.

(** [(a + sep + b).split(sep)] *)
Lemma split_app sep a b :
  Js.split sep (a +:+ String sep b) = Js.split sep a ++ Js.split sep b.
Proof.
  induction a as [|c a IH].
  - rewrite append_nil_l. simpl. by rewrite decide_True.
  - rewrite append_cons. simpl. rewrite IH. case_decide; [done|].
    destruct (Js.split sep a) as [|w ws] eqn:Hs; [by apply split_nonempty in Hs|done].
Qed.

(** A segment without separator splits into itself. *)
Lemma split_segment sep x : sep ∉ Js.chars x → Js.split sep x = [x].
Proof.
  induction x as [|c x IH]; simpl; [done|]. intros Hx.
  apply not_elem_of_cons in Hx as [Hc Hx].
  rewrite decide_False by done. by rewrite IH.
Qed.

Lemma split_no_sep sep s x : x ∈ Js.split sep s → sep ∉ Js.chars x.
Proof.
  revert x. induction s as [|c s IH]; intros x; simpl.
  - intros ->%list_elem_of_singleton. simpl. apply not_elem_of_nil.
  - case_decide as Hc.
    + intros [->|Hx]%elem_of_cons; [simpl; apply not_elem_of_nil|by apply IH].
    + destruct (Js.split sep s) as [|w ws] eqn:Hs; [by apply split_nonempty in Hs|].
      intros [->|Hx]%elem_of_cons.
      * simpl. apply not_elem_of_cons. split; [done|]. apply IH. by left.
      * apply IH. by right.
Qed.

(** [segs.join(sep).split(sep)] gives the segments back. *)
Lemma split_join sep segs :
  segs ≠ [] → (∀ x, x ∈ segs → sep ∉ Js.chars x) →
  Js.split sep (Js.join (String sep EmptyString) segs) = segs.
Proof.
  induction segs as [|x segs IH]; [done|]. intros _ Hx.
  destruct segs as [|y segs].
  - simpl. apply split_segment, Hx. by left.
  - change (Js.join (String sep EmptyString) (x :: y :: segs))
      with (x +:+ String sep EmptyString +:+ Js.join (String sep EmptyString) (y :: segs)).
    rewrite append_cons, append_nil_l, split_app, IH; [|done|].
    + rewrite split_segment; [done|]. apply Hx. by left.
    + intros z Hz. apply Hx. by right.
Qed.

(** Without [allowAboveRoot] the stack holds clean segments only. *)
Lemma norm_step_clean res seg :
  Forall clean res → Forall clean (Path.norm_step false res seg).
Proof.
  intros Hres. unfold Path.norm_step.
  case_decide as H1; [done|]. case_decide as H2.
  - destruct res as [|top rest]; [done|]. apply Forall_cons in Hres as [Ht Hr].
    case_decide; [by apply Forall_cons|done].
  - apply Forall_cons. split; [|done]. unfold clean.
    split_and!; [intros ->; apply H1; by left|intros ->; apply H1; by right|done].
Qed.

Lemma fold_norm_clean segs res :
  Forall clean res → Forall clean (foldl (Path.norm_step false) res segs).
Proof.
  revert res. induction segs as [|x segs IH]; intros res Hres; simpl; [done|].
  by apply IH, norm_step_clean.
Qed.

Lemma norm_segs_clean segs : Forall clean (Path.norm_segs false segs).
Proof. unfold Path.norm_segs. apply Forall_reverse. by apply fold_norm_clean. Qed.

Lemma fold_norm_sub allow segs res x :
  x ∈ foldl (Path.norm_step allow) res segs → x ∈ res ∨ x ∈ segs.
Proof.
  revert res. induction segs as [|y segs IH]; intros res Hx; simpl in *; [by left|].
  apply IH in Hx as [Hx|Hx]; [|right; by right].
  unfold Path.norm_step in Hx.
  case_decide; [by left|]. case_decide as H2.
  - subst y. destruct res as [|top rest].
    + destruct allow; [|by left].
      apply list_elem_of_singleton in Hx as ->. right. by left.
    + case_decide.
      * destruct allow; [|by left].
        apply elem_of_cons in Hx as [->|Hx]; [right; by left|by left].
      * left. by right.
  - apply elem_of_cons in Hx as [->|Hx]; [right; by left|by left].
Qed.

Lemma norm_segs_sub allow segs x : x ∈ Path.norm_segs allow segs → x ∈ segs.
Proof.
  unfold Path.norm_segs. rewrite elem_of_reverse.
  intros [Hx|Hx]%fold_norm_sub; [by apply elem_of_nil in Hx|done].
Qed.

(** Segments that are clean or skipped are pushed in order. *)
Lemma fold_norm_pushes allow segs res :
  Forall (λ x, x ≠ "..") segs →
  foldl (Path.norm_step allow) res segs
    = reverse (filter (λ x, x ≠ EmptyString ∧ x ≠ ".") segs) ++ res.
Proof.
  revert res. induction segs as [|x segs IH]; intros res Hs; simpl; [done|].
  apply Forall_cons in Hs as [Hx Hs]. rewrite IH by done.
  unfold Path.norm_step. rewrite filter_cons.
  case_decide as H1.
  - rewrite decide_False; [done|]. intros [? ?]. destruct H1; done.
  - rewrite decide_False by done.
    rewrite decide_True by (split; intros ->; apply H1; auto).
    rewrite reverse_cons. by rewrite <- app_assoc.
Qed.

Lemma norm_segs_app allow a b :
  Forall (λ x, x ≠ "..") b →
  Path.norm_segs allow (a ++ b)
    = Path.norm_segs allow a ++ filter (λ x, x ≠ EmptyString ∧ x ≠ ".") b.
Proof.
  intros Hb. unfold Path.norm_segs.
  rewrite foldl_app, fold_norm_pushes by done.
  by rewrite reverse_app, reverse_involutive.
Qed.

Lemma rev_nonempty (f : string) :
  f ≠ EmptyString → ∃ c r, String.rev f = String c r.
Proof.
  destruct f as [|c f]; [done|]. intros _. rewrite rev_cons.
  destruct (String.rev f) as [|c' r]; [by exists c, EmptyString|].
  rewrite append_cons. eauto.
Qed.

Lemma prefix_char (a c : ascii) (r : string) :
  String.prefix (String a EmptyString) (String c r)
    = if ascii_dec a c then true else false.
Proof. simpl. destruct (ascii_dec a c); [by destruct r|done]. Qed.

Lemma endsWith_append_r (x f : string) :
  f ≠ EmptyString → Js.endsWith "/" (x +:+ f) = Js.endsWith "/" f.
Proof.
  intros (c & r & Hr)%rev_nonempty. unfold Js.endsWith.
  change (String.rev "/") with (String "/"%char EmptyString).
  by rewrite rev_append, Hr, append_cons, !prefix_char.
Qed.

Lemma startsWith_append_l (a x : string) :
  a ≠ EmptyString → Js.startsWith "/" (a +:+ x) = Js.startsWith "/" a.
Proof.
  destruct a as [|c a]; [done|]. intros _. rewrite append_cons.
  unfold Js.startsWith. by rewrite !prefix_char.
Qed.

Lemma join_nonempty segs :
  segs ≠ [] → Forall clean segs → Js.join "/" segs ≠ EmptyString.
Proof.
  destruct segs as [|x segs]; [done|]. intros _ [Hx _]%Forall_cons.
  destruct Hx as [Hx _]. destruct x as [|c x]; [done|].
  destruct segs; simpl; [done|]. by rewrite append_cons.
Qed.

Lemma clean_no_slash_split path x :
  x ∈ Path.segments path → Js.slash ∉ Js.chars x.
Proof. intros Hx%norm_segs_sub. by eapply split_no_sep. Qed.

Lemma split_slash_cons s :
  Js.split Js.slash ("/" +:+ s) = EmptyString :: Js.split Js.slash s.
Proof. apply (split_app Js.slash EmptyString s). Qed.

Lemma split_snoc_slash s :
  Js.split Js.slash (s +:+ "/") = Js.split Js.slash s ++ [EmptyString].
Proof. apply (split_app Js.slash s EmptyString). Qed.

(** The segments of a normalized absolute path, read back. *)
Lemma split_render segs trailing :
  Forall clean segs → (∀ x, x ∈ segs → Js.slash ∉ Js.chars x) →
  Forall (λ x, x ≠ "..") (Js.split Js.slash (Path.render true segs trailing)) ∧
  filter (λ x, x ≠ EmptyString ∧ x ≠ ".") (Js.split Js.slash (Path.render true segs trailing))
    = segs.
Proof.
  intros Hclean Hslash. unfold Path.render. cbn zeta.
  assert (Hkeep : filter (λ x, x ≠ EmptyString ∧ x ≠ ".") segs = segs).
  { clear Hslash. induction segs as [|x segs IH]; [done|].
    apply Forall_cons in Hclean as [(? & ? & ?) Hc].
    rewrite filter_cons, decide_True by done. by rewrite IH. }
  assert (Hnd : Forall (λ x, x ≠ "..") segs).
  { eapply Forall_impl; [done|]. by intros x (_ & _ & ?). }
  destruct (decide (segs = [])) as [->|Hne].
  - simpl. split; [by repeat constructor|done].
  - rewrite decide_False by by apply join_nonempty.
    assert (Hsj : Js.split Js.slash (Js.join "/" segs) = segs).
    { by apply (split_join Js.slash). }
    destruct trailing.
    + rewrite split_slash_cons, split_snoc_slash, Hsj. split.
      * apply Forall_cons. split; [done|]. apply Forall_app. split; [done|].
        by repeat constructor.
      * rewrite filter_cons, decide_False by (by intros [? ?]).
        rewrite filter_app, Hkeep. rewrite filter_cons, decide_False by (by intros [? ?]).
        by rewrite filter_nil, app_nil_r.
    + rewrite split_slash_cons, Hsj. split.
      * by apply Forall_cons.
      * by rewrite filter_cons, decide_False by (by intros [? ?]).
Qed.

Lemma normalize_nonempty d : Path.normalize d ≠ EmptyString.
Proof.
  unfold Path.normalize, Path.render. cbn zeta.
  repeat case_decide; repeat case_match; try done.
  all: try (rewrite ?append_cons; done).
  all: destruct (Js.join "/" (Path.segments d)); try done; by rewrite ?append_cons.
Qed.

(** An absolute pathname has no [..] left after normalization, and joining it
    under [root] puts its segments behind those of [root]. *)
Lemma join_under root d :
  Path.isAbsolute d = true → root ≠ EmptyString →
  (".." ∉ Path.segments d) ∧
  Path.join root (Path.normalize d)
    = Path.render (Path.isAbsolute root) (Path.segments root ++ Path.segments d)
        (Js.endsWith "/" (Path.normalize d)).
Proof.
  intros Habs Hroot.
  assert (Hd : d ≠ EmptyString) by (by intros ->).
  assert (Hclean : Forall clean (Path.segments d)).
  { unfold Path.segments. rewrite Habs. apply norm_segs_clean. }
  split.
  { intros Hin. rewrite Forall_forall in Hclean. by destruct (Hclean _ Hin) as (_ & _ & ?). }
  pose proof (normalize_nonempty d) as Hf.
  destruct (split_render (Path.segments d) (Js.endsWith "/" d) Hclean
              (clean_no_slash_split d)) as [Hnd Hfilter].
  assert (Hnorm : Path.normalize d
                  = Path.render true (Path.segments d) (Js.endsWith "/" d)).
  { unfold Path.normalize. rewrite decide_False by done. by rewrite Habs. }
  set (f := Path.normalize d) in *.
  assert (Hj : root +:+ "/" +:+ f ≠ EmptyString).
  { destruct root; [done|]. by rewrite append_cons. }
  unfold Path.join. cbn zeta.
  destruct (decide (root = EmptyString)) as [|_]; [done|].
  destruct (decide (f = EmptyString)) as [|_]; [done|].
  destruct (decide (root +:+ "/" +:+ f = EmptyString)) as [|_]; [done|].
  unfold Path.normalize.
  destruct (decide (root +:+ "/" +:+ f = EmptyString)) as [|_]; [done|].
  f_equal.
  - unfold Path.isAbsolute. by apply startsWith_append_l.
  - unfold Path.segments at 1. unfold Path.isAbsolute.
    rewrite startsWith_append_l by done.
    change ("/" +:+ f) with (String Js.slash f).
    rewrite split_app, norm_segs_app; rewrite Hnorm; [|done].
    by rewrite Hfilter.
  - rewrite <- append_assoc. by apply endsWith_append_r.
Qed.

End PathFacts.

(** ** The default pattern and the temporary names *)
Section DefaultPattern.

Lemma prefix_inv (a b : string) :
  String.prefix a b = true → ∃ r, b = a +:+ r.
Proof.
  revert b. induction a as [|c a IH]; intros b H.
  - by exists b.
  - destruct b as [|d b]; simpl in H; [done|].
    destruct (ascii_dec c d) as [->|]; [|done].
    destruct (IH b H) as [r ->]. by exists r.
Qed.

Lemma endsWith_inv (p s : string) :
  Js.endsWith p s = true → ∃ x, s = x +:+ p.
Proof.
  unfold Js.endsWith. intros [r Hr]%prefix_inv. exists (String.rev r).
  by rewrite <- (rev_involutive s), Hr, rev_append, rev_involutive.
Qed.

Lemma prefix_chain (a b s : string) :
  String.prefix a s = true → String.prefix b s = true →
  String.prefix a b = true ∨ String.prefix b a = true.
Proof.
  revert b s. induction a as [|c a IH]; intros b s Ha Hb.
  - left. by destruct b.
  - destruct b as [|d b]; [by right|].
    destruct s as [|e s]; simpl in *; [done|].
    destruct (ascii_dec c e) as [->|]; [|done].
    destruct (ascii_dec d e) as [->|]; [|done].
    destruct (ascii_dec e e); [|done]. by eapply IH.
Qed.

Lemma split_append_segment x p :
  Js.slash ∉ Js.chars p →
  ∃ init l, Js.split Js.slash x = init ++ [l] ∧
            Js.split Js.slash (x +:+ p) = init ++ [l +:+ p].
Proof.
  intros Hp. induction x as [|c x (init & l & Hx & Hxp)].
  - exists [], EmptyString. split; [done|]. by apply split_segment.
  - rewrite append_cons. simpl. rewrite Hx, Hxp. case_decide.
    + by exists (EmptyString :: init), l.
    + destruct init as [|w ws]; simpl.
      * by exists [], (String c l).
      * by exists (String c w :: ws), l.
Qed.

Lemma join_snoc segs y :
  ∃ x, Js.join "/" (segs ++ [y]) = x +:+ y.
Proof.
  induction segs as [|a segs (x & IH)]; simpl.
  - by exists EmptyString.
  - destruct (segs ++ [y]) eqn:E; [by destruct segs|].
    rewrite IH. exists (a +:+ "/" +:+ x). by rewrite !append_assoc.
Qed.

Lemma normalize_suffix p g :
  Js.slash ∉ Js.chars p → (∀ l, clean (l +:+ p)) → Js.endsWith "/" p = false →
  Js.endsWith p g = true → Js.endsWith p (Path.normalize g) = true.
Proof.
  intros Hslash Hclean Htrail [x ->]%endsWith_inv.
  assert (Hp : p ≠ EmptyString) by (destruct (Hclean EmptyString) as [? _]; done).
  assert (Hg : x +:+ p ≠ EmptyString) by (destruct (Hclean x) as [? _]; done).
  unfold Path.normalize. rewrite decide_False by done.
  rewrite endsWith_append_r, Htrail by done.
  destruct (split_append_segment x p Hslash) as (init & l & Hx & Hxp).
  unfold Path.segments. rewrite Hxp.
  destruct (Hclean l) as (Hl1 & Hl2 & Hl3).
  rewrite norm_segs_app by (by repeat constructor).
  rewrite filter_cons_True, filter_nil by done.
  destruct (join_snoc (Path.norm_segs (negb (Path.isAbsolute (x +:+ p))) init) (l +:+ p))
    as [y Hy].
  unfold Path.render. rewrite Hy.
  assert (Hne : y +:+ (l +:+ p) ≠ EmptyString).
  { rewrite <- append_assoc. destruct (Hclean (y +:+ l)) as [? _]; done. }
  rewrite decide_False by done.
  destruct (Path.isAbsolute _); rewrite <- ?append_assoc; apply endsWith_append.
Qed.

Lemma join_suffix cd p f :
  Js.slash ∉ Js.chars p → (∀ l, clean (l +:+ p)) → Js.endsWith "/" p = false →
  Js.endsWith p f = true → Js.endsWith p (Path.join cd f) = true.
Proof.
  intros Hslash Hclean Htrail Hf. unfold Path.join.
  destruct (endsWith_inv _ _ Hf) as [x ->].
  assert (Hne : ∀ y, y +:+ p ≠ EmptyString) by (intros y; by destruct (Hclean y)).
  destruct (decide (cd = EmptyString)).
  - rewrite decide_False by done. by apply normalize_suffix.
  - rewrite (decide_False (P := x +:+ p = EmptyString)) by done.
    rewrite <- !append_assoc. rewrite decide_False by done.
    apply normalize_suffix; try done. apply endsWith_append.
Qed.

Lemma clean_suffix (l : string) (a b : ascii) (r : string) :
  b ≠ "."%char → clean (l +:+ String a (String b r)).
Proof.
  intros Hb. unfold clean.
  destruct l as [|? [|? [|? ?]]]; rewrite ?append_cons, ?append_nil_l;
    split_and!; congruence.
Qed.

(** A path the default pattern matches keeps its extension under the cache
    root, so it is not a temporary name. *)
Lemma REGEX_not_tmp cd f : REGEX f = true → is_tmp (Path.join cd f) = false.
Proof.
  unfold REGEX. intros (ext & Hext & Hf)%existsb_exists.
  apply not_true_is_false. intros Htmp.
  assert (Hj : Js.endsWith ("." +:+ ext) (Path.join cd f) = true).
  { apply join_suffix; [| |by (repeat destruct Hext as [<-|Hext])|done].
    - repeat destruct Hext as [<-|Hext]; try done;
        apply (bool_decide_unpack _); vm_compute; exact I.
    - intros l. repeat destruct Hext as [<-|Hext]; try done;
        by apply clean_suffix. }
  destruct (prefix_chain _ _ _ Hj Htmp) as [H|H];
    repeat destruct Hext as [<-|Hext]; done.
Qed.

(** Under the default pattern no request is looked up under a temporary name. *)
Lemma REGEX_proper self evs : regex self = REGEX → proper self evs = true.
Proof.
  intros Hre. unfold proper. apply forallb_forall. intros [req| | | | | | | | | | | |] _; try done.
  simpl. unfold store_key. destruct (Uri.decodeURIComponent _) as [d|]; simpl; [|done].
  destruct (Js.notIn _ _ || negb _) eqn:E; [done|].
  apply orb_false_iff in E as [_ E]. apply negb_false_iff in E. rewrite Hre in E.
  apply negb_true_iff. by apply REGEX_not_tmp.
Qed.

End DefaultPattern.

(** ** Resolving the path of a request (C6) *)
Section Resolve.
Context (lib : Lib) (self : Server).

(** C6 (amended). The pathname is percent-decoded and lexically normalized.
    A pathname that cannot be decoded is answered with 400 at once: no stat
    is scheduled, no request is sent to the backend, and nothing else changes.
    Every pathname that decodes goes on, whatever its segments: the response
    is left open, and the request is either proxied or looked up under
    [path.join(cacheDir, normalize(decoded))].  For a pathname that starts
    with [/], normalization leaves no [..] segment, and the store path is
    made of the segments of the cache root followed by those of the
    pathname. *)
Theorem C6_resolve req s :
  let id := nextId s in
  let s' := onRequest lib self req s in
  match Uri.decodeURIComponent (url_pathname req) with
  | None =>
      responses s' !! id
        = Some {| statusCode := 400; resHeaders := ∅; body := EmptyString; ended := true |} ∧
      statting s' = statting s ∧ proxying s' = proxying s ∧ outgoing s' = outgoing s ∧
      inProgress s' = inProgress s ∧ fills s' = fills s ∧ fs s' = fs s
  | Some decoded =>
      responses s' !! id = Some newResponse ∧
      match store_key self req with
      | Some file =>
          file = Path.join (cacheDir self) (Path.normalize decoded) ∧
          statting s' = <[id := (req, file)]> (statting s) ∧
          proxying s' = proxying s ∧ outgoing s' = outgoing s
      | None =>
          statting s' = statting s ∧
          proxying s' = <[id := req]> (proxying s) ∧
          length (outgoing s') = S (length (outgoing s))
      end ∧
      (Path.isAbsolute decoded = true → cacheDir self ≠ EmptyString →
       (".." ∉ Path.segments decoded) ∧
       Path.join (cacheDir self) (Path.normalize decoded)
         = Path.render (Path.isAbsolute (cacheDir self))
             (Path.segments (cacheDir self) ++ Path.segments decoded)
             (Js.endsWith "/" (Path.normalize decoded)))
  end.
Proof.
  intros id s'. subst id s'. unfold onRequest, store_key.
  destruct (Uri.decodeURIComponent (url_pathname req)) as [decoded|]; simpl.
  - destruct (Js.notIn (method req) (cacheMethods self)
              || negb (regex self (Path.normalize decoded))); simpl.
    + rewrite lookup_insert_eq. split_and!; [done..| |apply join_under].
      by rewrite length_app, Nat.add_1_r.
    + rewrite lookup_insert_eq. split_and!; [done..|apply join_under].
  - by rewrite lookup_alter_eq, lookup_insert_eq.
Qed.

End Resolve.

(** The claim C6 fails: a pathname that decodes to [/../../etc/passwd.png]
    tries to leave the cache root, and it is not answered with 400: the
    response stays open and the request is looked up in the store, under
    [/cache/etc/passwd.png]. *)
Lemma C6_traversal_not_rejected :
  Uri.decodeURIComponent (url_pathname Ex.traversal) = Some "/../../etc/passwd.png" ∧
  escapes "/../../etc/passwd.png" = true ∧
  let s' := onRequest node_lib Ex.self Ex.traversal (start ∅) in
  responses s' !! 0%nat
    = Some {| statusCode := 200; resHeaders := ∅; body := EmptyString; ended := false |} ∧
  statting s' !! 0%nat = Some (Ex.traversal, "/cache/etc/passwd.png").
Proof.
  split; [vm_compute; reflexivity|]. split; [vm_compute; reflexivity|].
  cbv zeta. split; vm_compute; reflexivity.
Qed.

Lemma C6_resolve_witness :
  (".." ∉ Path.segments "/../../etc/passwd.png") ∧
  Path.join "/cache" (Path.normalize "/../../etc/passwd.png")
    = Path.render true (["cache"] ++ ["etc"; "passwd.png"]) false.
Proof.
  pose proof (C6_resolve node_lib Ex.self Ex.traversal (start ∅)) as H.
  cbv zeta in H.
  assert (Hd : Uri.decodeURIComponent (url_pathname Ex.traversal)
               = Some "/../../etc/passwd.png") by (vm_compute; reflexivity).
  rewrite Hd in H. destruct H as (_ & _ & H).
  apply H; [reflexivity|discriminate].
Defined.

(** ** Publishing a fill (C2) *)
Section Publish.
Context (lib : Lib) (self : Server).

Lemma Accepted_alter s s' id f p' :
  Accepted s → fills s !! id = Some f →
  fills s' = alter (at_phase p') id (fills s) →
  (∀ o, phase_ores p' = Some o →
        phase_ores (f_phase f) = Some o ∨ not_2xx (ores_statusCode o) = false) →
  Accepted s'.
Proof.
  intros HA Hf Hfills Hp i g o Hg Ho. rewrite Hfills in Hg.
  destruct (decide (i = id)) as [->|Hne].
  - rewrite lookup_alter_eq, Hf in Hg. injection Hg as <-. simpl in Ho.
    destruct (Hp o Ho) as [Hold|?]; [|done]. by eapply HA.
  - rewrite lookup_alter_ne in Hg by done. by eapply HA.
Qed.

Lemma Accepted_finish s s' id file :
  Accepted s → finish_frame id file s s' → Accepted s'.
Proof.
  intros HA (q & _ & _ & _ & Hfills & _) i g o Hg Ho. rewrite Hfills in Hg.
  destruct (decide (i = id)) as [->|Hne].
  - rewrite lookup_alter_eq in Hg. destruct (fills s !! id); [|done].
    simpl in Hg. by injection Hg as <-.
  - rewrite lookup_alter_ne in Hg by done. by eapply HA.
Qed.

Lemma Accepted_same s s' : Accepted s → fills s' = fills s → Accepted s'.
Proof. intros HA Hfills i g o. rewrite Hfills. apply HA. Qed.

Lemma step_Accepted e s s' :
  Accepted s → step lib self e s = Some s' → Accepted s'.
Proof.
  intros HA. destruct e; simpl.
  - intros [= <-]. apply (Accepted_same s); [done|]. unfold onRequest.
    destruct (Uri.decodeURIComponent _); [case_match|]; done.
  - unfold onStat. destruct (statting s !! id) as [[req file]|]; simpl; [|done].
    destruct (Store.stat _ _) as [stats|]; [destruct (isDirectory stats)|].
    1,2: intros [= <-]; by apply (Accepted_same s).
    destruct (inProgress s !! file); intros [= <-]; [by apply (Accepted_same s)|].
    intros i g o. simpl. intros [[<- <-]|[_ Hg]]%lookup_insert_Some; [done|].
    by eapply HA.
  - unfold onProxyResponse. destruct (proxying s !! id); simpl; [|done].
    intros [= <-]. by apply (Accepted_same s).
  - unfold onProxyError. destruct (proxying s !! id); simpl; [|done].
    intros [= <-]. by apply (Accepted_same s).
  - unfold onResponse. destruct (fills s !! id) as [f|] eqn:Hf; simpl; [|done].
    destruct (f_phase f) eqn:Hph; try done.
    fold (not_2xx (ores_statusCode ores)).
    destruct (not_2xx (ores_statusCode ores)) eqn:Hcode.
    + match goal with |- context [finish_status id (f_file f) ?c ?s1] =>
        destruct (finish_status id (f_file f) c s1) as [s2|] eqn:Hfin end; [|done].
      simpl. intros [= <-]. apply finish_status_frame in Hfin.
      apply (Accepted_same s2); [|done].
      eapply Accepted_finish; [|done]. by apply (Accepted_same s).
    + intros [= <-]. eapply (Accepted_alter s _ id f); [done..|].
      intros o [= <-]. by right.
  - unfold onRequestError. destruct (fills s !! id) as [f|] eqn:Hf; simpl; [|done].
    destruct (f_phase f) eqn:Hph; try done.
    intros Hfin%finish_status_frame. eapply Accepted_finish; [|done].
    by apply (Accepted_same s).
  - unfold onMkdirp. destruct (fills s !! id) as [f|] eqn:Hf; simpl; [|done].
    destruct (f_phase f) eqn:Hph; try done. intros [= <-].
    eapply (Accepted_alter s _ id f); [done..|]. rewrite Hph. by left.
  - unfold onOpen, onWriteError.
    destruct (fills s !! id) as [f|] eqn:Hf; simpl; [|done].
    destruct (f_phase f) eqn:Hph; try done. case_match.
    + intros [= <-]. eapply (Accepted_alter s _ id f); [done..|]. rewrite Hph. by left.
    + intros Hfin%finish_status_frame. by eapply Accepted_finish.
  - unfold onData. destruct (fills s !! id) as [f|] eqn:Hf; simpl; [|done].
    destruct (f_phase f) eqn:Hph; try done. case_decide; [done|]. intros [= <-].
    eapply (Accepted_alter s _ id f); [done..|]. rewrite Hph. by left.
  - unfold onWriteError. destruct (fills s !! id) as [f|] eqn:Hf; simpl; [|done].
    destruct (f_phase f) eqn:Hph; try done;
      intros Hfin%finish_status_frame; by eapply Accepted_finish.
  - unfold onWriteFinish. destruct (fills s !! id) as [f|] eqn:Hf; simpl; [|done].
    destruct (f_phase f) eqn:Hph; try done. case_decide; [|done]. intros [= <-].
    eapply (Accepted_alter s _ id f); [done..|]. rewrite Hph. by left.
  - unfold onRename. destruct (fills s !! id) as [f|] eqn:Hf; simpl; [|done].
    destruct (f_phase f) eqn:Hph; try done. case_match.
    + intros [= <-]. eapply (Accepted_alter s _ id f); [done..|]. rewrite Hph. by left.
    + intros Hfin%finish_status_frame. by eapply Accepted_finish.
  - unfold onRestat. destruct (fills s !! id) as [f|] eqn:Hf; simpl; [|done].
    destruct (f_phase f) eqn:Hph; try done.
    intros Hfin%finish_restat_frame. by eapply Accepted_finish.
Qed.

Lemma run_Accepted evs s s' :
  Accepted s → run lib self evs s = Some s' → Accepted s'.
Proof.
  revert s. induction evs as [|e evs IH]; intros s HA; simpl.
  - by intros [= <-].
  - destruct (step lib self e s) as [s1|] eqn:Hstep; simpl; [|done].
    apply IH. by eapply step_Accepted.
Qed.

Lemma reaches_Accepted store evs s : reaches lib self store evs s → Accepted s.
Proof.
  intros Hrun. eapply run_Accepted; [|done].
  intros i g o Hg. simpl in Hg. by rewrite lookup_empty in Hg.
Qed.

Lemma mkdirs_changes l (store : gmap string node) p :
  Store.mkdirs l store !! p ≠ store !! p →
  store !! p = None ∧ Store.mkdirs l store !! p = Some Dir.
Proof.
  revert store. induction l as [|a l IH]; intros store Hp; simpl in *; [done|].
  destruct (store !! a) as [[]|] eqn:Ha; [done|by apply IH|].
  destruct (decide (a = p)) as [->|Hne].
  - split; [done|]. apply mkdirs_mono. by rewrite lookup_insert_eq.
  - destruct (IH (<[a:=Dir]> store)) as [H1 H2].
    + by rewrite lookup_insert_ne.
    + by rewrite lookup_insert_ne in H1.
Qed.

Lemma finish_status_fs id file code s s' :
  finish_status id file code s = Some s' → fs s' = fs s.
Proof. by intros (q & _ & _ & _ & _ & -> & _)%finish_status_frame. Qed.

(** C2 (amended). In a run in which no request is looked up under a name
    that ends in [.in-progress] (no run does under the default pattern, see
    [REGEX_proper]), every change a callback makes to the store is of one of
    three kinds:
    - a directory appears where nothing was ([mkdirp]);
    - the path is [file + '.in-progress'] for the fill of [file] whose
      callback runs: its write stream opens, appends to or, by the rename,
      gives up the temporary file;
    - the path is the store path [file] of a fill whose write stream has
      finished: the callback is its [fs.rename], the backend had answered
      in the 200 range, the temporary file held everything the backend
      delivered, and that content is what appears at [file].
    Partial data is only ever written under the [.in-progress] name, and
    what appears at a store path is complete. *)
Theorem C2_publish store evs s e s' p :
  reaches lib self store evs s → proper self evs = true →
  step lib self e s = Some s' →
  fs s' !! p ≠ fs s !! p →
  (fs s !! p = None ∧ fs s' !! p = Some Dir)
  ∨ (∃ id f, fills s !! id = Some f ∧ fill_event id e = true ∧
             p = tmp_of (f_file f) ∧ is_tmp p = true)
  ∨ (∃ id f ores m,
       e = EvRename id true ∧ fills s !! id = Some f ∧ f_phase f = Renaming ores ∧
       p = f_file f ∧ is_tmp p = false ∧
       not_2xx (ores_statusCode ores) = false ∧
       fs s !! tmp_of p = Some (File (payload ores) m) ∧
       fs s' !! p = Some (File (payload ores) m)).
Proof.
  intros Hreach Hc Hstep Hp.
  pose proof (reaches_proper_Inv lib self store evs s Hreach Hc) as HI.
  pose proof (reaches_Accepted store evs s Hreach) as HA.
  destruct e; simpl in Hstep.
  - injection Hstep as <-. exfalso. apply Hp. unfold onRequest.
    destruct (Uri.decodeURIComponent _); [case_match|]; done.
  - exfalso. apply Hp. unfold onStat in Hstep.
    destruct (statting s !! id) as [[req file]|]; simpl in Hstep; [|done].
    destruct (Store.stat _ _) as [stats|]; [destruct (isDirectory stats)|].
    1,2: by injection Hstep as <-.
    by destruct (inProgress s !! file); injection Hstep as <-.
  - exfalso. apply Hp. unfold onProxyResponse in Hstep.
    destruct (proxying s !! id); simpl in Hstep; [|done]. by injection Hstep as <-.
  - exfalso. apply Hp. unfold onProxyError in Hstep.
    destruct (proxying s !! id); simpl in Hstep; [|done]. by injection Hstep as <-.
  - exfalso. apply Hp. unfold onResponse in Hstep.
    destruct (fills s !! id) as [f|] eqn:Hf; simpl in Hstep; [|done].
    destruct (f_phase f) eqn:Hph; try done. case_match.
    + match type of Hstep with context [finish_status id (f_file f) ?c ?s1] =>
        destruct (finish_status id (f_file f) c s1) as [s2|] eqn:Hfin end; [|done].
      simpl in Hstep. injection Hstep as <-. simpl.
      by rewrite (finish_status_fs _ _ _ _ _ Hfin).
    + by injection Hstep as <-.
  - exfalso. apply Hp. unfold onRequestError in Hstep.
    destruct (fills s !! id) as [f|] eqn:Hf; simpl in Hstep; [|done].
    destruct (f_phase f) eqn:Hph; try done.
    by rewrite (finish_status_fs _ _ _ _ _ Hstep).
  - left. unfold onMkdirp in Hstep.
    destruct (fills s !! id) as [f|] eqn:Hf; simpl in Hstep; [|done].
    destruct (f_phase f) eqn:Hph; try done. injection Hstep as <-.
    simpl in *. destruct ok; [by apply mkdirs_changes|done].
  - unfold onOpen, onWriteError in Hstep.
    destruct (fills s !! id) as [f|] eqn:Hf; simpl in Hstep; [|done].
    destruct (f_phase f) eqn:Hph; try done.
    destruct (if ok then _ else _) as [store'|] eqn:Hopen.
    + injection Hstep as <-. destruct ok; [|done]. unfold Store.open_w in Hopen.
      case_match; [|done]. injection Hopen as <-. simpl in Hp.
      right. left. exists id, f. destruct (decide (p = tmp_of (f_file f))) as [->|Hne].
      * split_and!; [done|by apply bool_decide_eq_true|done|apply is_tmp_tmp_of].
      * by rewrite lookup_insert_ne in Hp.
    + exfalso. apply Hp. by rewrite (finish_status_fs _ _ _ _ _ Hstep).
  - unfold onData in Hstep.
    destruct (fills s !! id) as [f|] eqn:Hf; simpl in Hstep; [|done].
    destruct (f_phase f) eqn:Hph; try done. case_decide; [done|].
    injection Hstep as <-. simpl in Hp. unfold Store.append in Hp.
    right. left. exists id, f. destruct (decide (p = tmp_of (f_file f))) as [->|Hne].
    + split_and!; [done|by apply bool_decide_eq_true|done|apply is_tmp_tmp_of].
    + by rewrite lookup_alter_ne in Hp.
  - exfalso. apply Hp. unfold onWriteError in Hstep.
    destruct (fills s !! id) as [f|] eqn:Hf; simpl in Hstep; [|done].
    destruct (f_phase f) eqn:Hph; try done;
      by rewrite (finish_status_fs _ _ _ _ _ Hstep).
  - exfalso. apply Hp. unfold onWriteFinish in Hstep.
    destruct (fills s !! id) as [f|] eqn:Hf; simpl in Hstep; [|done].
    destruct (f_phase f) eqn:Hph; try done. case_decide; [|done].
    by injection Hstep as <-.
  - unfold onRename in Hstep.
    destruct (fills s !! id) as [f|] eqn:Hf; simpl in Hstep; [|done].
    destruct (f_phase f) eqn:Hph; try done.
    pose proof (inv_store _ s HI eq_refl id f Hf) as Hst. rewrite Hph in Hst.
    destruct Hst as (m & Htmp).
    destruct (if ok then _ else _) as [store'|] eqn:Hren.
    + injection Hstep as <-. destruct ok; [|done]. unfold Store.rename in Hren.
      rewrite Htmp in Hren. case_match; [done|]. injection Hren as <-. simpl in Hp.
      right. destruct (decide (p = f_file f)) as [->|Hne1].
      * right. exists id, f, ores, m. simpl.
        split_and!; try done.
        -- by apply (inv_fill_key _ s HI eq_refl id f).
        -- apply (HA id f ores Hf). by rewrite Hph.
        -- by rewrite lookup_insert_eq.
      * left. exists id, f. destruct (decide (p = tmp_of (f_file f))) as [->|Hne2].
        -- split_and!; [done|by apply bool_decide_eq_true|done|apply is_tmp_tmp_of].
        -- by rewrite lookup_insert_ne, lookup_delete_ne in Hp.
    + exfalso. apply Hp. by rewrite (finish_status_fs _ _ _ _ _ Hstep).
  - exfalso. apply Hp. unfold onRestat in Hstep.
    destruct (fills s !! id) as [f|] eqn:Hf; simpl in Hstep; [|done].
    destruct (f_phase f) eqn:Hph; try done.
    by apply finish_restat_frame in Hstep as (q & _ & _ & _ & _ & -> & _).
Qed.

End Publish.

Lemma before_rename_reached :
  reaches node_lib Ex.self ∅ (Ex.two_get ++ Ex.written) Ex.before_rename.
Proof. vm_compute; reflexivity. Qed.

Lemma C2_publish_witness :
  ∃ s',
    step node_lib Ex.self (EvRename 0 true) Ex.before_rename = Some s' ∧
    fs Ex.before_rename !! "/cache/simultaneous.png" = None ∧
    fs Ex.before_rename !! "/cache/simultaneous.png.in-progress"
      = Some (File "pixels" 1762077600002) ∧
    fs s' !! "/cache/simultaneous.png" = Some (File "pixels" 1762077600002).
Proof.
  eexists. split; [vm_compute; reflexivity|].
  split; [vm_compute; reflexivity|].
  match goal with |- context [fs ?s' !! "/cache/simultaneous.png" = _] =>
    destruct (C2_publish node_lib Ex.self ∅ _ Ex.before_rename (EvRename 0 true) s'
                "/cache/simultaneous.png" before_rename_reached eq_refl)
      as [[_ Hdir]|[(id & f & _ & _ & Htmp & _)|(id & f & ores & m & He & Hf & Hph & _ & _ & _ & H1 & H2)]]
  end.
  - vm_compute; reflexivity.
  - vm_compute. discriminate.
  - vm_compute in Hdir. discriminate.
  - exfalso. apply (f_equal is_tmp) in Htmp. rewrite is_tmp_tmp_of in Htmp.
    vm_compute in Htmp. discriminate.
  - injection He as <-.
    assert (Hf0 : fills Ex.before_rename !! 0%nat
                  = Some {| f_req := Ex.get "/simultaneous.png";
                            f_file := "/cache/simultaneous.png";
                            f_phase := Renaming Ex.pixels |}) by (vm_compute; reflexivity).
    rewrite Hf0 in Hf. injection Hf as <-. simpl in Hph. injection Hph as <-.
    assert (Hm : fs Ex.before_rename !! tmp_of "/cache/simultaneous.png"
                 = Some (File "pixels" 1762077600002)) by (vm_compute; reflexivity).
    rewrite Hm in H1. injection H1 as <-. split; [exact Hm|exact H2].
Defined.

(** The claim C2 fails when the configured pattern lets a request through
    whose store path is the temporary name of a fill in progress: the
    [fs.stat] callback of that request finds the partial file and
    [streamFile] serves it as a hit. *)
Lemma C2_partial_file_served :
  ∃ s res,
    reaches node_lib Ex.loose_self ∅ Ex.collision_run s ∧
    (f_phase <$> fills s !! 0%nat) = Some (Writing Ex.pixels "els") ∧
    store_key Ex.loose_self (Ex.get "/x.png.in-progress")
      = Some "/cache/x.png.in-progress" ∧
    fs s !! "/cache/x.png.in-progress" = Some (File "pix" 1762077600001) ∧
    responses s !! 1%nat = Some res ∧
    statusCode res = 200 ∧ body res = "pix" ∧ ended res = true.
Proof.
  eexists _, _. split; [vm_compute; reflexivity|].
  split_and!; vm_compute; reflexivity.
Qed.

(** ** One request to the backend per key (C1) *)
Section Coalescing.
Context (lib : Lib) (self : Server).



(** Requests to the backend are sent by [_onRequest] for a request that is not
    eligible for the cache, and by its [fs.stat] callback on a miss for a key
    that has no record; no other callback sends one. *)
Lemma step_outgoing e s s' :
  step lib self e s = Some s' →
  outgoing s' = outgoing s
  ∨ (∃ req, e = EvRequest req ∧ store_key self req = None ∧
            length (outgoing s') = S (length (outgoing s)))
  ∨ (∃ id req file,
       e = EvStat id ∧ statting s !! id = Some (req, file) ∧
       fs s !! file = None ∧ inProgress s !! file = None ∧
       inProgress s' !! file = Some [] ∧
       uri_method <$> outgoing s' = (uri_method <$> outgoing s) ++ [method req] ∧
       uri_href <$> outgoing s' = (uri_href <$> outgoing s) ++ [backendUrl self +:+ url_path req]).
Proof.
  destruct e; simpl; intros Hstep.
  - injection Hstep as <-. unfold onRequest, store_key.
    destruct (Uri.decodeURIComponent _) as [decoded|] eqn:Hd; [|by left].
    destruct (Js.notIn (method req) (cacheMethods self)
              || negb (regex self (Path.normalize decoded))) eqn:Hb; [|by left].
    right. left. exists req. rewrite Hd. simpl. rewrite Hb.
    split_and!; [done..|]. by rewrite length_app, Nat.add_1_r.
  - unfold onStat in Hstep.
    destruct (statting s !! id) as [[req file]|] eqn:Hid; simpl in Hstep; [|done].
    destruct (Store.stat _ _) as [stats|] eqn:Hstat; [destruct (isDirectory stats)|].
    1,2: injection Hstep as <-; by left.
    destruct (inProgress s !! file) eqn:Hq; injection Hstep as <-; [by left|].
    right. right. exists id, req, file. simpl. split_and!; try done.
    + unfold Store.stat in Hstat. by destruct (fs s !! file) as [[]|].
    + by rewrite lookup_insert_eq.
    + by rewrite fmap_app.
    + by rewrite fmap_app.
  - left. unfold onProxyResponse in Hstep.
    destruct (proxying s !! id); simpl in Hstep; [|done]. by injection Hstep as <-.
  - left. unfold onProxyError in Hstep.
    destruct (proxying s !! id); simpl in Hstep; [|done]. by injection Hstep as <-.
  - left. unfold onResponse in Hstep.
    destruct (fills s !! id) as [f|]; simpl in Hstep; [|done].
    destruct (f_phase f); try done. case_match.
    + match type of Hstep with context [finish_status id (f_file f) ?c ?s1] =>
        destruct (finish_status id (f_file f) c s1) as [s2|] eqn:Hfin end; [|done].
      simpl in Hstep. injection Hstep as <-.
      apply finish_status_frame in Hfin as (q & _ & _ & _ & _ & _ & _ & _ & _ & Hout).
      simpl. by rewrite Hout.
    + by injection Hstep as <-.
  - left. unfold onRequestError in Hstep.
    destruct (fills s !! id) as [f|]; simpl in Hstep; [|done].
    destruct (f_phase f); try done.
    by apply finish_status_frame in Hstep as (q & _ & _ & _ & _ & _ & _ & _ & _ & ->).
  - left. unfold onMkdirp in Hstep.
    destruct (fills s !! id) as [f|]; simpl in Hstep; [|done].
    destruct (f_phase f); try done. by injection Hstep as <-.
  - left. unfold onOpen, onWriteError in Hstep.
    destruct (fills s !! id) as [f|]; simpl in Hstep; [|done].
    destruct (f_phase f); try done. case_match.
    + by injection Hstep as <-.
    + by apply finish_status_frame in Hstep as (q & _ & _ & _ & _ & _ & _ & _ & _ & ->).
  - left. unfold onData in Hstep.
    destruct (fills s !! id) as [f|]; simpl in Hstep; [|done].
    destruct (f_phase f); try done. case_decide; [done|]. by injection Hstep as <-.
  - left. unfold onWriteError in Hstep.
    destruct (fills s !! id) as [f|]; simpl in Hstep; [|done].
    destruct (f_phase f); try done;
      by apply finish_status_frame in Hstep as (q & _ & _ & _ & _ & _ & _ & _ & _ & ->).
  - left. unfold onWriteFinish in Hstep.
    destruct (fills s !! id) as [f|]; simpl in Hstep; [|done].
    destruct (f_phase f); try done. case_decide; [|done]. by injection Hstep as <-.
  - left. unfold onRename in Hstep.
    destruct (fills s !! id) as [f|]; simpl in Hstep; [|done].
    destruct (f_phase f); try done. case_match.
    + by injection Hstep as <-.
    + by apply finish_status_frame in Hstep as (q & _ & _ & _ & _ & _ & _ & _ & _ & ->).
  - left. unfold onRestat in Hstep.
    destruct (fills s !! id) as [f|]; simpl in Hstep; [|done].
    destruct (f_phase f); try done.
    by apply finish_restat_frame in Hstep as (q & _ & _ & _ & _ & _ & _ & _ & _ & ->).
Qed.



End Coalescing.





(** * Further properties

    What the callbacks do to the responses, to the registry, to the store
    and to the backend in every run, and how [onIdle], [main], [start] and
    [stop] behave. *)

(** ** Every response is ended, and none is written to afterwards *)
Section ServedFacts.
Context (lib : Lib) (self : Server).

Lemma pipe_ended data r : ended (pipe data r) = true.
Proof. unfold pipe. by destruct (ended r) eqn:E. Qed.

Lemma streamFile_ended store file stats req r :
  ended (streamFile lib store file stats req r) = true.
Proof.
  unfold streamFile. case_decide; [done|]. case_decide; [done|].
  destruct (store !! file) as [[content m|]|]; [apply pipe_ended|done..].
Qed.

Lemma foldl_alter_ended (g : waiter → ServerResponse → ServerResponse) q
    (m : gmap nat ServerResponse) i :
  (∀ o r, ended (g o r) = true) →
  i ∈ (w_res <$> q) → is_Some (m !! i) →
  ∃ r, foldl (λ m o, alter (g o) (w_res o) m) m q !! i = Some r ∧ ended r = true.
Proof.
  intros Hg. revert m. induction q as [|o q IH]; intros m Hi Hm.
  { by apply elem_of_nil in Hi. }
  simpl. destruct (decide (i ∈ (w_res <$> q))) as [Hin|Hout].
  - apply IH; [done|]. destruct (decide (w_res o = i)) as [<-|Hne].
    + rewrite lookup_alter_eq. by rewrite fmap_is_Some.
    + by rewrite lookup_alter_ne.
  - rewrite fmap_cons in Hi. apply elem_of_cons in Hi as [->|Hi]; [|done].
    rewrite foldl_alter_notin by done. rewrite lookup_alter_eq.
    destruct Hm as [r ->]. simpl. eauto.
Qed.

(** The loops of [finish] end the response of every element of the queue. *)
Lemma finish_status_responses id file code s s' q :
  inProgress s !! file = Some q →
  finish_status id file code s = Some s' →
  ∃ g, (∀ o r, ended (g o r) = true) ∧
       responses s' = foldl (λ m o, alter (g o) (w_res o) m) (responses s) q.
Proof.
  intros Hq Hfin.
  destruct (finish_status_eq id file code s q Hq) as (s2 & Hs2 & Hr & _).
  rewrite Hfin in Hs2. injection Hs2 as <-.
  by exists (λ _ r, end_ (setStatusCode code r)).
Qed.

Lemma finish_restat_responses id file ores s s' q :
  inProgress s !! file = Some q →
  finish_restat lib id file ores s = Some s' →
  ∃ g, (∀ o r, ended (g o r) = true) ∧
       responses s' = foldl (λ m o, alter (g o) (w_res o) m) (responses s) q.
Proof.
  intros Hq. unfold finish_restat. rewrite Hq. simpl. intros [= <-].
  destruct (Store.stat (fs s) file) as [stats|]; [destruct (isDirectory stats)|].
  all: unfold set_phase.
  all: match goal with |- context [checkIdle ?x] =>
         destruct (checkIdle_frame x) as (_ & _ & H3 & _) end.
  all: cbn [responses set_fills]; rewrite H3; cbn [responses set_inProgress].
  - by exists (λ _ r, end_ (setStatusCode 400 r)).
  - eexists (λ o r, streamFile lib (fs s) file stats (w_req o) _). split; [|done].
    intros o r. apply streamFile_ended.
  - by exists (λ _ r, end_ (setStatusCode 500 r)).
Qed.

Lemma open_trigger c s id f :
  Inv c s → fills s !! id = Some f → open_phase (f_phase f) = true →
  ∃ r, responses s !! id = Some r ∧ ended r = false.
Proof.
  intros HI Hf Hopen. destruct (f_phase f) as [|ores| | | | |] eqn:Hph; try done.
  - exists newResponse. split; [|done].
    eapply inv_trigger; [done..|by rewrite Hph].
  - exists (answered ores). split; [|by destruct (answered_fields ores) as (_ & _ & ->)].
    eapply inv_trigger; [done..|by rewrite Hph].
Qed.

Lemma fill_pending c s id f :
  Inv c s → fills s !! id = Some f → awaited s id →
  open_phase (f_phase f) = true.
Proof.
  intros HI Hf [Hs|[Hw|[Hp|(g & Hg & Hopen)]]].
  - apply (inv_stat_fill _ _ HI) in Hs. congruence.
  - apply (inv_wait_fill _ _ HI) in Hw. congruence.
  - assert (proxying s !! id = None) as Hn by (apply (inv_fill_proxy _ _ HI); eauto).
    rewrite Hn in Hp. by destruct Hp.
  - congruence.
Qed.

Lemma closed_trigger c s id f :
  Inv c s → Served s → fills s !! id = Some f → open_phase (f_phase f) = false →
  ∃ r, responses s !! id = Some r ∧ ended r = true.
Proof.
  intros HI HS Hf Hclosed.
  assert (is_Some (responses s !! id)) as [r Hr].
  { apply (srv_dom _ HS), (inv_fill_bound _ _ HI). eauto. }
  exists r. split; [done|].
  destruct (srv_done _ HS id r Hr) as [?|Hp]; [done|].
  apply (fill_pending c s id f HI Hf) in Hp. congruence.
Qed.

End ServedFacts.

Section ServedSteps.
Context (lib : Lib) (self : Server) (c : bool).

Lemma Served_finish s s' id f q :
  Inv c s → Served s →
  fills s !! id = Some f → active f → inProgress s !! f_file f = Some q →
  (∀ i, i ≠ id → i ∉ (w_res <$> q) → responses s' !! i = responses s !! i) →
  (∀ i, i ∈ (w_res <$> q) → ∃ r, responses s' !! i = Some r ∧ ended r = true) →
  (∃ r, responses s' !! id = Some r ∧ ended r = true) →
  (responses s' !! id ≠ responses s !! id → open_phase (f_phase f) = true) →
  inProgress s' = delete (f_file f) (inProgress s) →
  fills s' = alter (at_phase Finished) id (fills s) →
  statting s' = statting s → proxying s' = proxying s → nextId s' = nextId s →
  Served s' ∧ Touch s s'.
Proof.
  intros HI HS Hf Hfa Hq Hsame Hwait (rt & Hrt & Hrte) Htrig Hprog Hfills Hstat Hproxy Hnext.
  assert (Hwq : ∀ i, i ∈ (w_res <$> q) → waiting (inProgress s) i).
  { intros i (o & -> & Ho)%list_elem_of_fmap. by eapply waiting_elem. }
  split; [split|].
  - intros i. rewrite Hnext. destruct (decide (i = id)) as [->|Hne].
    { split; [intros _|by rewrite Hrt]. apply (inv_fill_bound _ _ HI). eauto. }
    destruct (decide (i ∈ (w_res <$> q))) as [Hin|Hout].
    { split; [intros _|by destruct (Hwait i Hin) as (r & -> & _)].
      by apply (inv_wait_bound _ _ HI), Hwq. }
    rewrite Hsame by done. apply (srv_dom _ HS).
  - intros i req. rewrite Hproxy. intros Hi. rewrite Hsame.
    + by eapply srv_proxy.
    + intros ->. assert (proxying s !! id = None); [|congruence].
      apply (inv_fill_proxy _ _ HI). eauto.
    + intros Hin%Hwq. apply (inv_wait_proxy _ _ HI) in Hin. congruence.
  - intros i r Hr. destruct (decide (i = id)) as [->|Hne]; [left; congruence|].
    destruct (decide (i ∈ (w_res <$> q))) as [Hin|Hout].
    { destruct (Hwait i Hin) as (r' & Hr' & ?). left. congruence. }
    rewrite Hsame in Hr by done.
    destruct (srv_done _ HS i r Hr) as [?|[Hs|[Hw|[Hp|(g & Hg & Hopen)]]]]; [by left|right..].
    + left. by rewrite Hstat.
    + right. left. destruct Hw as (file & q' & w & Hq' & Hw & Hid).
      exists file, q', w. split_and!; [|done..]. rewrite Hprog.
      rewrite lookup_delete_ne; [done|]. intros <-. apply Hout.
      rewrite <- Hid. apply list_elem_of_fmap_2. congruence.
    + right. right. left. by rewrite Hproxy.
    + right. right. right. exists g. split; [|done].
      by rewrite Hfills, lookup_alter_ne.
  - intros i Hi. right. destruct (decide (i = id)) as [->|Hne].
    { by eapply open_trigger, Htrig. }
    destruct (decide (i ∈ (w_res <$> q))) as [Hin|Hout].
    + exists newResponse. split; [|done]. by apply (inv_wait_fresh _ _ HI), Hwq.
    + by destruct Hi; apply Hsame.
Qed.

Lemma Served_advance s s' id f p' :
  Inv c s → Served s →
  fills s !! id = Some f → active f →
  (∀ i, i ≠ id → responses s' !! i = responses s !! i) →
  (∃ r, responses s' !! id = Some r ∧ (ended r = true ∨ open_phase p' = true)) →
  (responses s' !! id ≠ responses s !! id → open_phase (f_phase f) = true) →
  fills s' = alter (at_phase p') id (fills s) →
  inProgress s' = inProgress s → statting s' = statting s →
  proxying s' = proxying s → nextId s' = nextId s →
  Served s' ∧ Touch s s'.
Proof.
  intros HI HS Hf Hfa Hsame (rt & Hrt & Hrte) Htrig Hfills Hprog Hstat Hproxy Hnext.
  split; [split|].
  - intros i. rewrite Hnext. destruct (decide (i = id)) as [->|Hne].
    { split; [intros _|by rewrite Hrt]. apply (inv_fill_bound _ _ HI). eauto. }
    rewrite Hsame by done. apply (srv_dom _ HS).
  - intros i req. rewrite Hproxy. intros Hi. rewrite Hsame.
    + by eapply srv_proxy.
    + intros ->. assert (proxying s !! id = None); [|congruence].
      apply (inv_fill_proxy _ _ HI). eauto.
  - intros i r Hr. destruct (decide (i = id)) as [->|Hne].
    { rewrite Hrt in Hr. injection Hr as <-. destruct Hrte as [?|Hopen]; [by left|].
      right. right. right. right. exists (at_phase p' f).
      by rewrite Hfills, lookup_alter_eq, Hf. }
    rewrite Hsame in Hr by done. unfold awaited. rewrite Hstat, Hprog, Hproxy.
    destruct (srv_done _ HS i r Hr) as [?|[Hs|[Hw|[Hp|(g & Hg & Hopen)]]]]; auto.
    right. right. right. right. exists g. by rewrite Hfills, lookup_alter_ne.
  - intros i Hi. right. destruct (decide (i = id)) as [->|Hne].
    + by eapply open_trigger, Htrig.
    + by destruct Hi; apply Hsame.
Qed.

End ServedSteps.

Section ServedEvents.
Context (lib : Lib) (self : Server) (c : bool).

Lemma onRequest_Served req s :
  Inv c s → Served s →
  Served (onRequest lib self req s) ∧ Touch s (onRequest lib self req s).
Proof.
  intros HI HS. unfold onRequest.
  assert (Hnew : responses s !! nextId s = None).
  { destruct (responses s !! nextId s) eqn:E; [|done].
    assert (nextId s < nextId s)%nat; [|lia]. apply (srv_dom _ HS). eauto. }
  assert (Hold : ∀ i r, responses s !! i = Some r → i ≠ nextId s).
  { intros i r Hr ->. congruence. }
  assert (Hmono : ∀ i (st : gmap nat (IncomingMessage * string)) (pr : gmap nat IncomingMessage),
             (∀ j, is_Some (statting s !! j) → is_Some (st !! j)) →
             (∀ j, is_Some (proxying s !! j) → is_Some (pr !! j)) →
             awaited s i →
             is_Some (st !! i) ∨ waiting (inProgress s) i ∨ is_Some (pr !! i)
             ∨ ∃ f, fills s !! i = Some f ∧ open_phase (f_phase f) = true).
  { intros i st pr H1 H2 [?|[?|[?|?]]]; auto. }
  assert (Hins : ∀ {A} (m : gmap nat A) x j, is_Some (m !! j) → is_Some (<[nextId s := x]> m !! j)).
  { intros A m x j Hj. destruct (decide (nextId s = j)) as [<-|Hne].
    - rewrite lookup_insert_eq. eauto.
    - by rewrite lookup_insert_ne. }
  assert (Htouch : ∀ m' : gmap nat ServerResponse,
             (∀ i, i ≠ nextId s → m' !! i = responses s !! i) →
             ∀ i, m' !! i ≠ responses s !! i →
                  responses s !! i = None ∨ ∃ r, responses s !! i = Some r ∧ ended r = false).
  { intros m' Hm i Hi. left. destruct (decide (i = nextId s)) as [->|Hne]; [done|].
    by destruct Hi; apply Hm. }
  destruct (Uri.decodeURIComponent (url_pathname req)) as [decoded|].
  2:{ split; [split|]; simpl.
      - intros i. destruct (decide (i = nextId s)) as [->|Hne].
        + rewrite lookup_alter_eq, lookup_insert_eq. simpl. split; [lia|eauto].
        + rewrite lookup_alter_ne, lookup_insert_ne by done.
          rewrite (srv_dom _ HS). lia.
      - intros i r Hi. rewrite lookup_alter_ne, lookup_insert_ne.
        + by eapply srv_proxy.
        + intros <-. assert (nextId s < nextId s)%nat; [|lia].
          apply (inv_proxy_bound _ _ HI). eauto.
        + intros <-. assert (nextId s < nextId s)%nat; [|lia].
          apply (inv_proxy_bound _ _ HI). eauto.
      - intros i r. destruct (decide (i = nextId s)) as [->|Hne].
        + rewrite lookup_alter_eq, lookup_insert_eq. simpl. intros [= <-]. by left.
        + rewrite lookup_alter_ne, lookup_insert_ne by done. apply (srv_done _ HS).
      - unfold Touch; simpl. apply Htouch. intros i Hne. by rewrite lookup_alter_ne, lookup_insert_ne. }
  destruct (Js.notIn _ _ || negb _).
  - split; [split|]; simpl.
    + intros i. destruct (decide (i = nextId s)) as [->|Hne].
      * rewrite lookup_insert_eq. split; [lia|eauto].
      * rewrite lookup_insert_ne by done. rewrite (srv_dom _ HS). lia.
    + intros i r [[<- <-]|[Hne Hi]]%lookup_insert_Some.
      * by rewrite lookup_insert_eq.
      * rewrite lookup_insert_ne by done. by eapply srv_proxy.
    + intros i r. destruct (decide (i = nextId s)) as [->|Hne].
      * rewrite lookup_insert_eq. intros [= <-]. right. right. right. left.
        simpl. rewrite lookup_insert_eq. eauto.
      * rewrite lookup_insert_ne by done. intros Hr.
        destruct (srv_done _ HS i r Hr) as [?|Hp]; [by left|right].
        apply (Hmono i); simpl; auto.
    + unfold Touch; simpl. apply Htouch. intros i Hne. by rewrite lookup_insert_ne.
  - split; [split|]; simpl.
    + intros i. destruct (decide (i = nextId s)) as [->|Hne].
      * rewrite lookup_insert_eq. split; [lia|eauto].
      * rewrite lookup_insert_ne by done. rewrite (srv_dom _ HS). lia.
    + intros i r Hi. rewrite lookup_insert_ne.
      * by eapply srv_proxy.
      * intros <-. assert (nextId s < nextId s)%nat; [|lia].
        apply (inv_proxy_bound _ _ HI). eauto.
    + intros i r. destruct (decide (i = nextId s)) as [->|Hne].
      * rewrite lookup_insert_eq. intros [= <-]. right. left.
        simpl. rewrite lookup_insert_eq. eauto.
      * rewrite lookup_insert_ne by done. intros Hr.
        destruct (srv_done _ HS i r Hr) as [?|Hp]; [by left|right].
        apply (Hmono i); simpl; auto.
    + unfold Touch; simpl. apply Htouch. intros i Hne. by rewrite lookup_insert_ne.
Qed.

(** A request that was waiting for its [fs.stat] callback or for the backend
    is answered: its response object is ended. *)
Lemma Served_answered id g (st : gmap nat (IncomingMessage * string))
    (pr : gmap nat IncomingMessage) s :
  Inv c s → Served s →
  is_Some (statting s !! id) ∨ is_Some (proxying s !! id) →
  (∀ r, ended (g r) = true) →
  (∀ j, j ≠ id → st !! j = statting s !! j) →
  (∀ j, j ≠ id → pr !! j = proxying s !! j) →
  pr !! id = None →
  let s' := set_proxying pr (on_res id g (set_statting st s)) in
  Served s' ∧ Touch s s'.
Proof.
  intros HI HS Hid Hg Hst Hpr Hprid s'.
  assert (Hfresh : responses s !! id = Some newResponse).
  { destruct Hid as [[rf Hs]|[rq Hp]].
    - by eapply inv_stat_fresh.
    - by eapply srv_proxy. }
  split; [split|]; subst s'; simpl.
  - intros i. destruct (decide (i = id)) as [->|Hne].
    + rewrite lookup_alter_eq, fmap_is_Some. apply (srv_dom _ HS).
    + rewrite lookup_alter_ne by done. apply (srv_dom _ HS).
  - intros i req Hi. destruct (decide (i = id)) as [->|Hne]; [congruence|].
    rewrite lookup_alter_ne by done. rewrite Hpr in Hi by done. by eapply srv_proxy.
  - intros i r. destruct (decide (i = id)) as [->|Hne].
    + rewrite lookup_alter_eq, Hfresh. simpl. intros [= <-]. by left.
    + rewrite lookup_alter_ne by done. intros Hr. unfold awaited. simpl.
      rewrite Hst, Hpr by done. by apply (srv_done _ HS).
  - intros i Hi. right. destruct (decide (i = id)) as [->|Hne].
    + by exists newResponse.
    + destruct Hi. simpl. by rewrite lookup_alter_ne.
Qed.

Lemma onStat_Served id s s' :
  Inv c s → Served s → onStat lib self id s = Some s' → Served s' ∧ Touch s s'.
Proof.
  intros HI HS. unfold onStat.
  destruct (statting s !! id) as [[req file]|] eqn:Hid; simpl; [|done].
  assert (Hsid : is_Some (statting s !! id)) by eauto.
  pose proof (inv_stat_proxy _ _ HI id Hsid) as Hnp.
  pose proof (inv_stat_fresh _ _ HI id _ Hid) as Hnew.
  assert (Hhit : ∀ g, (∀ r, ended (g r) = true) →
            let s1 := on_res id g (set_statting (delete id (statting s)) s) in
            Served s1 ∧ Touch s s1).
  { intros g Hg.
    assert (Hd := Served_answered id g (delete id (statting s)) (proxying s) s HI HS).
    destruct s. apply Hd; auto.
    intros j Hj. by rewrite lookup_delete_ne. }
  destruct (Store.stat (fs s) file) as [stats|].
  { destruct (isDirectory stats); intros [= <-]; apply Hhit; [done|].
    intros r. apply streamFile_ended. }
  assert (Hother : ∀ i, i ≠ id → awaited s i →
            ∀ (m : gmap string (list waiter)) (fl : gmap nat fill),
                    (∀ j, waiting (inProgress s) j → waiting m j) →
                    (∀ j f, fills s !! j = Some f → fl !! j = Some f) →
            is_Some (delete id (statting s) !! i) ∨ waiting m i ∨ is_Some (proxying s !! i)
            ∨ ∃ f, fl !! i = Some f ∧ open_phase (f_phase f) = true).
  { intros i Hne [Hs|[Hw|[Hp|(f & Hf & Hopen)]]] m fl Hm Hfl; eauto 10.
    left. by rewrite lookup_delete_ne. }
  assert (Hnotouch : ∀ s1, responses s1 = responses s → Touch s s1).
  { intros s1 Hs1 i Hi. by rewrite Hs1 in Hi. }
  destruct (inProgress s !! file) as [q|] eqn:Hq; intros [= <-].
  - split; [split|]; [..|by apply Hnotouch]; simpl.
    + apply (srv_dom _ HS).
    + apply (srv_proxy _ HS).
    + intros i r Hr. destruct (decide (i = id)) as [->|Hne].
      * right. right. left. exists file, (q ++ [{| w_req := req; w_res := id |}]), {| w_req := req; w_res := id |}.
        simpl. rewrite lookup_insert_eq. split_and!; [done| |done].
        apply elem_of_app. right. by apply list_elem_of_singleton.
      * destruct (srv_done _ HS i r Hr) as [?|Hp]; [by left|right].
        apply (Hother i Hne Hp); [|done].
        intros j (file' & q' & w & Hq' & Hw & Hj).
        destruct (decide (file = file')) as [<-|Hnf].
        -- exists file, (q ++ [{| w_req := req; w_res := id |}]), w.
           simpl. rewrite lookup_insert_eq. split_and!; [done| |done].
           apply elem_of_app. left. congruence.
        -- exists file', q', w. simpl. by rewrite lookup_insert_ne.
  - split; [split|]; [..|by apply Hnotouch]; simpl.
    + apply (srv_dom _ HS).
    + apply (srv_proxy _ HS).
    + intros i r Hr. destruct (decide (i = id)) as [->|Hne].
      * right. right. right. right. eexists. simpl. by rewrite lookup_insert_eq.
      * destruct (srv_done _ HS i r Hr) as [?|Hp]; [by left|right].
        apply (Hother i Hne Hp).
        -- intros j (file' & q' & w & Hq' & Hw & Hj).
           exists file', q', w. simpl. rewrite lookup_insert_ne; [done|]. congruence.
        -- intros j f Hf. simpl. rewrite lookup_insert_ne; [done|].
           intros <-. apply (inv_stat_fill _ _ HI) in Hsid. congruence.
Qed.

Lemma proxy_done_Served id g s :
  Inv c s → Served s → is_Some (proxying s !! id) → (∀ r, ended (g r) = true) →
  let s' := set_proxying (delete id (proxying s)) (on_res id g s) in
  Served s' ∧ Touch s s'.
Proof.
  intros HI HS Hid Hg.
  assert (Hd := Served_answered id g (statting s) (delete id (proxying s)) s HI HS).
  destruct s. apply Hd; auto.
  - intros j Hj. by rewrite lookup_delete_ne.
  - by rewrite lookup_delete_eq.
Qed.

End ServedEvents.

Section ServedFills.
Context (lib : Lib) (self : Server) (c : bool).

Lemma foldl_alter_agree (g : waiter → ServerResponse → ServerResponse) q
    (m1 m2 : gmap nat ServerResponse) id :
  (∀ j, j ≠ id → m1 !! j = m2 !! j) →
  ∀ j, j ≠ id →
    foldl (λ m o, alter (g o) (w_res o) m) m1 q !! j
    = foldl (λ m o, alter (g o) (w_res o) m) m2 q !! j.
Proof.
  revert m1 m2. induction q as [|o q IH]; intros m1 m2 Hm; simpl; [done|].
  apply IH. intros j Hj. destruct (decide (w_res o = j)) as [<-|Hne].
  - by rewrite !lookup_alter_eq, Hm.
  - rewrite !lookup_alter_ne by done. by apply Hm.
Qed.

Lemma Served_finish_fold s s' id f q g :
  Inv c s → Served s →
  fills s !! id = Some f → active f → inProgress s !! f_file f = Some q →
  (∀ o r, ended (g o r) = true) →
  (∀ i, i ≠ id →
     responses s' !! i = foldl (λ m o, alter (g o) (w_res o) m) (responses s) q !! i) →
  (∃ r, responses s' !! id = Some r ∧ ended r = true) →
  (responses s' !! id ≠ responses s !! id → open_phase (f_phase f) = true) →
  inProgress s' = delete (f_file f) (inProgress s) →
  fills s' = alter (at_phase Finished) id (fills s) →
  statting s' = statting s → proxying s' = proxying s → nextId s' = nextId s →
  Served s' ∧ Touch s s'.
Proof.
  intros HI HS Hf Hfa Hq Hg Hfold Htrig Hopen Hprog Hfills Hstat Hproxy Hnext.
  pose proof (trigger_not_waiting c s id f _ q HI Hf Hq) as Hnotin.
  eapply (Served_finish c s s' id f q); try done.
  - intros i Hne Hi. rewrite Hfold by done. by apply foldl_alter_notin.
  - intros i Hi. rewrite Hfold by (by intros ->). apply foldl_alter_ended; [done..|].
    apply list_elem_of_fmap in Hi as (o & -> & Ho).
    rewrite (inv_wait_fresh _ _ HI (w_res o)); [eauto|]. by eapply waiting_elem.
Qed.

(** A call of [finish] by a fill whose triggering client has been answered. *)
Lemma Served_finish_closed s s' id f :
  Inv c s → Served s →
  fills s !! id = Some f → active f → open_phase (f_phase f) = false →
  finish_frame id (f_file f) s s' →
  (∀ q, inProgress s !! f_file f = Some q →
     ∃ g, (∀ o r, ended (g o r) = true) ∧
          responses s' = foldl (λ m o, alter (g o) (w_res o) m) (responses s) q) →
  Served s' ∧ Touch s s'.
Proof.
  intros HI HS Hf Hfa Hclosed (q & Hq & _ & Hprog & Hfills & _ & Hstat & Hproxy & Hnext & _)
    Hresp.
  destruct (Hresp q Hq) as (g' & Hg' & Hr).
  pose proof (trigger_not_waiting c s id f _ q HI Hf Hq) as Hnotin.
  assert (Hid : responses s' !! id = responses s !! id).
  { rewrite Hr. by apply foldl_alter_notin. }
  eapply (Served_finish_fold s s' id f q g'); try done.
  - intros i _. by rewrite Hr.
  - rewrite Hid. by eapply closed_trigger.
Qed.

Lemma fill_Served e id s s' :
  Inv c s → Served s → fill_event id e = true → step lib self e s = Some s' →
  Served s' ∧ Touch s s'.
Proof.
  intros HI HS He Hstep.
  assert (Hids : ∀ i, bool_decide (i = id) = true → i = id).
  { intros i. by apply bool_decide_eq_true_1. }
  destruct e; simpl in He; try done; apply Hids in He; subst; simpl in Hstep.
  - (* the response callback *)
    unfold onResponse in Hstep.
    destruct (fills s !! id) as [f|] eqn:Hf; simpl in Hstep; [|done].
    destruct (f_phase f) eqn:Hph; try done.
    assert (Hfa : active f) by (unfold active; congruence).
    assert (Hnew : responses s !! id = Some newResponse).
    { eapply inv_trigger; [done..|by rewrite Hph]. }
    destruct (inv_record _ _ HI id f Hf Hfa) as [q Hq].
    destruct ((ores_statusCode ores <? 200) || (300 <=? ores_statusCode ores)).
    + match type of Hstep with context [finish_status id (f_file f) ?c ?s1] =>
        destruct (finish_status_eq id (f_file f) c s1 q Hq)
          as (s2 & Hfin & Hr & Hprog & Hfills & _ & Hstat & Hproxy & Hnext & _) end.
      rewrite Hfin in Hstep. simpl in Hstep. injection Hstep as <-.
      pose proof (trigger_not_waiting c s id f _ q HI Hf Hq) as Hnotin.
      eapply (Served_finish_fold s _ id f q
                (λ _ r, end_ (setStatusCode (ores_statusCode ores) r))); try done.
      * intros i Hne. simpl. rewrite lookup_alter_ne by done. rewrite Hr.
        apply (foldl_alter_agree _ _ _ _ id); [|done].
        intros j Hj. simpl. by rewrite lookup_alter_ne.
      * simpl. rewrite lookup_alter_eq, Hr, foldl_alter_notin by done. simpl.
        rewrite lookup_alter_eq, Hnew. simpl. eauto.
      * by rewrite Hph.
    + injection Hstep as <-.
      eapply (Served_advance c s _ id f (AwaitMkdirp ores)); try done.
      * intros i Hne. simpl. by rewrite lookup_alter_ne.
      * simpl. rewrite lookup_alter_eq, Hnew. simpl. eauto.
      * by rewrite Hph.
  - (* the request fails *)
    unfold onRequestError in Hstep.
    destruct (fills s !! id) as [f|] eqn:Hf; simpl in Hstep; [|done].
    destruct (f_phase f) eqn:Hph; try done.
    assert (Hfa : active f) by (unfold active; congruence).
    assert (Hnew : responses s !! id = Some newResponse).
    { eapply inv_trigger; [done..|by rewrite Hph]. }
    destruct (inv_record _ _ HI id f Hf Hfa) as [q Hq].
    match type of Hstep with context [finish_status id (f_file f) ?c ?s1] =>
      destruct (finish_status_eq id (f_file f) c s1 q Hq)
        as (s2 & Hfin & Hr & Hprog & Hfills & _ & Hstat & Hproxy & Hnext & _) end.
    rewrite Hfin in Hstep. injection Hstep as <-.
    pose proof (trigger_not_waiting c s id f _ q HI Hf Hq) as Hnotin.
    eapply (Served_finish_fold s _ id f q (λ _ r, end_ (setStatusCode 500 r))); try done.
    + intros i Hne. rewrite Hr. apply (foldl_alter_agree _ _ _ _ id); [|done].
      intros j Hj. simpl. by rewrite lookup_alter_ne.
    + rewrite Hr, foldl_alter_notin by done. simpl.
      rewrite lookup_alter_eq, Hnew. simpl. eauto.
    + by rewrite Hph.
  - (* the callback of mkdirp *)
    unfold onMkdirp in Hstep.
    destruct (fills s !! id) as [f|] eqn:Hf; simpl in Hstep; [|done].
    destruct (f_phase f) eqn:Hph; try done.
    assert (Hfa : active f) by (unfold active; congruence).
    injection Hstep as <-.
    destruct (open_trigger c s id f HI Hf) as (r0 & Hr0 & _); [by rewrite Hph|].
    eapply (Served_advance c s _ id f (Opening ores)); try done.
    + intros i Hne. simpl. by rewrite lookup_alter_ne.
    + simpl. rewrite lookup_alter_eq, Hr0. simpl. eexists. split; [done|].
      left. apply pipe_ended.
    + by rewrite Hph.
  - (* the write stream opens *)
    unfold onOpen, onWriteError in Hstep.
    destruct (fills s !! id) as [f|] eqn:Hf; simpl in Hstep; [|done].
    destruct (f_phase f) eqn:Hph; try done.
    assert (Hfa : active f) by (unfold active; congruence).
    destruct (closed_trigger c s id f HI HS Hf) as (r0 & Hr0 & Hend); [by rewrite Hph|].
    destruct (if ok then _ else _) as [store|].
    + injection Hstep as <-.
      eapply (Served_advance c s _ id f (Writing ores (payload ores))); try done.
      simpl. eauto.
    + eapply (Served_finish_closed s s' id f); try done.
      * by rewrite Hph.
      * by apply finish_status_frame in Hstep.
      * intros q Hq. by eapply finish_status_responses.
  - (* data is flushed *)
    unfold onData in Hstep.
    destruct (fills s !! id) as [f|] eqn:Hf; simpl in Hstep; [|done].
    destruct (f_phase f) eqn:Hph; try done.
    assert (Hfa : active f) by (unfold active; congruence).
    destruct (closed_trigger c s id f HI HS Hf) as (r0 & Hr0 & Hend); [by rewrite Hph|].
    case_decide; [done|]. injection Hstep as <-.
    eapply (Served_advance c s _ id f (Writing ores _)); try done.
    simpl. eauto.
  - (* the write stream fails *)
    unfold onWriteError in Hstep.
    destruct (fills s !! id) as [f|] eqn:Hf; simpl in Hstep; [|done].
    destruct (f_phase f) eqn:Hph; try done.
    all: assert (Hfa : active f) by (unfold active; congruence).
    all: eapply (Served_finish_closed s s' id f); try done;
      [by rewrite Hph|by apply finish_status_frame in Hstep|].
    all: intros q Hq; by eapply finish_status_responses.
  - (* the write stream finishes *)
    unfold onWriteFinish in Hstep.
    destruct (fills s !! id) as [f|] eqn:Hf; simpl in Hstep; [|done].
    destruct (f_phase f) eqn:Hph; try done.
    assert (Hfa : active f) by (unfold active; congruence).
    destruct (closed_trigger c s id f HI HS Hf) as (r0 & Hr0 & Hend); [by rewrite Hph|].
    case_decide; [|done]. injection Hstep as <-.
    eapply (Served_advance c s _ id f (Renaming ores)); try done.
    simpl. eauto.
  - (* the callback of rename *)
    unfold onRename in Hstep.
    destruct (fills s !! id) as [f|] eqn:Hf; simpl in Hstep; [|done].
    destruct (f_phase f) eqn:Hph; try done.
    assert (Hfa : active f) by (unfold active; congruence).
    destruct (closed_trigger c s id f HI HS Hf) as (r0 & Hr0 & Hend); [by rewrite Hph|].
    destruct (if ok then _ else _) as [store|].
    + injection Hstep as <-.
      eapply (Served_advance c s _ id f (Restat ores)); try done.
      simpl. eauto.
    + eapply (Served_finish_closed s s' id f); try done.
      * by rewrite Hph.
      * by apply finish_status_frame in Hstep.
      * intros q Hq. by eapply finish_status_responses.
  - (* the stat callback of finish *)
    unfold onRestat in Hstep.
    destruct (fills s !! id) as [f|] eqn:Hf; simpl in Hstep; [|done].
    destruct (f_phase f) eqn:Hph; try done.
    assert (Hfa : active f) by (unfold active; congruence).
    eapply (Served_finish_closed s s' id f); try done.
    + by rewrite Hph.
    + by apply finish_restat_frame in Hstep.
    + intros q Hq. by eapply finish_restat_responses.
Qed.

Lemma step_Served e s s' :
  Inv c s → Served s → step lib self e s = Some s' → Served s' ∧ Touch s s'.
Proof.
  intros HI HS Hstep.
  destruct (fill_event (match e with
                        | EvResponse i _ | EvRequestError i | EvMkdirp i _ | EvOpen i _ _
                        | EvData i _ _ | EvWriteError i | EvWriteFinish i | EvRename i _
                        | EvRestat i => i
                        | _ => O
                        end) e) eqn:He.
  { by eapply fill_Served. }
  destruct e; simpl in He; try (by rewrite bool_decide_eq_true_2 in He); simpl in Hstep.
  - injection Hstep as <-. by apply (onRequest_Served lib self c).
  - by eapply onStat_Served.
  - unfold onProxyResponse in Hstep.
    destruct (proxying s !! id) eqn:Hp; simpl in Hstep; [|done].
    injection Hstep as <-. apply (proxy_done_Served c); eauto.
    intros r. apply pipe_ended.
  - unfold onProxyError in Hstep.
    destruct (proxying s !! id) eqn:Hp; simpl in Hstep; [|done].
    injection Hstep as <-. apply (proxy_done_Served c); eauto.
Qed.

End ServedFills.

Section ServedRuns.
Context (lib : Lib) (self : Server).

Lemma Served_start store : Served (start store).
Proof.
  split; simpl.
  - intros i. rewrite lookup_empty. split; [by intros [? ?]|lia].
  - intros i req. by rewrite lookup_empty.
  - intros i r. by rewrite lookup_empty.
Qed.

Lemma run_Served evs c s s' :
  Inv c s → Served s → run lib self evs s = Some s' → Served s'.
Proof.
  revert c s. induction evs as [|e evs IH]; intros c s HI HS; simpl.
  - by intros [= <-].
  - destruct (step lib self e s) as [s1|] eqn:Hstep; simpl; [|done].
    eapply IH; [by eapply step_Inv|].
    by destruct (step_Served lib self c e s s1 HI HS Hstep).
Qed.

Lemma reaches_Served store evs s : reaches lib self store evs s → Served s.
Proof. intros Hrun. eapply (run_Served evs true); [apply Inv_start|apply Served_start|done]. Qed.

End ServedRuns.

(** ** The registry and [idle] *)
Section Registry.
Context (lib : Lib) (self : Server).

Lemma finish_status_idle id file code s s' :
  finish_status id file code s = Some s' →
  is_Some (inProgress s !! file) ∧
  inProgress s' = delete file (inProgress s) ∧
  if decide (size (inProgress s') = 0%nat)
  then idle s' = true ∧ idleEvents s' = S (idleEvents s)
  else idle s' = idle s ∧ idleEvents s' = idleEvents s.
Proof.
  unfold finish_status. destruct (inProgress s !! file) as [q|]; [|done].
  simpl. intros [= <-]. split; [eauto|]. unfold checkIdle. simpl.
  destruct (decide (size (delete file (inProgress s)) = 0%nat)) as [Hz|Hz]; simpl;
    (split; [done|]); [rewrite decide_True by done|rewrite decide_False by done]; done.
Qed.

Lemma finish_restat_idle id file ores s s' :
  finish_restat lib id file ores s = Some s' →
  is_Some (inProgress s !! file) ∧
  inProgress s' = delete file (inProgress s) ∧
  if decide (size (inProgress s') = 0%nat)
  then idle s' = true ∧ idleEvents s' = S (idleEvents s)
  else idle s' = idle s ∧ idleEvents s' = idleEvents s.
Proof.
  unfold finish_restat. destruct (inProgress s !! file) as [q|]; [|done].
  simpl. intros [= <-]. split; [eauto|].
  destruct (Store.stat (fs s) file) as [stats|]; [destruct (isDirectory stats)|].
  all: unfold checkIdle; simpl.
  all: destruct (decide (size (delete file (inProgress s)) = 0%nat)) as [Hz|Hz]; simpl;
    (split; [done|]); [rewrite decide_True by done|rewrite decide_False by done]; done.
Qed.

(** What a callback does to [self.inProgress] and [self.idle]: nothing; or
    it queues a request; or it starts a fill; or it is a call of [finish],
    which removes a record and announces [idle] when none is left. *)
Lemma step_registry e s s' :
  step lib self e s = Some s' →
  (inProgress s' = inProgress s ∧ idle s' = idle s ∧ idleEvents s' = idleEvents s)
  ∨ (∃ file q w, inProgress s !! file = Some q ∧
       inProgress s' = <[file := q ++ [w]]> (inProgress s) ∧
       idle s' = idle s ∧ idleEvents s' = idleEvents s)
  ∨ (∃ file, inProgress s !! file = None ∧
       inProgress s' = <[file := []]> (inProgress s) ∧
       idle s' = false ∧ idleEvents s' = idleEvents s)
  ∨ (∃ file, is_Some (inProgress s !! file) ∧
       inProgress s' = delete file (inProgress s) ∧
       if decide (size (inProgress s') = 0%nat)
       then idle s' = true ∧ idleEvents s' = S (idleEvents s)
       else idle s' = idle s ∧ idleEvents s' = idleEvents s).
Proof.
  assert (Hfin : ∀ s0 s1 file,
            (is_Some (inProgress s0 !! file) ∧
             inProgress s1 = delete file (inProgress s0) ∧
             if decide (size (inProgress s1) = 0%nat)
             then idle s1 = true ∧ idleEvents s1 = S (idleEvents s0)
             else idle s1 = idle s0 ∧ idleEvents s1 = idleEvents s0) →
            inProgress s0 = inProgress s → idle s0 = idle s →
            idleEvents s0 = idleEvents s →
            inProgress s' = inProgress s1 → idle s' = idle s1 →
            idleEvents s' = idleEvents s1 →
            ∃ file, is_Some (inProgress s !! file) ∧
              inProgress s' = delete file (inProgress s) ∧
              if decide (size (inProgress s') = 0%nat)
              then idle s' = true ∧ idleEvents s' = S (idleEvents s)
              else idle s' = idle s ∧ idleEvents s' = idleEvents s).
  { intros s0 s1 file H <- <- <- -> -> ->. eauto. }
  destruct e; simpl; intros Hstep.
  - injection Hstep as <-. left. unfold onRequest.
    destruct (Uri.decodeURIComponent _); [destruct (Js.notIn _ _ || negb _)|]; done.
  - unfold onStat in Hstep.
    destruct (statting s !! id) as [[req file]|]; simpl in Hstep; [|done].
    destruct (Store.stat _ _) as [stats|]; [destruct (isDirectory stats)|].
    1,2: injection Hstep as <-; by left.
    destruct (inProgress s !! file) as [q|] eqn:Hq; injection Hstep as <-.
    + right. left. by exists file, q, {| w_req := req; w_res := id |}.
    + right. right. left. by exists file.
  - unfold onProxyResponse in Hstep.
    destruct (proxying s !! id); simpl in Hstep; [|done]. injection Hstep as <-. by left.
  - unfold onProxyError in Hstep.
    destruct (proxying s !! id); simpl in Hstep; [|done]. injection Hstep as <-. by left.
  - unfold onResponse in Hstep.
    destruct (fills s !! id) as [f|]; simpl in Hstep; [|done].
    destruct (f_phase f); try done. case_match.
    + match type of Hstep with context [finish_status id (f_file f) ?c ?s1] =>
        destruct (finish_status id (f_file f) c s1) as [s2|] eqn:Hfs end; [|done].
      simpl in Hstep. injection Hstep as <-. right. right. right.
      apply finish_status_idle in Hfs. by eapply Hfin.
    + injection Hstep as <-. by left.
  - unfold onRequestError in Hstep.
    destruct (fills s !! id) as [f|]; simpl in Hstep; [|done].
    destruct (f_phase f); try done. right. right. right.
    apply finish_status_idle in Hstep. by eapply Hfin.
  - unfold onMkdirp in Hstep.
    destruct (fills s !! id) as [f|]; simpl in Hstep; [|done].
    destruct (f_phase f); try done. injection Hstep as <-. by left.
  - unfold onOpen, onWriteError in Hstep.
    destruct (fills s !! id) as [f|]; simpl in Hstep; [|done].
    destruct (f_phase f); try done. case_match.
    + injection Hstep as <-. by left.
    + right. right. right. apply finish_status_idle in Hstep. by eapply Hfin.
  - unfold onData in Hstep.
    destruct (fills s !! id) as [f|]; simpl in Hstep; [|done].
    destruct (f_phase f); try done. case_decide; [done|]. injection Hstep as <-. by left.
  - unfold onWriteError in Hstep.
    destruct (fills s !! id) as [f|]; simpl in Hstep; [|done].
    destruct (f_phase f); try done; right; right; right;
      apply finish_status_idle in Hstep; by eapply Hfin.
  - unfold onWriteFinish in Hstep.
    destruct (fills s !! id) as [f|]; simpl in Hstep; [|done].
    destruct (f_phase f); try done. case_decide; [|done]. injection Hstep as <-. by left.
  - unfold onRename in Hstep.
    destruct (fills s !! id) as [f|]; simpl in Hstep; [|done].
    destruct (f_phase f); try done. case_match.
    + injection Hstep as <-. by left.
    + right. right. right. apply finish_status_idle in Hstep. by eapply Hfin.
  - unfold onRestat in Hstep.
    destruct (fills s !! id) as [f|]; simpl in Hstep; [|done].
    destruct (f_phase f); try done. right. right. right.
    apply finish_restat_idle in Hstep. by eapply Hfin.
Qed.

Lemma step_Idle e s s' : Idle s → step lib self e s = Some s' → Idle s'.
Proof.
  unfold Idle. intros HI Hstep.
  destruct (step_registry e s s' Hstep)
    as [(-> & -> & _)|[(file & q & w & Hq & -> & -> & _)|[(file & Hq & -> & -> & _)
       |(file & [q Hq] & Hp & Hd)]]]; [done|..].
  - assert (inProgress s ≠ ∅) as Hne by (intros He; by rewrite He, lookup_empty in Hq).
    split; [intros Hi; by apply HI in Hi|].
    intros He. apply (f_equal (lookup file)) in He.
    by rewrite lookup_insert_eq, lookup_empty in He.
  - split; [done|]. intros He. apply (f_equal (lookup file)) in He.
    by rewrite lookup_insert_eq, lookup_empty in He.
  - assert (inProgress s ≠ ∅) as Hne by (intros He; by rewrite He, lookup_empty in Hq).
    case_decide as Hsz.
    + destruct Hd as [-> _]. split; [intros _|done]. by apply map_size_empty_iff.
    + destruct Hd as [-> _]. split; [intros Hi; by apply HI in Hi|].
      intros He. by rewrite He, map_size_empty in Hsz.
Qed.

Lemma run_Idle evs s s' : Idle s → run lib self evs s = Some s' → Idle s'.
Proof.
  revert s. induction evs as [|e evs IH]; intros s HI; simpl.
  - by intros [= <-].
  - destruct (step lib self e s) as [s1|] eqn:Hstep; simpl; [|done].
    apply IH. by eapply step_Idle.
Qed.

End Registry.

(** ** What the callbacks send and store *)
Section Effects.
Context (lib : Lib) (self : Server).

(** The requests a callback sends to the backend. *)
Lemma step_sends e s s' :
  step lib self e s = Some s' →
  outgoing s' = outgoing s
  ∨ (∃ req, e = EvRequest req ∧
       outgoing s' = outgoing s ++ [backend_request lib self req (payload req)])
  ∨ (∃ id req file, e = EvStat id ∧ statting s !! id = Some (req, file) ∧
       outgoing s' = outgoing s ++ [backend_request lib self req EmptyString]).
Proof.
  intros Hstep.
  destruct (step_outgoing lib self e s s' Hstep)
    as [?|[(req & -> & _)|(id & req & file & -> & Hid & Hfile & Hq & _)]];
    [by left|..].
  - simpl in Hstep. injection Hstep as <-. unfold onRequest.
    destruct (Uri.decodeURIComponent _) as [decoded|]; [|by left].
    destruct (Js.notIn _ _ || negb _); [|by left].
    right. left. exists req. split; [done|]. simpl. by rewrite proxyHeaders_forwarded.
  - right. right. exists id, req, file. split_and!; [done..|].
    simpl in Hstep. unfold onStat in Hstep. rewrite Hid in Hstep. simpl in Hstep.
    unfold Store.stat in Hstep. rewrite Hfile, Hq in Hstep. injection Hstep as <-.
    simpl. by rewrite proxyHeaders_forwarded.
Qed.

(** The requests that wait for [fs.stat] after a callback waited before it,
    or the callback is [_onRequest] for an eligible request. *)
Lemma step_statting e s s' id req file :
  step lib self e s = Some s' →
  statting s' !! id = Some (req, file) →
  statting s !! id = Some (req, file)
  ∨ e = EvRequest req ∧ store_key self req = Some file.
Proof.
  assert (Hfin : ∀ s0 s1 i f0,
            finish_frame i f0 s0 s1 → statting s1 = statting s0).
  { by intros s0 s1 i f0 (q & _ & _ & _ & _ & _ & -> & _). }
  assert (Hsame : statting s' = statting s → statting s' !! id = Some (req, file) →
            statting s !! id = Some (req, file)
            ∨ e = EvRequest req ∧ store_key self req = Some file).
  { intros ->. by left. }
  destruct e as [req0|id0|id0 ores|id0|id0 ores|id0|id0 ok|id0 ok now|id0 n now|id0|id0
                |id0 ok|id0]; simpl; intros Hstep.
  - injection Hstep as <-. unfold onRequest, store_key.
    destruct (Uri.decodeURIComponent (url_pathname req0)) as [decoded|] eqn:Hd; simpl;
      [|by intros ?; left].
    destruct (Js.notIn _ _ || negb _) eqn:Hb; simpl; [by intros ?; left|].
    destruct (decide (id = nextId s)) as [->|Hne].
    + rewrite lookup_insert_eq. intros [= <- <-]. right. split; [done|].
      rewrite Hd. simpl. by rewrite Hb.
    + rewrite lookup_insert_ne by done. by intros ?; left.
  - unfold onStat in Hstep.
    destruct (statting s !! id0) as [[req0 file0]|]; simpl in Hstep; [|done].
    assert (statting s' = delete id0 (statting s)) as ->.
    { destruct (Store.stat _ _) as [stats|]; [destruct (isDirectory stats)|].
      1,2: by injection Hstep as <-.
      by destruct (inProgress s !! file0); injection Hstep as <-. }
    intros [_ ?]%lookup_delete_Some. by left.
  - apply Hsame. unfold onProxyResponse in Hstep.
    destruct (proxying s !! id0); simpl in Hstep; [|done]. by injection Hstep as <-.
  - apply Hsame. unfold onProxyError in Hstep.
    destruct (proxying s !! id0); simpl in Hstep; [|done]. by injection Hstep as <-.
  - apply Hsame. unfold onResponse in Hstep.
    destruct (fills s !! id0) as [f|]; simpl in Hstep; [|done].
    destruct (f_phase f); try done. case_match.
    + match type of Hstep with context [finish_status id0 (f_file f) ?c ?s1] =>
        destruct (finish_status id0 (f_file f) c s1) as [s2|] eqn:Hfs end; [|done].
      simpl in Hstep. injection Hstep as <-. simpl.
      by apply finish_status_frame, Hfin in Hfs.
    + by injection Hstep as <-.
  - apply Hsame. unfold onRequestError in Hstep.
    destruct (fills s !! id0) as [f|]; simpl in Hstep; [|done].
    destruct (f_phase f); try done.
    by apply finish_status_frame, Hfin in Hstep.
  - apply Hsame. unfold onMkdirp in Hstep.
    destruct (fills s !! id0) as [f|]; simpl in Hstep; [|done].
    destruct (f_phase f); try done. by injection Hstep as <-.
  - apply Hsame. unfold onOpen, onWriteError in Hstep.
    destruct (fills s !! id0) as [f|]; simpl in Hstep; [|done].
    destruct (f_phase f); try done. case_match.
    + by injection Hstep as <-.
    + by apply finish_status_frame, Hfin in Hstep.
  - apply Hsame. unfold onData in Hstep.
    destruct (fills s !! id0) as [f|]; simpl in Hstep; [|done].
    destruct (f_phase f); try done. case_decide; [done|]. by injection Hstep as <-.
  - apply Hsame. unfold onWriteError in Hstep.
    destruct (fills s !! id0) as [f|]; simpl in Hstep; [|done].
    destruct (f_phase f); try done; by apply finish_status_frame, Hfin in Hstep.
  - apply Hsame. unfold onWriteFinish in Hstep.
    destruct (fills s !! id0) as [f|]; simpl in Hstep; [|done].
    destruct (f_phase f); try done. case_decide; [|done]. by injection Hstep as <-.
  - apply Hsame. unfold onRename in Hstep.
    destruct (fills s !! id0) as [f|]; simpl in Hstep; [|done].
    destruct (f_phase f); try done. case_match.
    + by injection Hstep as <-.
    + by apply finish_status_frame, Hfin in Hstep.
  - apply Hsame. unfold onRestat in Hstep.
    destruct (fills s !! id0) as [f|]; simpl in Hstep; [|done].
    destruct (f_phase f); try done.
    by apply finish_restat_frame, Hfin in Hstep.
Qed.

Lemma step_Received evs e s s' :
  Received lib self evs s → step lib self e s = Some s' →
  Received lib self (evs ++ [e]) s'.
Proof.
  intros [Hst Hout] Hstep. split.
  - intros id req file Hid.
    destruct (step_statting e s s' id req file Hstep Hid) as [Hold|[-> Hkey]].
    + destruct (Hst id req file Hold) as [Hin Hkey]. split; [|done].
      apply elem_of_app. by left.
    + split; [|done]. apply elem_of_app. right. by left.
  - intros r Hr.
    assert (Hold : r ∈ outgoing s → ∃ req, EvRequest req ∈ evs ++ [e] ∧ sent_for lib self req r).
    { intros Hin. destruct (Hout r Hin) as (req & ? & ?). exists req. split; [|done].
      apply elem_of_app. by left. }
    destruct (step_outgoing lib self e s s' Hstep)
      as [Ho|[(req & -> & Hkey & _)|(id & req & file & -> & Hid & _)]].
    + rewrite Ho in Hr. by apply Hold.
    + destruct (step_sends _ s s' Hstep)
        as [Ho|[(req' & [= <-] & Ho)|(? & ? & ? & [=] & _)]]; rewrite Ho in Hr.
      * by apply Hold.
      * apply elem_of_app in Hr as [?|Hx%list_elem_of_singleton]; [by apply Hold|subst r].
        exists req. split; [apply elem_of_app; right; by left|]. by left.
    + destruct (step_sends _ s s' Hstep)
        as [Ho|[(? & [=] & _)|(id' & req' & file' & [= <-] & Hid' & Ho)]]; rewrite Ho in Hr.
      * by apply Hold.
      * apply elem_of_app in Hr as [?|Hx%list_elem_of_singleton]; [by apply Hold|subst r].
        rewrite Hid in Hid'. injection Hid' as <- <-.
        destruct (Hst id req file Hid) as [Hin Hkey].
        exists req. split; [apply elem_of_app; by left|]. right. by rewrite Hkey.
Qed.

Lemma run_Received evs0 evs s s' :
  Received lib self evs0 s → run lib self evs s = Some s' →
  Received lib self (evs0 ++ evs) s'.
Proof.
  revert evs0 s. induction evs as [|e evs IH]; intros evs0 s HR; simpl.
  - intros [= <-]. by rewrite app_nil_r.
  - destruct (step lib self e s) as [s1|] eqn:Hstep; simpl; [|done].
    intros Hrun. replace (evs0 ++ e :: evs) with ((evs0 ++ [e]) ++ evs)
      by (by rewrite <- app_assoc).
    apply (IH _ s1); [|done]. by eapply step_Received.
Qed.

(** What a callback does to the store: nothing; or it is the callback of
    [mkdirp]; or the write stream opens or appends to the temporary file of
    its fill; or it is the callback of a successful [fs.rename]. *)
Lemma step_stores e s s' :
  step lib self e s = Some s' →
  fs s' = fs s
  ∨ (∃ id f, fill_event id e = true ∧ fills s !! id = Some f ∧
       fs s' = Store.mkdirp (Path.dirname (f_file f)) (fs s))
  ∨ (∃ id f x, fill_event id e = true ∧ fills s !! id = Some f ∧
       (∀ p, p ≠ tmp_of (f_file f) → fs s' !! p = fs s !! p) ∧
       fs s' !! tmp_of (f_file f) = Some x)
  ∨ (∃ id f ores content m,
       e = EvRename id true ∧ fills s !! id = Some f ∧ f_phase f = Renaming ores ∧
       fs s !! tmp_of (f_file f) = Some (File content m) ∧
       fs s' = <[f_file f := File content m]> (delete (tmp_of (f_file f)) (fs s))).
Proof.
  destruct e; simpl; intros Hstep.
  - injection Hstep as <-. left. unfold onRequest.
    destruct (Uri.decodeURIComponent _); [destruct (Js.notIn _ _ || negb _)|]; done.
  - left. unfold onStat in Hstep.
    destruct (statting s !! id) as [[req file]|]; simpl in Hstep; [|done].
    destruct (Store.stat _ _) as [stats|]; [destruct (isDirectory stats)|].
    1,2: by injection Hstep as <-.
    by destruct (inProgress s !! file); injection Hstep as <-.
  - left. unfold onProxyResponse in Hstep.
    destruct (proxying s !! id); simpl in Hstep; [|done]. by injection Hstep as <-.
  - left. unfold onProxyError in Hstep.
    destruct (proxying s !! id); simpl in Hstep; [|done]. by injection Hstep as <-.
  - left. unfold onResponse in Hstep.
    destruct (fills s !! id) as [f|] eqn:Hf; simpl in Hstep; [|done].
    destruct (f_phase f) eqn:Hph; try done. case_match.
    + match type of Hstep with context [finish_status id (f_file f) ?c ?s1] =>
        destruct (finish_status id (f_file f) c s1) as [s2|] eqn:Hfin end; [|done].
      simpl in Hstep. injection Hstep as <-. simpl.
      by rewrite (finish_status_fs _ _ _ _ _ Hfin).
    + by injection Hstep as <-.
  - left. unfold onRequestError in Hstep.
    destruct (fills s !! id) as [f|] eqn:Hf; simpl in Hstep; [|done].
    destruct (f_phase f) eqn:Hph; try done.
    by rewrite (finish_status_fs _ _ _ _ _ Hstep).
  - unfold onMkdirp in Hstep.
    destruct (fills s !! id) as [f|] eqn:Hf; simpl in Hstep; [|done].
    destruct (f_phase f) eqn:Hph; try done. injection Hstep as <-.
    destruct ok; [|by left]. right. left. exists id, f.
    split_and!; [by apply bool_decide_eq_true|done..].
  - unfold onOpen, onWriteError in Hstep.
    destruct (fills s !! id) as [f|] eqn:Hf; simpl in Hstep; [|done].
    destruct (f_phase f) eqn:Hph; try done.
    destruct (if ok then _ else _) as [store'|] eqn:Hopen.
    + injection Hstep as <-. destruct ok; [|done]. unfold Store.open_w in Hopen.
      case_match; [|done]. injection Hopen as <-.
      right. right. left. exists id, f. eexists.
      split_and!; [by apply bool_decide_eq_true|done| |].
      * intros p Hp. simpl. by rewrite lookup_insert_ne.
      * simpl. by rewrite lookup_insert_eq.
    + left. by rewrite (finish_status_fs _ _ _ _ _ Hstep).
  - unfold onData in Hstep.
    destruct (fills s !! id) as [f|] eqn:Hf; simpl in Hstep; [|done].
    destruct (f_phase f) eqn:Hph; try done. case_decide; [done|].
    injection Hstep as <-. simpl. unfold Store.append.
    destruct (fs s !! tmp_of (f_file f)) as [x|] eqn:Hx.
    + right. right. left. exists id, f. eexists.
      split_and!; [by apply bool_decide_eq_true|done| |].
      * intros p Hp. by rewrite lookup_alter_ne.
      * by rewrite lookup_alter_eq, Hx.
    + left. apply map_eq. intros p. destruct (decide (p = tmp_of (f_file f))) as [->|Hne].
      * by rewrite lookup_alter_eq, Hx.
      * by rewrite lookup_alter_ne.
  - left. unfold onWriteError in Hstep.
    destruct (fills s !! id) as [f|] eqn:Hf; simpl in Hstep; [|done].
    destruct (f_phase f) eqn:Hph; try done;
      by rewrite (finish_status_fs _ _ _ _ _ Hstep).
  - left. unfold onWriteFinish in Hstep.
    destruct (fills s !! id) as [f|] eqn:Hf; simpl in Hstep; [|done].
    destruct (f_phase f) eqn:Hph; try done. case_decide; [|done].
    by injection Hstep as <-.
  - unfold onRename in Hstep.
    destruct (fills s !! id) as [f|] eqn:Hf; simpl in Hstep; [|done].
    destruct (f_phase f) eqn:Hph; try done.
    destruct (if ok then _ else _) as [store'|] eqn:Hren.
    + injection Hstep as <-. destruct ok; [|done]. unfold Store.rename in Hren.
      destruct (fs s !! tmp_of (f_file f)) as [[content m|]|] eqn:Htmp; try done.
      case_match; [done|]. injection Hren as <-.
      right. right. right. by exists id, f, ores, content, m.
    + left. by rewrite (finish_status_fs _ _ _ _ _ Hstep).
  - left. unfold onRestat in Hstep.
    destruct (fills s !! id) as [f|] eqn:Hf; simpl in Hstep; [|done].
    destruct (f_phase f) eqn:Hph; try done.
    by apply finish_restat_frame in Hstep as (q & _ & _ & _ & _ & -> & _).
Qed.

End Effects.

(** ** Published files are kept *)
Section Kept.
Context (lib : Lib) (self : Server).

Lemma mkdirs_file l (store : gmap string node) p content m :
  Store.mkdirs l store !! p = Some (File content m) → store !! p = Some (File content m).
Proof.
  intros Hp. destruct (decide (Store.mkdirs l store !! p = store !! p)) as [<-|Hne]; [done|].
  apply mkdirs_changes in Hne as [_ Hd]. congruence.
Qed.

Lemma Absent_alter s s' id f p' :
  Inv true s → Absent s →
  fills s !! id = Some f → active f →
  fills s' = alter (at_phase p') id (fills s) →
  (unpublished p' = true → unpublished (f_phase f) = true) →
  (∀ p content m, fs s' !! p = Some (File content m) →
     fs s !! p = Some (File content m) ∨ is_tmp p = true
     ∨ (p = f_file f ∧ unpublished p' = false)) →
  Absent s'.
Proof.
  intros HI HA Hf Hfa Hfills Hph Hfs i g content m Hg Hun Hfile.
  rewrite Hfills in Hg. destruct (decide (i = id)) as [->|Hne].
  - rewrite lookup_alter_eq, Hf in Hg. injection Hg as <-. simpl in *.
    destruct (Hfs _ _ _ Hfile) as [Hold|[Htmp|[_ Hpub]]].
    + by apply (HA id f content m Hf (Hph Hun)).
    + by rewrite (inv_fill_key _ _ HI eq_refl id f Hf) in Htmp.
    + congruence.
  - rewrite lookup_alter_ne in Hg by done.
    destruct (Hfs _ _ _ Hfile) as [Hold|[Htmp|[Heq _]]].
    + by apply (HA i g content m Hg Hun).
    + by rewrite (inv_fill_key _ _ HI eq_refl i g Hg) in Htmp.
    + apply Hne. apply (inv_unique _ _ HI i id g f); try done.
      unfold active. intros Hfin. by rewrite Hfin in Hun.
Qed.

Lemma Absent_finish s s' id f :
  Inv true s → Absent s → fills s !! id = Some f → active f →
  finish_frame id (f_file f) s s' → Absent s'.
Proof.
  intros HI HA Hf Hfa (q & _ & _ & _ & Hfills & Hfs & _).
  eapply (Absent_alter s s' id f Finished); try done.
  intros p content m. rewrite Hfs. by left.
Qed.

Lemma step_Absent e s s' :
  Inv true s → Absent s → step lib self e s = Some s' → Absent s'.
Proof.
  intros HI HA.
  assert (Hsame : ∀ s1, fills s1 = fills s → fs s1 = fs s → Absent s1).
  { intros s1 H1 H2 i g content m. rewrite H1, H2. apply HA. }
  destruct e; simpl.
  - intros [= <-]. apply Hsame; unfold onRequest;
      (destruct (Uri.decodeURIComponent _); [destruct (Js.notIn _ _ || negb _)|]; done).
  - unfold onStat. destruct (statting s !! id) as [[req file]|]; simpl; [|done].
    destruct (Store.stat (fs s) file) as [stats|] eqn:Hstat;
      [destruct (isDirectory stats)|].
    1,2: intros [= <-]; by apply Hsame.
    destruct (inProgress s !! file); intros [= <-]; [by apply Hsame|].
    intros i g content m. simpl.
    intros [[<- <-]|[_ Hg]]%lookup_insert_Some Hun; [|by eapply HA].
    simpl. unfold Store.stat in Hstat. by destruct (fs s !! file) as [[]|].
  - unfold onProxyResponse. destruct (proxying s !! id); simpl; [|done].
    intros [= <-]. by apply Hsame.
  - unfold onProxyError. destruct (proxying s !! id); simpl; [|done].
    intros [= <-]. by apply Hsame.
  - unfold onResponse. destruct (fills s !! id) as [f|] eqn:Hf; simpl; [|done].
    destruct (f_phase f) eqn:Hph; try done.
    assert (Hfa : active f) by (unfold active; congruence).
    case_match.
    + match goal with |- context [finish_status id (f_file f) ?c ?s1] =>
        destruct (finish_status id (f_file f) c s1) as [s2|] eqn:Hfin end; [|done].
      simpl. intros [= <-]. apply finish_status_frame in Hfin.
      destruct Hfin as (q & _ & _ & _ & Hfills & Hfs & _).
      eapply (Absent_alter s _ id f Finished); try done.
      intros p content m. simpl. rewrite Hfs. by left.
    + intros [= <-]. eapply (Absent_alter s _ id f (AwaitMkdirp ores)); try done.
      * by rewrite Hph.
      * by left.
  - unfold onRequestError. destruct (fills s !! id) as [f|] eqn:Hf; simpl; [|done].
    destruct (f_phase f) eqn:Hph; try done.
    assert (Hfa : active f) by (unfold active; congruence).
    intros (q & _ & _ & _ & Hfills & Hfs & _)%finish_status_frame.
    eapply (Absent_alter s _ id f Finished); try done.
    intros p content m. rewrite Hfs. by left.
  - unfold onMkdirp. destruct (fills s !! id) as [f|] eqn:Hf; simpl; [|done].
    destruct (f_phase f) eqn:Hph; try done.
    assert (Hfa : active f) by (unfold active; congruence).
    intros [= <-]. eapply (Absent_alter s _ id f (Opening ores)); try done.
    + by rewrite Hph.
    + intros p content m. simpl. destruct ok; [|by left].
      intros Hp%mkdirs_file. by left.
  - unfold onOpen, onWriteError.
    destruct (fills s !! id) as [f|] eqn:Hf; simpl; [|done].
    destruct (f_phase f) eqn:Hph; try done.
    assert (Hfa : active f) by (unfold active; congruence).
    destruct (if ok then _ else _) as [store'|] eqn:Hopen.
    + intros [= <-]. destruct ok; [|done]. unfold Store.open_w in Hopen.
      case_match; [|done]. injection Hopen as <-.
      eapply (Absent_alter s _ id f (Writing ores (payload ores))); try done.
      * by rewrite Hph.
      * intros p content m. simpl.
        destruct (decide (p = tmp_of (f_file f))) as [->|Hne].
        -- right. left. apply is_tmp_tmp_of.
        -- rewrite lookup_insert_ne by done. by left.
    + intros Hfin%finish_status_frame. by eapply Absent_finish.
  - unfold onData. destruct (fills s !! id) as [f|] eqn:Hf; simpl; [|done].
    destruct (f_phase f) eqn:Hph; try done.
    assert (Hfa : active f) by (unfold active; congruence).
    case_decide; [done|]. intros [= <-].
    eapply (Absent_alter s _ id f (Writing ores _)); try done.
    + by rewrite Hph.
    + intros p content m. simpl. unfold Store.append.
      destruct (decide (p = tmp_of (f_file f))) as [->|Hne].
      * right. left. apply is_tmp_tmp_of.
      * rewrite lookup_alter_ne by done. by left.
  - unfold onWriteError. destruct (fills s !! id) as [f|] eqn:Hf; simpl; [|done].
    destruct (f_phase f) eqn:Hph; try done.
    all: assert (Hfa : active f) by (unfold active; congruence).
    all: intros Hfin%finish_status_frame; by eapply Absent_finish.
  - unfold onWriteFinish. destruct (fills s !! id) as [f|] eqn:Hf; simpl; [|done].
    destruct (f_phase f) eqn:Hph; try done.
    assert (Hfa : active f) by (unfold active; congruence).
    case_decide; [|done]. intros [= <-].
    eapply (Absent_alter s _ id f (Renaming ores)); try done.
    + by rewrite Hph.
    + by left.
  - unfold onRename. destruct (fills s !! id) as [f|] eqn:Hf; simpl; [|done].
    destruct (f_phase f) eqn:Hph; try done.
    assert (Hfa : active f) by (unfold active; congruence).
    destruct (if ok then _ else _) as [store'|] eqn:Hren.
    + intros [= <-]. destruct ok; [|done]. unfold Store.rename in Hren.
      destruct (fs s !! tmp_of (f_file f)) as [[w m0|]|] eqn:Htmp; try done.
      case_match; [done|]. injection Hren as <-.
      eapply (Absent_alter s _ id f (Restat ores)); try done.
      intros p content m. simpl.
      destruct (decide (p = f_file f)) as [->|Hne]; [by right; right|].
      rewrite lookup_insert_ne by done.
      intros [_ Hp]%lookup_delete_Some. by left.
    + intros Hfin%finish_status_frame. by eapply Absent_finish.
  - unfold onRestat. destruct (fills s !! id) as [f|] eqn:Hf; simpl; [|done].
    destruct (f_phase f) eqn:Hph; try done.
    assert (Hfa : active f) by (unfold active; congruence).
    intros Hfin%finish_restat_frame. by eapply Absent_finish.
Qed.

(** A regular file whose name is not a temporary name stays as it is. *)
Lemma step_keeps e s s' p content m :
  Inv true s → Absent s → step lib self e s = Some s' →
  fs s !! p = Some (File content m) → is_tmp p = false →
  fs s' !! p = Some (File content m).
Proof.
  intros HI HA Hstep Hp Hnt.
  assert (Hne : ∀ file, p ≠ tmp_of file).
  { intros file ->. by rewrite is_tmp_tmp_of in Hnt. }
  destruct (step_stores lib self e s s' Hstep)
    as [->|[(id & f & _ & Hf & ->)|[(id & f & x & _ & Hf & Hsame & _)
       |(id & f & ores & w & m0 & -> & Hf & Hph & Htmp & ->)]]]; [done|..].
  - by apply mkdirs_mono.
  - by rewrite Hsame.
  - destruct (decide (p = f_file f)) as [->|Hpf].
    + exfalso. eapply (HA id f content m); [done|by rewrite Hph|done].
    + by rewrite lookup_insert_ne, lookup_delete_ne.
Qed.

Lemma run_keeps evs s s' p content m :
  Inv true s → Absent s → proper self evs = true → run lib self evs s = Some s' →
  fs s !! p = Some (File content m) → is_tmp p = false →
  fs s' !! p = Some (File content m) ∧ Inv true s' ∧ Absent s'.
Proof.
  revert s. induction evs as [|e evs IH]; intros s HI HA Hpr; simpl.
  - by intros [= <-].
  - destruct (step lib self e s) as [s1|] eqn:Hstep; simpl; [|done].
    unfold proper in Hpr. simpl in Hpr. apply andb_true_iff in Hpr as [He Hpr].
    intros Hrun Hp Hnt. apply (IH s1); try done.
    + pose proof (step_Inv lib self true e s s1 HI Hstep) as HI1.
      by rewrite He in HI1.
    + by eapply step_Absent.
    + by eapply step_keeps.
Qed.

Lemma Absent_start store : Absent (start store).
Proof. intros i g content m. simpl. by rewrite lookup_empty. Qed.

Lemma proper_app evs evs' :
  proper self (evs ++ evs') = proper self evs && proper self evs'.
Proof. unfold proper. apply forallb_app. Qed.

Lemma reaches_Absent store evs s :
  reaches lib self store evs s → proper self evs = true → Absent s.
Proof.
  unfold reaches. intros Hrun Hpr.
  assert (∀ evs s0 s1, Inv true s0 → Absent s0 → proper self evs = true →
            run lib self evs s0 = Some s1 → Absent s1) as Hgen.
  { clear. induction evs as [|e evs IH]; intros s0 s1 HI HA Hpr; simpl.
    - by intros [= <-].
    - destruct (step lib self e s0) as [s2|] eqn:Hstep; simpl; [|done].
      unfold proper in Hpr. simpl in Hpr. apply andb_true_iff in Hpr as [He Hpr].
      apply (IH s2); try done.
      + pose proof (step_Inv lib self true e s0 s2 HI Hstep) as HI1.
        by rewrite He in HI1.
      + by eapply step_Absent. }
  eapply Hgen; [apply Inv_start|apply Absent_start|done..].
Qed.

End Kept.

(** ** Requests that bypass the cache *)
Section Proxying.
Context (lib : Lib) (self : Server).


(** X2. The answer of the backend to a proxied request is passed on: its
    status, its headers other than [date], [server] and [host], and its
    body; the store is not touched. *)
Theorem X2_proxied_response store evs s id req ores :
  reaches lib self store evs s →
  proxying s !! id = Some req →
  lowercase (headers ores) →
  ∃ s',
    step lib self (EvProxyResponse id ores) s = Some s' ∧
    responses s' !! id =
      Some {| statusCode := ores_statusCode ores;
              resHeaders := forwarded (headers ores);
              body := payload ores; ended := true |} ∧
    fs s' = fs s ∧ inProgress s' = inProgress s ∧ outgoing s' = outgoing s.
Proof.
  intros HS%reaches_Served Hid Hlow. simpl. unfold onProxyResponse. rewrite Hid. simpl.
  eexists. split; [done|]. simpl. split_and!; try done.
  rewrite lookup_alter_eq, (srv_proxy _ HS id req Hid). simpl.
  fold (answered ores). rewrite answered_eq by done. done.
Qed.

(** X3. When the request to the backend fails, the client of a proxied
    request gets status 500, without header and body. *)
Theorem X3_proxied_error store evs s id req :
  reaches lib self store evs s →
  proxying s !! id = Some req →
  ∃ s',
    step lib self (EvProxyError id) s = Some s' ∧
    responses s' !! id = Some (bare 500) ∧
    fs s' = fs s ∧ inProgress s' = inProgress s ∧ outgoing s' = outgoing s.
Proof.
  intros HS%reaches_Served Hid. simpl. unfold onProxyError. rewrite Hid. simpl.
  eexists. split; [done|]. simpl. split_and!; try done.
  by rewrite lookup_alter_eq, (srv_proxy _ HS id req Hid).
Qed.

End Proxying.

(** ** The [fs.stat] callback of a request *)
Section Lookup.
Context (lib : Lib) (self : Server).

(** X4. A request whose store path is a directory is answered 400, without
    header and body; the backend is not asked. *)
Theorem X4_directory store evs s id req file :
  reaches lib self store evs s →
  statting s !! id = Some (req, file) →
  fs s !! file = Some Dir →
  ∃ s',
    step lib self (EvStat id) s = Some s' ∧
    responses s' !! id = Some (bare 400) ∧
    outgoing s' = outgoing s ∧ inProgress s' = inProgress s ∧ fs s' = fs s.
Proof.
  intros HI%reaches_Inv Hid Hfile. simpl. unfold onStat. rewrite Hid. simpl.
  unfold Store.stat. rewrite Hfile. simpl. eexists. split; [done|]. simpl.
  split_and!; try done.
  by rewrite lookup_alter_eq, (inv_stat_fresh _ _ HI id _ Hid).
Qed.

(** X5. A request other than HEAD that finds its file in the store, and whose
    [If-None-Match] is not the tag of the file, gets status 200, the length
    of the file as [Content-Length] and the content of the file as body; the
    backend is not asked and the store is not changed. *)
Theorem X5_hit store evs s id req file content m :
  reaches lib self store evs s →
  statting s !! id = Some (req, file) →
  fs s !! file = Some (File content m) →
  method req ≠ "HEAD" →
  headers req !! "if-none-match"
    ≠ Some (entity_tag (Z.of_nat (String.length content)) m) →
  ∃ s' res,
    step lib self (EvStat id) s = Some s' ∧
    responses s' !! id = Some res ∧
    statusCode res = 200 ∧ body res = content ∧ ended res = true ∧
    resHeaders res !! "content-length"
      = Some (Js.fmt_d (Z.of_nat (String.length content))) ∧
    outgoing s' = outgoing s ∧ fs s' = fs s.
Proof.
  intros Hreach Hid Hfile Hget Hno.
  destruct (onStat_hit lib self store evs s id req file content m Hreach Hid Hfile)
    as (s' & Hstep & Hres & Hout & Hfs).
  rewrite streamFile_new in Hres.
  rewrite decide_False in Hres by done. cbn zeta in Hres.
  rewrite decide_False in Hres by done. rewrite Hfile in Hres.
  eexists s', _. by split_and!.
Qed.


End Lookup.

(** ** The callbacks of a fill *)
Section Filling.
Context (lib : Lib) (self : Server).

(** A response that has been ended is not written to again. *)
Lemma step_ended c e s s' i r :
  Inv c s → Served s → step lib self e s = Some s' →
  responses s !! i = Some r → ended r = true →
  responses s' !! i = Some r.
Proof.
  intros HI HS Hstep Hr Hend.
  destruct (step_Served lib self c e s s' HI HS Hstep) as [_ HT].
  destruct (decide (responses s' !! i = responses s !! i)) as [->|Hne]; [done|].
  destruct (HT i Hne) as [?|(r0 & ? & ?)]; congruence.
Qed.

Lemma run_ended evs c s s' i r :
  Inv c s → Served s → run lib self evs s = Some s' →
  responses s !! i = Some r → ended r = true →
  responses s' !! i = Some r.
Proof.
  revert c s. induction evs as [|e evs IH]; intros c s HI HS; simpl.
  - by intros [= <-].
  - destruct (step lib self e s) as [s1|] eqn:Hstep; simpl; [|done].
    intros Hrun Hr Hend. eapply (IH _ s1); [by eapply step_Inv| |done| |done].
    + by destruct (step_Served lib self c e s s1 HI HS Hstep).
    + by eapply step_ended.
Qed.

(** X7. When the backend answers a fill in the 200 range, the triggering
    client is streamed that answer by the callback of [mkdirp], whether the
    directory could be made or not: the status, the headers other than
    [date], [server] and [host], and the body.  Nothing that happens to the
    fill afterwards changes this response. *)
Theorem X7_trigger_streamed store evs s id f ores ok :
  reaches lib self store evs s →
  fills s !! id = Some f → f_phase f = AwaitMkdirp ores →
  lowercase (headers ores) →
  let res := {| statusCode := ores_statusCode ores;
                resHeaders := forwarded (headers ores);
                body := payload ores; ended := true |} in
  ∃ s',
    step lib self (EvMkdirp id ok) s = Some s' ∧
    responses s' !! id = Some res ∧
    ∀ evs' s'', run lib self evs' s' = Some s'' → responses s'' !! id = Some res.
Proof.
  intros Hreach Hf Hph Hlow res.
  pose proof (reaches_Inv lib self store evs s Hreach) as HI.
  pose proof (reaches_Served lib self store evs s Hreach) as HS.
  assert (Hold : responses s !! id = Some (answered ores)).
  { eapply inv_trigger; [done..|by rewrite Hph]. }
  assert (∃ s', step lib self (EvMkdirp id ok) s = Some s') as [s' Hstep].
  { simpl. unfold onMkdirp. rewrite Hf. simpl. rewrite Hph. eauto. }
  assert (Hres : responses s' !! id = Some res).
  { simpl in Hstep. unfold onMkdirp in Hstep. rewrite Hf in Hstep. simpl in Hstep.
    rewrite Hph in Hstep. injection Hstep as <-. simpl.
    rewrite lookup_alter_eq, Hold. simpl. by rewrite answered_eq. }
  exists s'. split_and!; [done..|].
  intros evs' s'' Hrun.
  eapply (run_ended evs' _ s'); [by eapply step_Inv| |done..].
  by destruct (step_Served lib self _ _ s s' HI HS Hstep).
Qed.

(** X8. When the request of a fill fails before the backend answers, the
    triggering client and every queued request get status 500, without
    header and body; the record is removed and the store is not touched. *)
Theorem X8_request_error store evs s id f :
  reaches lib self store evs s →
  fills s !! id = Some f → f_phase f = AwaitResponse →
  ∃ s' q,
    step lib self (EvRequestError id) s = Some s' ∧
    inProgress s !! f_file f = Some q ∧
    responses s' !! id = Some (bare 500) ∧
    (∀ o, o ∈ q → responses s' !! w_res o = Some (bare 500)) ∧
    inProgress s' = delete (f_file f) (inProgress s) ∧
    fs s' = fs s ∧ outgoing s' = outgoing s.
Proof.
  intros HI%reaches_Inv Hf Hph.
  assert (Hfa : active f) by (unfold active; congruence).
  destruct (inv_record _ _ HI id f Hf Hfa) as [q Hq].
  assert (Hnew : responses s !! id = Some newResponse).
  { eapply inv_trigger; [done..|by rewrite Hph]. }
  pose proof (trigger_not_waiting _ s id f _ q HI Hf Hq) as Hnotin.
  simpl. unfold onRequestError. rewrite Hf. simpl. rewrite Hph.
  set (s1 := on_res id _ s).
  destruct (finish_status_eq id (f_file f) 500 s1 q Hq)
    as (s2 & -> & Hr & Hp & _ & Hfs & _ & _ & _ & Hout).
  exists s2, q. rewrite Hr, Hp, Hfs, Hout. subst s1. simpl.
  split_and!; try done.
  - rewrite foldl_alter_notin by done. by rewrite lookup_alter_eq, Hnew.
  - intros o Ho.
    assert (w_res o ≠ id) as Hne.
    { intros <-. apply Hnotin. by apply list_elem_of_fmap_2. }
    rewrite foldl_alter_in; [|by eapply queue_NoDup|done].
    rewrite lookup_alter_ne by done.
    rewrite (inv_wait_fresh _ _ HI (w_res o)); [done|]. by eapply waiting_elem.
Qed.

(** X9. When the write stream of a fill fails, at its opening or later, or
    when the rename fails, every queued request gets status 500, without
    header and body, and the record is removed.  The store is left as it is:
    the temporary file, if there is one, stays, and as long as no request was
    looked up under a temporary name no file is at the store path.  The
    response of the triggering client is not touched. *)
Theorem X9_failed_fill store evs s id f e :
  reaches lib self store evs s →
  fills s !! id = Some f → failing id (f_phase f) e = true →
  ∃ s' q,
    step lib self e s = Some s' ∧
    inProgress s !! f_file f = Some q ∧
    (∀ o, o ∈ q → responses s' !! w_res o = Some (bare 500)) ∧
    responses s' !! id = responses s !! id ∧
    inProgress s' = delete (f_file f) (inProgress s) ∧
    fs s' = fs s ∧
    (proper self evs = true →
     ∀ content m, fs s' !! f_file f ≠ Some (File content m)).
Proof.
  intros Hreach Hf He.
  pose proof (reaches_Inv lib self store evs s Hreach) as HI.
  assert (Hfa : active f).
  { unfold active. intros Hfin. by rewrite Hfin in He. }
  destruct (inv_record _ _ HI id f Hf Hfa) as [q Hq].
  pose proof (trigger_not_waiting _ s id f _ q HI Hf Hq) as Hnotin.
  destruct (finish_status_eq id (f_file f) 500 s q Hq)
    as (s2 & Hfin & Hr & Hp & _ & Hfs & _ & _ & _ & Hout).
  assert (Hstep : step lib self e s = Some s2).
  { destruct (f_phase f) eqn:Hph; try done; destruct e; try done; simpl in He.
    all: try (destruct ok; [done|]).
    all: apply bool_decide_eq_true_1 in He; subst.
    all: simpl; unfold onOpen, onRename, onWriteError; rewrite Hf; simpl;
      by rewrite Hph. }
  exists s2, q. rewrite Hr, Hp, Hfs. split_and!; try done.
  - intros o Ho. rewrite foldl_alter_in; [|by eapply queue_NoDup|done].
    rewrite (inv_wait_fresh _ _ HI (w_res o)); [done|]. by eapply waiting_elem.
  - by apply foldl_alter_notin.
  - intros Hpr content m.
    apply (reaches_Absent lib self store evs s Hreach Hpr id f content m Hf).
    by destruct (f_phase f).
Qed.

End Filling.

(** ** The queued requests of a published fill *)
Section Published.
Context (lib : Lib) (self : Server).



End Published.

(** ** The whole run *)
Section Runs.
Context (lib : Lib) (self : Server).

Lemma Idle_start store : Idle (start store).
Proof. by unfold Idle. Qed.

(** X11. The server is idle exactly when [inProgress] holds no record, that
    is when every fill that was started has called [finish]. *)
Theorem X11_idle store evs s :
  reaches lib self store evs s →
  (idle s = true ↔ inProgress s = ∅) ∧
  (inProgress s = ∅ ↔ ∀ id f, fills s !! id = Some f → f_phase f = Finished).
Proof.
  intros Hreach. split.
  - eapply run_Idle; [apply Idle_start|done].
  - pose proof (reaches_Inv lib self store evs s Hreach) as HI. split.
    + intros He id f Hf.
      assert (f_phase f = Finished ∨ f_phase f ≠ Finished) as [|Hne]; [|done|].
      { destruct (f_phase f); (by left) || (by right). }
      destruct (inv_record _ _ HI id f Hf Hne) as [q Hq].
      by rewrite He, lookup_empty in Hq.
    + intros Hall. apply map_empty. intros file.
      destruct (inProgress s !! file) as [q|] eqn:Hq; [|done].
      destruct (inv_owner _ _ HI file) as (id & f & Hf & Hfa & _); [eauto|].
      by destruct Hfa; eapply Hall.
Qed.

(** X12. [idle] is announced by the callback that removes the last record of
    [inProgress], once, and by no other. *)
Theorem X12_idle_announced e s s' :
  step lib self e s = Some s' →
  (idleEvents s' = S (idleEvents s) ∧ inProgress s ≠ ∅ ∧ inProgress s' = ∅)
  ∨ (idleEvents s' = idleEvents s ∧ (inProgress s' = ∅ → inProgress s = ∅)).
Proof.
  intros Hstep.
  destruct (step_registry lib self e s s' Hstep)
    as [(-> & _ & ->)|[(file & q & w & Hq & -> & _ & ->)|[(file & Hq & -> & _ & ->)
       |(file & [q Hq] & Hp & Hd)]]].
  - by right.
  - right. split; [done|]. intros He. apply (f_equal (lookup file)) in He.
    by rewrite lookup_insert_eq, lookup_empty in He.
  - right. split; [done|]. intros He. apply (f_equal (lookup file)) in He.
    by rewrite lookup_insert_eq, lookup_empty in He.
  - case_decide as Hsz.
    + left. destruct Hd as [_ ->]. split_and!; [done| |by apply map_size_empty_iff].
      intros He. by rewrite He, lookup_empty in Hq.
    + right. destruct Hd as [_ ->]. split; [done|].
      intros He. by rewrite He, map_size_empty in Hsz.
Qed.

(** X13. The server forgets no response: once no callback is owed to it,
    each request it has received has a response that the server has ended
    with [res.end()], or into which it has piped the answer of the backend
    or the stored file.  A piped response counts as ended here: it is
    ended when its stream has been delivered in full, which the embedding
    takes for granted and the server does not watch over (it sets no
    listener for a stream that breaks off). *)
Theorem X13_no_response_forgotten store evs s :
  reaches lib self store evs s → quiescent s →
  ∀ i, (i < nextId s)%nat → ∃ r, responses s !! i = Some r ∧ ended r = true.
Proof.
  intros Hreach (Hst & Hpr & Hfin) i Hi.
  pose proof (reaches_Inv lib self store evs s Hreach) as HI.
  pose proof (reaches_Served lib self store evs s Hreach) as HS.
  destruct (proj2 (srv_dom _ HS i) Hi) as [r Hr]. exists r. split; [done|].
  destruct (srv_done _ HS i r Hr) as [?|[Hs|[Hw|[Hp|(f & Hf & Hopen)]]]]; [done|..].
  - rewrite Hst, lookup_empty in Hs. by destruct Hs.
  - destruct Hw as (file & q & w & Hq & _).
    destruct (inv_owner _ _ HI file) as (id & f & Hf & Hfa & _); [eauto|].
    by destruct Hfa; eapply Hfin.
  - rewrite Hpr, lookup_empty in Hp. by destruct Hp.
  - by rewrite (Hfin i f Hf) in Hopen.
Qed.

(** X14. No callback writes to a response that has been ended: such a
    response stays as it is. *)
Theorem X14_no_write_after_end store evs s e s' i r :
  reaches lib self store evs s →
  step lib self e s = Some s' →
  responses s !! i = Some r → ended r = true →
  responses s' !! i = Some r.
Proof.
  intros Hreach. eapply step_ended.
  - by eapply reaches_Inv.
  - by eapply reaches_Served.
Qed.

(** X15. Every request the server sends is built from a request it has
    received.  For a request that is not eligible for the cache it is sent
    with the body of the client's; for an eligible one, without body.  In
    both cases the URL is the backend URL followed by the path and query as
    they were received, the transport is that of the backend URL, the
    method is the client's, the [host] header is what [url.parse] gives
    for that URL, and the other headers are the client's except [date],
    [server] and [host].  What was received is appended as it is: the
    server does not test that it starts with [/]. *)
Theorem X15_sent_for_received store evs s r :
  reaches lib self store evs s →
  r ∈ outgoing s →
  ∃ req,
    EvRequest req ∈ evs ∧
    let uristring := backendUrl self +:+ url_path req in
    r = {| uri_https := backendHttps self;
           uri_href := uristring;
           uri_method := method req;
           uri_headers := <["host" := url_host lib uristring]>
                            (filter (λ kv, kv.1 ∉ NO_PROXY_HEADERS) (headers req));
           uri_body := match store_key self req with
                       | None => payload req
                       | Some _ => EmptyString
                       end |}.
Proof.
  intros Hreach Hr.
  assert (HR : Received lib self [] (start store)).
  { split; [done|]. by intros r0 ?%elem_of_nil. }
  destruct (run_Received lib self [] evs _ s HR Hreach) as [_ Hout].
  destruct (Hout r Hr) as (req & Hin & [[Hkey ->]|[[file Hkey] ->]]);
    exists req; (split; [done|]); by rewrite Hkey.
Qed.

(** X16. As long as no request is looked up under a temporary name, a
    regular file of the store whose name is not a temporary name is never
    changed nor removed. *)
Theorem X16_file_kept store evs s evs' s' p content m :
  reaches lib self store evs s →
  run lib self evs' s = Some s' →
  proper self (evs ++ evs') = true →
  fs s !! p = Some (File content m) → is_tmp p = false →
  fs s' !! p = Some (File content m).
Proof.
  intros Hreach Hrun Hpr Hp Hnt.
  rewrite proper_app in Hpr. apply andb_true_iff in Hpr as [Hpr Hpr'].
  eapply (run_keeps lib self evs' s s'); try done.
  - by eapply reaches_proper_Inv.
  - by eapply reaches_Absent.
Qed.

(** X17. What a fill has published is what later requests are served: after
    the rename, and as long as no request is looked up under a temporary
    name, a request other than HEAD whose [fs.stat] callback runs at any
    later time, and whose [If-None-Match] is not the tag of the file, gets
    status 200 and the body the backend delivered to the fill. *)
Theorem X17_fill_then_hit store evs s id f ores evs' s' :
  reaches lib self store evs s →
  fills s !! id = Some f → f_phase f = Restat ores →
  run lib self evs' s = Some s' →
  proper self (evs ++ evs') = true →
  ∃ m,
    fs s' !! f_file f = Some (File (payload ores) m) ∧
    ∀ i req,
      statting s' !! i = Some (req, f_file f) →
      method req ≠ "HEAD" →
      headers req !! "if-none-match"
        ≠ Some (entity_tag (Z.of_nat (String.length (payload ores))) m) →
      ∃ s'' res,
        step lib self (EvStat i) s' = Some s'' ∧
        responses s'' !! i = Some res ∧
        statusCode res = 200 ∧ body res = payload ores ∧ ended res = true ∧
        outgoing s'' = outgoing s'.
Proof.
  intros Hreach Hf Hph Hrun Hpr.
  pose proof Hpr as Hpr2.
  rewrite proper_app in Hpr2. apply andb_true_iff in Hpr2 as [Hpr1 Hpr2].
  pose proof (reaches_proper_Inv lib self store evs s Hreach Hpr1) as HI.
  pose proof (inv_store _ _ HI eq_refl id f Hf) as Hst. rewrite Hph in Hst.
  destruct Hst as (m & Hfile). exists m.
  assert (Hnt : is_tmp (f_file f) = false) by (by eapply inv_fill_key).
  assert (Hfile' : fs s' !! f_file f = Some (File (payload ores) m)).
  { eapply (run_keeps lib self evs' s s'); try done.
    by eapply reaches_Absent. }
  split; [done|]. intros i req Hi Hget Hno.
  assert (Hreach' : reaches lib self store (evs ++ evs') s').
  { unfold reaches in *. clear -Hreach Hrun. revert Hreach. generalize (start store).
    induction evs as [|e evs IH]; intros s0; simpl.
    - by intros [= ->].
    - destruct (step lib self e s0); simpl; [apply IH|done]. }
  destruct (onStat_hit lib self store _ s' i req (f_file f) (payload ores) m Hreach' Hi Hfile')
    as (s'' & Hstep & Hres & Hout & _).
  rewrite streamFile_new in Hres.
  rewrite decide_False in Hres by done. cbn zeta in Hres.
  rewrite decide_False in Hres by done. rewrite Hfile' in Hres.
  eexists s'', _. by split_and!.
Qed.

End Runs.

(** ** [onIdle] *)
Section OnIdle.
Context (lib : Lib) (self : Server).

(** What [act] keeps: the callbacks handed to [onIdle] are called or
    registered, and none is registered while the server is idle. *)
Lemma act_listeners a l l' regs :
  Idle (srv l) →
  called l ++ onceIdle l = regs → (idle (srv l) = true → onceIdle l = []) →
  act lib self a l = Some l' →
  Idle (srv l') ∧
  called l' ++ onceIdle l' = regs ++ registered [a] ∧
  (idle (srv l') = true → onceIdle l' = []) ∧
  (called l' ≠ called l → idle (srv l') = true).
Proof.
  intros HI Hregs Hnone. destruct a as [e|cb]; simpl.
  - destruct (step lib self e (srv l)) as [s1|] eqn:Hstep; simpl; [|done].
    intros [= <-]. pose proof (step_Idle lib self e _ _ HI Hstep) as HI1.
    rewrite app_nil_r.
    destruct (step_registry lib self e _ _ Hstep)
      as [(Hp & Hi & Hn)|[(file & q & w & Hq & Hp & Hi & Hn)|[(file & Hq & Hp & Hi & Hn)
         |(file & Hq & Hp & Hd)]]].
    + rewrite decide_True by done. simpl. rewrite Hi. by split_and!.
    + rewrite decide_True by done. simpl. rewrite Hi. by split_and!.
    + rewrite decide_True by done. simpl. split_and!; [done|done| |done].
      intros Hi'. by rewrite Hi' in Hi.
    + case_decide as Hsz.
      * destruct Hd as [Hi Hn]. rewrite decide_False by lia. simpl.
        rewrite app_nil_r. by split_and!.
      * destruct Hd as [Hi Hn]. rewrite decide_True by done. simpl.
        rewrite Hi. by split_and!.
  - intros [= <-]. unfold onIdle. destruct (idle (srv l)) eqn:Hidle; simpl.
    + rewrite (Hnone eq_refl) in *. rewrite app_nil_r in *. subst.
      by split_and!.
    + subst. rewrite app_assoc. split_and!; [done|done|intros ?; congruence|done].
Qed.

Lemma perform_listeners acts regs l0 l :
  Idle (srv l0) → (idle (srv l0) = true → onceIdle l0 = []) →
  called l0 ++ onceIdle l0 = regs → perform lib self acts l0 = Some l →
  Idle (srv l) ∧ called l ++ onceIdle l = regs ++ registered acts ∧
  (idle (srv l) = true → onceIdle l = []).
Proof.
  revert regs l0. induction acts as [|a acts IH]; intros regs l0 HI Hn Hr; simpl.
  - intros [= <-]. by rewrite app_nil_r.
  - destruct (act lib self a l0) as [l1|] eqn:Hact; simpl; [|done].
    intros Hp. destruct (act_listeners a l0 l1 regs HI Hr Hn Hact) as (HI1 & Hr1 & Hn1 & _).
    destruct (IH _ l1 HI1 Hn1 Hr1 Hp) as (? & Hr2 & ?). split_and!; [done| |done].
    rewrite Hr2, <- app_assoc. f_equal. by destruct a.
Qed.

(** X18. On a server that has been started and has not been stopped, the
    callbacks handed to [onIdle] are called in the order in which they were
    handed over, each once: at once when the server is idle, and otherwise
    by the callback of the server that removes the last record of
    [inProgress].  While the server is idle none is left waiting, and a
    callback is never called while a fill is in progress.  ([stop] is not
    among the actions: the listener it sets for [close] makes the server
    idle whatever is in progress.) *)
Theorem X18_onIdle store acts l :
  perform lib self acts (listen store) = Some l →
  called l ++ onceIdle l = registered acts ∧
  (inProgress (srv l) = ∅ → called l = registered acts) ∧
  ∀ a l', act lib self a l = Some l' → called l' ≠ called l →
    inProgress (srv l') = ∅ ∧ called l' = registered (acts ++ [a]).
Proof.
  intros Hp.
  destruct (perform_listeners acts [] (listen store) l) as (HI & Hregs & Hnone); [done..|].
  simpl in Hregs.
  split_and!; [done| |].
  - intros He. rewrite <- Hregs, Hnone, app_nil_r; [done|]. by apply HI.
  - intros a l' Hact Hne.
    destruct (act_listeners a l l' _ HI Hregs Hnone Hact) as (HI1 & Hr1 & Hn1 & Hc1).
    pose proof (Hc1 Hne) as Hidle. split; [by apply HI1|].
    assert (registered (acts ++ [a]) = registered acts ++ registered [a]) as ->
      by apply omap_app.
    by rewrite <- Hr1, (Hn1 Hidle), app_nil_r.
Qed.

End OnIdle.

(** ** The command line *)
Section CommandLine.
Import Cli.

Lemma strip_slashes_tail (s : string) :
  ∃ t, s = strip_slashes s +:+ t ∧ all_slashes t = true.
Proof.
  induction s as [|c s (t & Ht & Hall)]; [by exists EmptyString|].
  unfold strip_slashes; fold strip_slashes.
  destruct (all_slashes (String c s)) eqn:Hs.
  - by exists (String c s).
  - exists t. rewrite append_cons. by rewrite <- Ht.
Qed.

Lemma strip_slashes_empty (s : string) :
  strip_slashes s = EmptyString → all_slashes s = true.
Proof.
  destruct s as [|c s]; [done|]. unfold strip_slashes; fold strip_slashes.
  by destruct (all_slashes (String c s)).
Qed.

Lemma strip_slashes_last (s x : string) :
  strip_slashes s ≠ x +:+ "/".
Proof.
  revert x. induction s as [|c s IH]; intros x.
  - by destruct x.
  - unfold strip_slashes; fold strip_slashes.
    destruct (all_slashes (String c s)) eqn:Hs; [by destruct x|].
    destruct x as [|d x].
    + intros [= -> He]. apply strip_slashes_empty in He.
      change (all_slashes (String "/" s))
        with (bool_decide (Js.slash = Js.slash) && all_slashes s) in Hs.
      by rewrite He, bool_decide_eq_true_2 in Hs.
    + rewrite append_cons. intros [= -> He]. by eapply IH.
Qed.

Lemma strip_slashes_end (s : string) : Js.endsWith "/" (strip_slashes s) = false.
Proof.
  destruct (Js.endsWith "/" (strip_slashes s)) eqn:He; [|done].
  apply endsWith_inv in He as [x Hx]. by apply strip_slashes_last in Hx.
Qed.

Lemma last_arg_cons o p l :
  last_arg o (p :: l) =
    match last_arg o l with
    | Some x => Some x
    | None => if decide (option_ p = o) then Some (optarg p) else None
    end.
Proof.
  unfold last_arg. rewrite filter_cons. case_decide; [|by destruct (last _)].
  rewrite fmap_cons, last_cons. by destruct (last _).
Qed.

Context (parseInt : string → option Z) (RegExp : string → option (string → bool)).
Context (env : Env) (cwd : string).

Local Ltac set_option IH Hopt :=
  let Hh := fresh in let Hc := fresh in let Hu := fresh in let Hp := fresh in
  let Hr := fresh in let Hd := fresh in let Hk := fresh in
  intros (Hh & Hc & Hu & Hp & Hr & Hd & Hk)%IH; simpl in *;
  rewrite Hh, Hc, Hu, Hp, Hr, Hd;
  repeat case_decide; try congruence;
  (split_and!;
     [by repeat match goal with |- context [last_arg ?a ?b] => destruct (last_arg a b) end..
     |by rewrite ?orb_true_l, ?orb_true_r, ?orb_false_l
     |apply Forall_cons; split; [rewrite Hopt; unfold known; repeat first [by left|right]|done]]).

(** The loop ends only on options that set a variable, and the last
    occurrence of an option decides. *)
Lemma options_inl l v v' :
  options parseInt l v = inl v' →
  v_host v' = default (v_host v) (last_arg "H" l) ∧
  v_cacheDir v' = default (v_cacheDir v) (last_arg "c" l) ∧
  v_backendUrl v' = match last_arg "U" l with Some u => Some u | None => v_backendUrl v end ∧
  v_port v' = match last_arg "p" l with
              | Some a => match parseInt a with Some n => PortNumber n | None => PortNaN end
              | None => v_port v
              end ∧
  v_regex v' = match last_arg "r" l with Some r => RegexString r | None => v_regex v end ∧
  v_debug v' = v_debug v || existsb (λ p, bool_decide (option_ p = "d")) l ∧
  Forall (λ p, option_ p ∈ known) l.
Proof.
  revert v. induction l as [|o l IH]; intros v; simpl.
  - intros [= <-]. rewrite orb_false_r. by split_and!.
  - rewrite !last_arg_cons, !bool_decide_decide.
    destruct (decide (option_ o = "c")) as [Hopt|?]; [by set_option IH Hopt|].
    destruct (decide (option_ o = "d")) as [Hopt|?]; [by set_option IH Hopt|].
    destruct (decide (option_ o = "H")) as [Hopt|?]; [by set_option IH Hopt|].
    destruct (decide (option_ o = "h")) as [Hopt|?]; [done|].
    destruct (decide (option_ o = "p")) as [Hopt|?]; [by set_option IH Hopt|].
    destruct (decide (option_ o = "r")) as [Hopt|?]; [by set_option IH Hopt|].
    destruct (decide (option_ o = "U")) as [Hopt|?]; [by set_option IH Hopt|].
    destruct (decide (option_ o = "u")) as [Hopt|?]; [done|].
    by destruct (decide (option_ o = "v")).
Qed.

Lemma options_inr l v out self dbg :
  options parseInt l v = inr out → out ≠ Started self dbg.
Proof.
  revert v. induction l as [|o l IH]; intros v; simpl; [done|].
  repeat case_decide; try apply IH; by intros [= <-].
Qed.

(** X19. [main] starts a server only when a backend URL is given: the
    argument of the last [-U], or without [-U] the variable [FS_CACHE_URL],
    and this URL is not empty.  The server is given the URL without its
    trailing slashes. *)
Theorem X19_main_url argv self dbg :
  main parseInt RegExp env cwd argv = Started self dbg →
  ∃ url t,
    match last_arg "U" argv with Some u => Some u | None => FS_CACHE_URL env end = Some url ∧
    url ≠ EmptyString ∧
    url = backendUrl self +:+ t ∧ all_slashes t = true ∧
    Js.endsWith "/" (backendUrl self) = false.
Proof.
  unfold main. destruct (options _ _ _) as [v|out] eqn:Hopts;
    [|by intros ?; exfalso; eapply options_inr].
  apply options_inl in Hopts as (_ & _ & Hu & _).
  destruct (v_backendUrl v) as [url|] eqn:Hurl; [|done].
  case_decide as Hne; [done|].
  destruct (compile _ _) as [r|]; [|done].
  destruct (construct _ _ _) as [self'|] eqn:Hc; [|done]. intros [= -> Hdbg].
  assert (backendUrl self = strip_slashes url) as ->.
  { unfold construct in Hc. destruct (v_port v); try done.
    by destruct r; try done; injection Hc as <-. }
  destruct (strip_slashes_tail url) as (t & Ht & Hall).
  exists url, t. split_and!; [symmetry; exact Hu|done|done|done|apply strip_slashes_end].
Qed.

(** X20. The port of the server [main] starts is the number [parseInt]
    reads from the argument of the last [-p], or 8080 without [-p].  A
    server is never started on the port of [FS_CACHE_PORT]: the variable is
    a string, which the constructor refuses. *)
Theorem X20_main_port argv self dbg :
  main parseInt RegExp env cwd argv = Started self dbg →
  match last_arg "p" argv with
  | Some a => parseInt a = Some (port self)
  | None => port self = 8080 ∧ falsy (FS_CACHE_PORT env) = true
  end.
Proof.
  unfold main. destruct (options _ _ _) as [v|out] eqn:Hopts;
    [|by intros ?; exfalso; eapply options_inr].
  apply options_inl in Hopts as (_ & _ & _ & Hp & _).
  destruct (v_backendUrl v) as [url|]; [|done].
  case_decide; [done|].
  destruct (compile _ _) as [r|]; [|done].
  destruct (construct _ _ _) as [self'|] eqn:Hc; [|done]. intros [= -> Hdbg].
  unfold construct in Hc. destruct (v_port v) as [|n|] eqn:Hport; try done.
  assert (port self = n) as -> by (by destruct r; try done; injection Hc as <-).
  destruct (last_arg "p" argv) as [a|].
  - by destruct (parseInt a); simplify_eq.
  - simpl in Hp. destruct (FS_CACHE_PORT env) as [p|]; [|by simplify_eq].
    simpl. case_decide; simplify_eq. by rewrite bool_decide_eq_true_2.
Qed.

(** X21. The other settings of the server [main] starts: the argument of
    the last occurrence of an option on the command line, else the variable
    of the environment when it is set and not empty, else the default.  A
    pattern, when one is given, is not empty and compiles; [-d] alone
    switches the debug log on; and the command line holds none of [-h],
    [-u], [-v] and no option the parser does not know. *)
Theorem X21_main_settings argv self dbg :
  main parseInt RegExp env cwd argv = Started self dbg →
  host self = default (or_else (FS_CACHE_HOST env) "0.0.0.0") (last_arg "H" argv) ∧
  cacheDir self = default (or_else (FS_CACHE_DIR env) cwd) (last_arg "c" argv) ∧
  match (match last_arg "r" argv with Some r => Some r | None => FS_CACHE_REGEX env end) with
  | Some r => r ≠ EmptyString ∧ RegExp r = Some (regex self)
  | None => regex self = REGEX
  end ∧
  cacheMethods self = CACHE_METHODS ∧
  dbg = existsb (λ p, bool_decide (option_ p = "d")) argv ∧
  Forall (λ p, option_ p ∈ known) argv.
Proof.
  unfold main. destruct (options _ _ _) as [v|out] eqn:Hopts;
    [|by intros ?; exfalso; eapply options_inr].
  apply options_inl in Hopts as (Hh & Hc & _ & _ & Hr & Hd & Hk).
  destruct (v_backendUrl v) as [url|]; [|done].
  case_decide; [done|].
  destruct (compile _ _) as [r|] eqn:Hcomp; [|done].
  destruct (construct _ _ _) as [self'|] eqn:Hcons; [|done]. intros [= -> Hdbg].
  unfold construct in Hcons. destruct (v_port v) as [|n|]; try done.
  assert (v_regex (initial env cwd)
          = match FS_CACHE_REGEX env with Some r => RegexString r | None => RegexUndefined end)
    as Hinit by done.
  destruct r as [|x|test]; [|done|]; injection Hcons as <-;
    (split_and!; [exact Hh|exact Hc| |done|by rewrite <- Hdbg|done]); simpl.
  - unfold compile in Hcomp. destruct (v_regex v) as [|x|test] eqn:Hv.
    + destruct (last_arg "r" argv); [done|].
      rewrite Hinit in Hr. by destruct (FS_CACHE_REGEX env).
    + case_decide; [done|]. by destruct (RegExp x).
    + done.
  - unfold compile in Hcomp. destruct (v_regex v) as [|x|test'] eqn:Hv.
    + done.
    + case_decide as Hx; [done|]. destruct (RegExp x) as [t|] eqn:Hre; [|done].
      injection Hcomp as ->.
      destruct (last_arg "r" argv); [by simplify_eq|].
      rewrite Hinit in Hr. destruct (FS_CACHE_REGEX env); by simplify_eq.
    + destruct (last_arg "r" argv); [done|].
      rewrite Hinit in Hr. by destruct (FS_CACHE_REGEX env).
Qed.

End CommandLine.

(** ** [start] and [stop] *)
Section StartStop.
Context (lib : Lib) (self : Server).

Lemma operate_started o i i' :
  Lifecycle.operate lib self o i = Some i' →
  Lifecycle.start i = None → Lifecycle.start i' = None ∧ o ≠ Lifecycle.Start.
Proof.
  destruct o; simpl.
  - by intros -> [=].
  - destruct i; try done. by intros [= <-].
  - destruct i as [|s []|]; try done. by intros [= <-].
  - destruct i as [store|s b|s]; [done| |].
    + destruct (step lib self e s); simpl; [|done]. by intros [= <-].
    + destruct e; try done.
      all: match goal with |- context [mbind _ ?x] => destruct x end; simpl; [|done].
      all: by intros [= <-].
Qed.

(** X22. An instance is started once: after [start], whatever happens to
    the instance, [stop] and the [close] of its server included, a second
    call of [start] throws. *)
Theorem X22_started_once store ops i :
  Lifecycle.perform lib self (Lifecycle.Start :: ops) (Lifecycle.Constructed store) = Some i →
  Lifecycle.start i = None ∧ Lifecycle.Start ∉ ops.
Proof.
  simpl. generalize (Lifecycle.Running (start store) false) (eq_refl :
    Lifecycle.start (Lifecycle.Running (start store) false) = None).
  induction ops as [|o ops IH]; intros i0 Hi0; simpl.
  - intros [= <-]. split; [done|]. by intros ?%elem_of_nil.
  - destruct (Lifecycle.operate lib self o i0) as [i1|] eqn:Hop; simpl; [|done].
    intros Hp. destruct (operate_started o i0 i1 Hop Hi0) as [Hi1 Ho].
    destruct (IH i1 Hi1 Hp) as [Hi Hops]. split; [done|].
    intros [?|?]%elem_of_cons; [by subst|done].
Qed.

End StartStop.

(** ** The further properties on concrete inputs *)


Lemma lowercase_created : lowercase (headers Sample.created).
Proof.
  intros k [v Hk]. unfold Sample.created, Ex.response in Hk. simpl in Hk.
  apply lookup_insert_Some in Hk as [[<- _]|[_ Hk]]; [reflexivity|].
  apply lookup_singleton_Some in Hk as [<- _]. reflexivity.
Qed.

Lemma lowercase_pixels : lowercase (headers Ex.pixels).
Proof. intros k [v Hk]. unfold Ex.pixels, Ex.response in Hk. simpl in Hk. by rewrite lookup_empty in Hk. Qed.

Lemma X2_proxied_response_witness :
  ∃ s',
    step node_lib Ex.self (EvProxyResponse 0 Sample.created) Sample.uploading = Some s' ∧
    responses s' !! 0%nat =
      Some {| statusCode := ores_statusCode Sample.created;
              resHeaders := forwarded (headers Sample.created);
              body := payload Sample.created; ended := true |} ∧
    fs s' = fs Sample.uploading ∧ inProgress s' = inProgress Sample.uploading ∧
    outgoing s' = outgoing Sample.uploading.
Proof.
  apply (X2_proxied_response node_lib Ex.self ∅ [EvRequest Sample.upload] Sample.uploading
           0%nat Sample.upload Sample.created).
  - vm_compute; reflexivity.
  - vm_compute; reflexivity.
  - exact lowercase_created.
Defined.

Lemma X3_proxied_error_witness :
  ∃ s',
    step node_lib Ex.self (EvProxyError 0) Sample.uploading = Some s' ∧
    responses s' !! 0%nat = Some (bare 500) ∧
    fs s' = fs Sample.uploading ∧ inProgress s' = inProgress Sample.uploading ∧
    outgoing s' = outgoing Sample.uploading.
Proof.
  apply (X3_proxied_error node_lib Ex.self ∅ [EvRequest Sample.upload] Sample.uploading
           0%nat Sample.upload).
  - vm_compute; reflexivity.
  - vm_compute; reflexivity.
Defined.

Lemma X4_directory_witness :
  ∃ s',
    step node_lib Ex.self (EvStat 0)
      (Sample.looked_up Sample.with_directory "/directory.png") = Some s' ∧
    responses s' !! 0%nat = Some (bare 400) ∧
    outgoing s' = outgoing (Sample.looked_up Sample.with_directory "/directory.png") ∧
    inProgress s' = inProgress (Sample.looked_up Sample.with_directory "/directory.png") ∧
    fs s' = fs (Sample.looked_up Sample.with_directory "/directory.png").
Proof.
  apply (X4_directory node_lib Ex.self Sample.with_directory
           [EvRequest (Ex.get "/directory.png")] _ 0%nat (Ex.get "/directory.png")
           "/cache/directory.png").
  - vm_compute; reflexivity.
  - vm_compute; reflexivity.
  - vm_compute; reflexivity.
Defined.

Lemma X5_hit_witness :
  ∃ s' res,
    step node_lib Ex.self (EvStat 0) (Sample.looked_up Ex.warm "/hello.png") = Some s' ∧
    responses s' !! 0%nat = Some res ∧
    statusCode res = 200 ∧ body res = "hello" ∧ ended res = true ∧
    resHeaders res !! "content-length" = Some (Js.fmt_d (Z.of_nat (String.length "hello"))) ∧
    outgoing s' = outgoing (Sample.looked_up Ex.warm "/hello.png") ∧
    fs s' = fs (Sample.looked_up Ex.warm "/hello.png").
Proof.
  apply (X5_hit node_lib Ex.self Ex.warm [EvRequest (Ex.get "/hello.png")] _ 0%nat
           (Ex.get "/hello.png") "/cache/hello.png" "hello" 1762077600000).
  - vm_compute; reflexivity.
  - vm_compute; reflexivity.
  - vm_compute; reflexivity.
  - discriminate.
  - vm_compute. discriminate.
Defined.


Lemma X7_trigger_streamed_witness :
  ∃ s',
    step node_lib Ex.self (EvMkdirp 0 false) Sample.before_mkdirp = Some s' ∧
    responses s' !! 0%nat
      = Some {| statusCode := 200; resHeaders := forwarded ∅; body := "pixels";
                ended := true |} ∧
    ∀ evs' s'', run node_lib Ex.self evs' s' = Some s'' →
      responses s'' !! 0%nat
        = Some {| statusCode := 200; resHeaders := forwarded ∅; body := "pixels";
                  ended := true |}.
Proof.
  apply (X7_trigger_streamed node_lib Ex.self ∅ Sample.answered_run Sample.before_mkdirp
           0%nat (at_phase (AwaitMkdirp Ex.pixels) Sample.simultaneous) Ex.pixels false).
  - vm_compute; reflexivity.
  - vm_compute; reflexivity.
  - reflexivity.
  - exact lowercase_pixels.
Defined.

Lemma X8_request_error_witness :
  ∃ s' q,
    step node_lib Ex.self (EvRequestError 0) Ex.awaiting_404 = Some s' ∧
    inProgress Ex.awaiting_404 !! "/cache/statusCode/404/x.png" = Some q ∧
    responses s' !! 0%nat = Some (bare 500) ∧
    (∀ o, o ∈ q → responses s' !! w_res o = Some (bare 500)) ∧
    inProgress s' = delete "/cache/statusCode/404/x.png" (inProgress Ex.awaiting_404) ∧
    fs s' = fs Ex.awaiting_404 ∧ outgoing s' = outgoing Ex.awaiting_404.
Proof.
  apply (X8_request_error node_lib Ex.self ∅ Ex.not_found_run Ex.awaiting_404 0%nat
           {| f_req := Ex.get "/statusCode/404/x.png";
              f_file := "/cache/statusCode/404/x.png"; f_phase := AwaitResponse |}).
  - vm_compute; reflexivity.
  - vm_compute; reflexivity.
  - reflexivity.
Defined.

Lemma X9_failed_fill_witness :
  ∃ s' q,
    step node_lib Ex.self (EvRename 0 false) Ex.before_rename = Some s' ∧
    inProgress Ex.before_rename !! "/cache/simultaneous.png" = Some q ∧
    (∀ o, o ∈ q → responses s' !! w_res o = Some (bare 500)) ∧
    responses s' !! 0%nat = responses Ex.before_rename !! 0%nat ∧
    inProgress s' = delete "/cache/simultaneous.png" (inProgress Ex.before_rename) ∧
    fs s' = fs Ex.before_rename ∧
    (proper Ex.self (Ex.two_get ++ Ex.written) = true →
     ∀ content m, fs s' !! "/cache/simultaneous.png" ≠ Some (File content m)).
Proof.
  apply (X9_failed_fill node_lib Ex.self ∅ (Ex.two_get ++ Ex.written) Ex.before_rename
           0%nat (at_phase (Renaming Ex.pixels) Sample.simultaneous) (EvRename 0 false)).
  - vm_compute; reflexivity.
  - vm_compute; reflexivity.
  - reflexivity.
Defined.


Lemma X11_idle_witness :
  (idle Ex.before_restat = true ↔ inProgress Ex.before_restat = ∅) ∧
  (inProgress Ex.before_restat = ∅
   ↔ ∀ id f, fills Ex.before_restat !! id = Some f → f_phase f = Finished).
Proof.
  apply (X11_idle node_lib Ex.self ∅ (Ex.two_get ++ Ex.written ++ [EvRename 0 true])).
  vm_compute; reflexivity.
Defined.

Lemma X12_idle_announced_witness :
  (idleEvents Sample.filled = S (idleEvents Ex.before_restat)
   ∧ inProgress Ex.before_restat ≠ ∅ ∧ inProgress Sample.filled = ∅)
  ∨ (idleEvents Sample.filled = idleEvents Ex.before_restat
     ∧ (inProgress Sample.filled = ∅ → inProgress Ex.before_restat = ∅)).
Proof.
  apply (X12_idle_announced node_lib Ex.self (EvRestat 0)).
  vm_compute; reflexivity.
Defined.

Lemma fills_filled :
  fills Sample.filled = {[ 0%nat := at_phase Finished Sample.simultaneous ]}.
Proof. vm_compute; reflexivity. Qed.

Lemma X13_no_response_forgotten_witness :
  ∃ r, responses Sample.filled !! 1%nat = Some r ∧ ended r = true.
Proof.
  apply (X13_no_response_forgotten node_lib Ex.self ∅ Sample.filled_run Sample.filled).
  - vm_compute; reflexivity.
  - split; [vm_compute; reflexivity|]. split; [vm_compute; reflexivity|].
    intros id f. rewrite fills_filled.
    intros [_ <-]%lookup_singleton_Some. reflexivity.
  - vm_compute. lia.
Defined.

Lemma X14_no_write_after_end_witness :
  responses (onRequest node_lib Ex.self (Ex.get "/x.png") Sample.refused) !! 0%nat
    = Some (bare 400).
Proof.
  apply (X14_no_write_after_end node_lib Ex.self ∅ [EvRequest (Ex.get "/%zz.png")]
           Sample.refused (EvRequest (Ex.get "/x.png")) _ 0%nat (bare 400)).
  - vm_compute; reflexivity.
  - reflexivity.
  - vm_compute; reflexivity.
  - reflexivity.
Defined.

Lemma X15_sent_for_received_witness :
  ∃ req,
    EvRequest req ∈ [EvRequest Sample.upload] ∧
    let uristring := backendUrl Ex.self +:+ url_path req in
    backend_request node_lib Ex.self Sample.upload (payload Sample.upload)
    = {| uri_https := backendHttps Ex.self;
         uri_href := uristring;
         uri_method := method req;
         uri_headers := <["host" := url_host node_lib uristring]>
                          (filter (λ kv, kv.1 ∉ NO_PROXY_HEADERS) (headers req));
         uri_body := match store_key Ex.self req with
                     | None => payload req
                     | Some _ => EmptyString
                     end |}.
Proof.
  apply (X15_sent_for_received node_lib Ex.self ∅ [EvRequest Sample.upload]
           Sample.uploading).
  - vm_compute; reflexivity.
  - vm_compute. left.
Defined.

Lemma X16_file_kept_witness :
  fs Sample.warm_filled !! "/cache/hello.png" = Some (File "hello" 1762077600000).
Proof.
  apply (X16_file_kept node_lib Ex.self Ex.warm [] (start Ex.warm) Ex.header_run
           Sample.warm_filled "/cache/hello.png" "hello" 1762077600000).
  - reflexivity.
  - vm_compute; reflexivity.
  - vm_compute; reflexivity.
  - vm_compute; reflexivity.
  - vm_compute; reflexivity.
Defined.

Lemma X17_fill_then_hit_witness :
  ∃ s'' res,
    step node_lib Ex.self (EvStat 2) Sample.asked_again = Some s'' ∧
    responses s'' !! 2%nat = Some res ∧
    statusCode res = 200 ∧ body res = "pixels" ∧ ended res = true ∧
    outgoing s'' = outgoing Sample.asked_again.
Proof.
  destruct (X17_fill_then_hit node_lib Ex.self ∅
              (Ex.two_get ++ Ex.written ++ [EvRename 0 true]) Ex.before_restat 0%nat
              (at_phase (Restat Ex.pixels) Sample.simultaneous) Ex.pixels
              [EvRestat 0; EvRequest (Ex.get "/simultaneous.png")] Sample.asked_again)
    as (m & Hfile & Hhit).
  - vm_compute; reflexivity.
  - vm_compute; reflexivity.
  - reflexivity.
  - vm_compute; reflexivity.
  - vm_compute; reflexivity.
  - apply (Hhit 2%nat (Ex.get "/simultaneous.png")).
    + vm_compute; reflexivity.
    + discriminate.
    + unfold Ex.get, Ex.request. simpl. rewrite lookup_empty. discriminate.
Defined.

Lemma X18_onIdle_witness :
  called Sample.listening ++ onceIdle Sample.listening = registered Sample.idle_acts ∧
  (inProgress (srv Sample.listening) = ∅ →
   called Sample.listening = registered Sample.idle_acts) ∧
  ∀ a l', act node_lib Ex.self a Sample.listening = Some l' →
    called l' ≠ called Sample.listening →
    inProgress (srv l') = ∅ ∧ called l' = registered (Sample.idle_acts ++ [a]).
Proof.
  apply (X18_onIdle node_lib Ex.self ∅ Sample.idle_acts Sample.listening).
  vm_compute; reflexivity.
Defined.

Lemma main_sample :
  Cli.main Sample.parseInt Sample.RegExp Sample.env "/srv" Sample.argv
    = Cli.Started Sample.server true.
Proof. vm_compute; reflexivity. Qed.

Lemma X19_main_url_witness :
  ∃ url t,
    match Cli.last_arg "U" Sample.argv with
    | Some u => Some u
    | None => Cli.FS_CACHE_URL Sample.env
    end = Some url ∧
    url ≠ EmptyString ∧
    url = backendUrl Sample.server +:+ t ∧ Cli.all_slashes t = true ∧
    Js.endsWith "/" (backendUrl Sample.server) = false.
Proof.
  apply (X19_main_url Sample.parseInt Sample.RegExp Sample.env "/srv" Sample.argv
           Sample.server true).
  exact main_sample.
Defined.

Lemma X20_main_port_witness :
  match Cli.last_arg "p" Sample.argv with
  | Some a => Sample.parseInt a = Some (port Sample.server)
  | None => port Sample.server = 8080 ∧ Cli.falsy (Cli.FS_CACHE_PORT Sample.env) = true
  end.
Proof.
  apply (X20_main_port Sample.parseInt Sample.RegExp Sample.env "/srv" Sample.argv
           Sample.server true).
  exact main_sample.
Defined.

Lemma X21_main_settings_witness :
  host Sample.server
    = default (Cli.or_else (Cli.FS_CACHE_HOST Sample.env) "0.0.0.0")
        (Cli.last_arg "H" Sample.argv) ∧
  cacheDir Sample.server
    = default (Cli.or_else (Cli.FS_CACHE_DIR Sample.env) "/srv")
        (Cli.last_arg "c" Sample.argv) ∧
  match (match Cli.last_arg "r" Sample.argv with
         | Some r => Some r
         | None => Cli.FS_CACHE_REGEX Sample.env
         end) with
  | Some r => r ≠ EmptyString ∧ Sample.RegExp r = Some (regex Sample.server)
  | None => regex Sample.server = REGEX
  end ∧
  cacheMethods Sample.server = CACHE_METHODS ∧
  true = existsb (λ p, bool_decide (Cli.option_ p = "d")) Sample.argv ∧
  Forall (λ p, Cli.option_ p ∈ Cli.known) Sample.argv.
Proof.
  apply (X21_main_settings Sample.parseInt Sample.RegExp Sample.env "/srv" Sample.argv
           Sample.server true).
  exact main_sample.
Defined.

Lemma X22_started_once_witness :
  Lifecycle.start (Lifecycle.Stopped (start ∅)) = None ∧
  Lifecycle.Start ∉ [Lifecycle.Stop; Lifecycle.Close].
Proof.
  apply (X22_started_once node_lib Ex.self ∅ [Lifecycle.Stop; Lifecycle.Close]).
  vm_compute; reflexivity.
Defined.
